(** * AI Avatar Arena: the simulation core of [useSimulationState.ts]

    A shallow embedding of the perception engine ([getSensoryInput]), the
    action resolver ([executeDecision]), the decision-flow validation of
    [avatarDecisionGenkitFlow] and the world mutators ([addAvatar],
    [removeAvatar], [resizeBoard], [addLog]), with the properties the
    specification states about them.

    Conventions of the embedding.
    - A JavaScript [number] is a real number ([R]): the finite values, with
      exact arithmetic.  [NaN], the infinities and rounding are outside the
      model.
    - An optional field ([f?: T]) is an [option]; [undefined] is [None].
    - React's [setState(prev => next)] is the function [prev => next]; the
      value of [Date.now()] during one update is the argument [now].
    - [generateId] reads and bumps a module-level counter; the counter value
      it reads is the argument [idn] of the operation that calls it. *)

From Stdlib Require Import Reals Lra Lia ZArith List String Ascii Bool.
From Stdlib Require Import Decimal DecimalString DecimalNat DecimalFacts.
From Equations Require Import Equations.
Import ListNotations.

Open Scope string_scope.
Open Scope list_scope.
Open Scope R_scope.

(** ** JavaScript built-ins used by the code *)

Module JS.

(** Comparison operators on numbers, as booleans. *)
Definition lt (a b : R) : bool := if Rlt_dec a b then true else false.
Definition le (a b : R) : bool := if Rle_dec a b then true else false.
Definition gt (a b : R) : bool := lt b a.
Definition ge (a b : R) : bool := le b a.
Definition eq (a b : R) : bool := if Req_dec_T a b then true else false.

(** [Math.round]: the nearest integer, ties towards +infinity. *)
Definition round (a : R) : R := IZR (Zfloor (a + / 2)).

(** Truncation towards zero and the remainder operator [%], whose result
    has the sign of the dividend. *)
Definition trunc (a : R) : Z := if Rle_dec 0 a then Zfloor a else Zceil a.
Definition rem (a n : R) : R := a - n * IZR (trunc (a / n)).

(** [Math.atan2(y, x)]: the angle of the point (x, y), in (-PI, PI];
    [Math.atan2(0, 0)] is 0. *)
Definition atan2 (b a : R) : R :=
  if Rlt_dec 0 a then atan (b / a)
  else if Rlt_dec a 0 then
    (if Rle_dec 0 b then atan (b / a) + PI else atan (b / a) - PI)
  else if Rlt_dec 0 b then PI / 2
  else if Rlt_dec b 0 then - (PI / 2)
  else 0.

(** Truthiness of an optional string: [undefined] and the empty string are
    falsy.  The result is the string when it is truthy. *)
Definition truthy (o : option string) : option string :=
  match o with
  | Some s => if String.eqb s EmptyString then None else Some s
  | None => None
  end.

(** Truthiness of an optional number: [undefined] and 0 are falsy. *)
Definition truthy_num (o : option R) : bool :=
  match o with
  | Some t => negb (eq t 0)
  | None => false
  end.

(** [a === b] on optional strings. *)
Definition seq (a b : option string) : bool :=
  match a, b with
  | Some s, Some t => String.eqb s t
  | None, None => true
  | _, _ => false
  end.

(** An optional string inside a template literal. *)
Definition tpl (o : option string) : string :=
  match o with Some s => s | None => "undefined" end.

(** [arr.slice(-n)]: the last [n] elements. *)
Definition slice_last {A : Type} (n : nat) (l : list A) : list A :=
  skipn (List.length l - n) l.

(** [arr.findIndex(p)]; [None] stands for -1. *)
Fixpoint findIndex {A : Type} (p : A -> bool) (l : list A) : option nat :=
  match l with
  | [] => None
  | a :: r => if p a then Some O
              else match findIndex p r with
                   | Some i => Some (S i)
                   | None => None
                   end
  end.

(** [arr.map((a, idx) => f(a, idx))], indices starting at [i]. *)
Fixpoint mapi_from {A B : Type} (i : nat) (f : A -> nat -> B) (l : list A)
  : list B :=
  match l with
  | [] => []
  | a :: r => f a i :: mapi_from (S i) f r
  end.
Definition mapi {A B : Type} (f : A -> nat -> B) (l : list A) : list B :=
  mapi_from O f l.

(** A counter value inside a template literal. *)
Definition show_nat (n : nat) : string :=
  NilZero.string_of_uint (Nat.to_uint n).

End JS.

(** ** Data model ([types]) *)

Record Vector2 := mkVector2 { x : R; y : R }.

Record Eyesight := mkEyesight { radius : R; angle : R }.

Inductive LLMProvider := google | openai | openrouter.

Inductive SimulationMode := turn_based | time_based.

Record AvatarSettings := mkAvatarSettings {
  provider : LLMProvider;
  model : string;
  apiKey : string;
  rateLimit : R;
  eyesight : Eyesight;
  systemPrompt : string
}.

Record AvatarState := mkAvatarState {
  id : string;
  position : Vector2;
  orientation : R;
  settings : AvatarSettings;
  color : string;
  currentAction : option string;
  conversationTarget : option string;
  lastActionTime : option R;
  thought : option string;
  nextDecisionTime : option R
}.

(** The constant tags [type: 'object'] and [type: 'obstacle'] carry no
    information and are left out. *)
Record ArenaObject := mkArenaObject {
  obj_id : string;
  obj_position : Vector2;
  description : string
}.

Record Obstacle := mkObstacle {
  obs_id : string;
  obs_position : Vector2;
  size : Vector2
}.

Record ConversationMessage := mkConversationMessage {
  msg_avatarId : string;
  text : string;
  timestamp : R
}.

Record Conversation := mkConversation {
  conv_id : string;
  participants : string * string;
  messages : list ConversationMessage;
  startTime : R;
  endTime : option R
}.

Record BoardSize := mkBoardSize { width : R; height : R }.

Record SimulationSettings := mkSimulationSettings {
  mode : SimulationMode;
  boardSize : BoardSize;
  turnDuration : option R;
  timeScale : option R
}.

Inductive LogLevel := info | warning | error | debug.

Record SimulationLogEntry := mkSimulationLogEntry {
  log_timestamp : R;
  log_message : string;
  level : LogLevel;
  log_avatarId : option string
}.

Record AppState := mkAppState {
  avatars : list AvatarState;
  objects : list ArenaObject;
  obstacles : list Obstacle;
  conversations : list Conversation;
  simulation : SimulationSettings;
  isRunning : bool;
  simulationLogs : list SimulationLogEntry
}.

(** The decision of the oracle.  At run time [action] is a string; the
    resolver's [switch] sends every unknown one to its [default] case. *)
Record DecisionParameters := mkDecisionParameters {
  p_angle : option R;
  p_distance : option R;
  p_targetId : option string;
  p_message : option string;
  p_duration : option R
}.

Record LLMDecision := mkLLMDecision {
  action : string;
  parameters : option DecisionParameters;
  d_thought : option string
}.

Record ProcessObjectInteractionInput := mkProcessObjectInteractionInput {
  objectId : string;
  objectDescription : string;
  avatarSystemPrompt : string;
  i_provider : LLMProvider;
  i_model : string;
  i_apiKey : string
}.

(** [c.participants.includes(a)] *)
Definition includes (c : Conversation) (a : string) : bool :=
  String.eqb (fst (participants c)) a || String.eqb (snd (participants c)) a.

(** [!c.endTime] *)
Definition not_ended (c : Conversation) : bool :=
  negb (JS.truthy_num (endTime c)).

(** ** Geometry helpers *)

(** Calculates distance between two points. *)
Definition distance (p1 p2 : Vector2) : R :=
  let dx := x p1 - x p2 in
  let dy := y p1 - y p2 in
  sqrt (dx * dx + dy * dy).

(** Checks if a point is within the bounding box of an obstacle. *)
Definition isPointInObstacle (point : Vector2) (obstacle : Obstacle) : bool :=
  JS.ge (x point) (x (obs_position obstacle)) &&
  JS.le (x point) (x (obs_position obstacle) + x (size obstacle)) &&
  JS.ge (y point) (y (obs_position obstacle)) &&
  JS.le (y point) (y (obs_position obstacle) + y (size obstacle)).

(** Checks if a point is within the simulation board boundaries. *)
Definition isPointInBounds (point : Vector2) (bs : BoardSize) : bool :=
  JS.ge (x point) 0 && JS.le (x point) (width bs) &&
  JS.ge (y point) 0 && JS.le (y point) (height bs).

(** ** Perception: [getSensoryInput] *)

(** [while (a > Math.PI) a -= 2 * Math.PI]: every pass lowers the number of
    whole turns left above [a], which is the measure of the recursion. *)
Equations? wrap_down (a : R) : R by wf (Z.to_nat (up (a / (2 * PI)))) lt :=
  wrap_down a with Rgt_dec a PI => {
    | left _ => wrap_down (a - 2 * PI);
    | right _ => a }.
Proof.
  assert (HPI := PI_RGT_0).
  replace ((a - 2 * PI) / (2 * PI)) with (a / (2 * PI) + IZR (-1))
    by (simpl; field; lra).
  rewrite !up_Zfloor, Zfloor_addz.
  assert (0 <= Zfloor (a / (2 * PI)))%Z.
  { apply Zfloor_lub. simpl.
    apply Rmult_le_pos; [lra|]. left. apply Rinv_0_lt_compat. lra. }
  lia.
Qed.

(** [while (a <= -Math.PI) a += 2 * Math.PI] *)
Equations? wrap_up (a : R) : R by wf (Z.to_nat (up (- a / (2 * PI)))) lt :=
  wrap_up a with Rle_dec a (- PI) => {
    | left _ => wrap_up (a + 2 * PI);
    | right _ => a }.
Proof.
  assert (HPI := PI_RGT_0).
  replace (- (a + 2 * PI) / (2 * PI)) with (- a / (2 * PI) + IZR (-1))
    by (simpl; field; lra).
  rewrite !up_Zfloor, Zfloor_addz.
  assert (0 <= Zfloor (- a / (2 * PI)))%Z.
  { apply Zfloor_lub. simpl.
    apply Rmult_le_pos; [lra|]. left. apply Rinv_0_lt_compat. lra. }
  lia.
Qed.

(** The two loops in sequence: an angle brought into (-PI, PI]. *)
Definition normalize_angle (a : R) : R := wrap_up (wrap_down a).

Section Perception.

Variable avatar : AvatarState.
Variable obstacles_ : list Obstacle.

Definition orientationRad : R := orientation avatar * (PI / 180).
Definition halfAngleRad : R :=
  (angle (eyesight (settings avatar)) / 2) * (PI / 180).

(** The line-of-sight loop over the obstacles.  The result is the value of
    an early [return] inside the loop, [None] when the loop runs to its
    end.  The only [return] the source has there is commented out. *)
Fixpoint occlusion_loop (dist relativeAngle : R) (obs : list Obstacle)
  : option (bool * R) :=
  match obs with
  | [] => None
  | ob :: rest =>
      let obsCenterX := x (obs_position ob) + x (size ob) / 2 in
      let obsCenterY := y (obs_position ob) + y (size ob) / 2 in
      let distToObs :=
        distance (position avatar) (mkVector2 obsCenterX obsCenterY) in
      if JS.lt distToObs dist then
        let angleToObs :=
          JS.atan2 (obsCenterY - y (position avatar))
                   (obsCenterX - x (position avatar)) in
        let relativeAngleObs := normalize_angle (angleToObs - orientationRad) in
        if JS.lt (Rabs (relativeAngleObs - relativeAngle)) (PI / 12) then
          (* return { visible: false, dist };  -- commented out *)
          occlusion_loop dist relativeAngle rest
        else occlusion_loop dist relativeAngle rest
      else occlusion_loop dist relativeAngle rest
  end.

Definition isVisible (targetPos : Vector2) : bool * R :=
  let dx := x targetPos - x (position avatar) in
  let dy := y targetPos - y (position avatar) in
  let dist := sqrt (dx * dx + dy * dy) in
  if JS.gt dist (radius (eyesight (settings avatar))) || JS.eq dist 0 then
    (false, dist)
  else
    let angleToTarget := JS.atan2 dy dx in
    let relativeAngle := normalize_angle (angleToTarget - orientationRad) in
    if JS.le (Rabs relativeAngle) halfAngleRad then
      match occlusion_loop dist relativeAngle obstacles_ with
      | Some r => r
      | None => (true, dist)
      end
    else (false, dist).

End Perception.

Record VisibleAvatar := mkVisibleAvatar {
  va_id : string; va_position : Vector2; va_distance : R }.
Record VisibleObject := mkVisibleObject {
  vo_id : string; vo_position : Vector2; vo_description : string;
  vo_distance : R }.
Record VisibleObstacle := mkVisibleObstacle {
  vb_id : string; vb_position : Vector2; vb_size : Vector2;
  vb_distance : R }.

Record SensoryInput := mkSensoryInput {
  s_position : Vector2;
  s_orientation : R;
  s_currentAction : option string;
  s_conversationTarget : option string;
  visibleAvatars : list VisibleAvatar;
  visibleObjects : list VisibleObject;
  visibleObstacles : list VisibleObstacle;
  s_boardSize : BoardSize
}.

(** The five sample points of an obstacle: its corners and its centre. *)
Definition pointsToCheck (obs : Obstacle) : list Vector2 :=
  [ obs_position obs;
    mkVector2 (x (obs_position obs) + x (size obs)) (y (obs_position obs));
    mkVector2 (x (obs_position obs)) (y (obs_position obs) + y (size obs));
    mkVector2 (x (obs_position obs) + x (size obs))
              (y (obs_position obs) + y (size obs));
    mkVector2 (x (obs_position obs) + x (size obs) / 2)
              (y (obs_position obs) + y (size obs) / 2) ].

(** The loop over the sample points; [None] is the initial [Infinity] with
    [isAnyPointVisible] false. *)
Definition closestVisibleDist (avatar : AvatarState) (obstacles_ : list Obstacle)
  (obs : Obstacle) : option R :=
  fold_left
    (fun acc point =>
       let '(visible, dist) := isVisible avatar obstacles_ point in
       if visible then
         match acc with
         | Some c => Some (Rmin c dist)
         | None => Some dist
         end
       else acc)
    (pointsToCheck obs) None.

(** Gathers sensory input for an avatar. *)
Definition getSensoryInput (avatar : AvatarState) (allAvatars : list AvatarState)
  (objects_ : list ArenaObject) (obstacles_ : list Obstacle) (bs : BoardSize)
  : SensoryInput :=
  {| s_position := mkVector2 (JS.round (x (position avatar)))
                             (JS.round (y (position avatar)));
     s_orientation := JS.round (orientation avatar);
     s_currentAction := currentAction avatar;
     s_conversationTarget := conversationTarget avatar;
     visibleAvatars :=
       flat_map
         (fun other =>
            if String.eqb (id other) (id avatar) then []
            else
              let '(visible, dist) :=
                isVisible avatar obstacles_ (position other) in
              if visible
              then [mkVisibleAvatar (id other) (position other) (JS.round dist)]
              else [])
         allAvatars;
     visibleObjects :=
       flat_map
         (fun obj =>
            let '(visible, dist) :=
              isVisible avatar obstacles_ (obj_position obj) in
            if visible
            then [mkVisibleObject (obj_id obj) (obj_position obj)
                                  (description obj) (JS.round dist)]
            else [])
         objects_;
     visibleObstacles :=
       flat_map
         (fun obs =>
            match closestVisibleDist avatar obstacles_ obs with
            | Some c => [mkVisibleObstacle (obs_id obs) (obs_position obs)
                                           (size obs) (JS.round c)]
            | None => []
            end)
         obstacles_;
     s_boardSize := bs |}.

(** ** The action resolver: [executeDecision] *)

(** [params?.f] and [a ?? b] *)
Definition opt_param {A : Type} (f : DecisionParameters -> option A)
  (p : option DecisionParameters) : option A :=
  match p with Some q => f q | None => None end.

Definition nullish {A : Type} (o : option A) (d : A) : A :=
  match o with Some v => v | None => d end.

(** [(finalThought ? finalThought + " " : "") + note] *)
Definition annotate (finalThought : option string) (note : string)
  : option string :=
  Some ((match JS.truthy finalThought with
         | Some t => t ++ " "
         | None => EmptyString
         end) ++ note)%string.

(** [{ duration: d }] *)
Definition duration_only (d : R) : DecisionParameters :=
  mkDecisionParameters None None None None (Some d).

Definition dquote : string := String (ascii_of_nat 34) EmptyString.

(** The Interaction Oracle ([processObjectInteraction]) is an external
    service: the awaited call either yields [output.reaction] or throws an
    error with a [message]. *)
Inductive OracleResult :=
| Reaction (reaction : string)
| Failure (message : string).

(** The action, parameters and thought the resolver goes on with after the
    part of [executeDecision] that runs before [setState]. *)
Record Resolved := mkResolved {
  r_action : string;
  r_params : option DecisionParameters;
  r_thought : option string
}.

(** The input the resolver hands to the Interaction Oracle. *)
Definition interactionInput_of (targetObject : ArenaObject)
  (currentAvatar : AvatarState) : ProcessObjectInteractionInput :=
  {| objectId := obj_id targetObject;
     objectDescription := description targetObject;
     avatarSystemPrompt := systemPrompt (settings currentAvatar);
     i_provider := provider (settings currentAvatar);
     i_model := model (settings currentAvatar);
     i_apiKey := apiKey (settings currentAvatar) |}.

(** The part of [executeDecision] before [setState]; [cur] is
    [stateRef.current]. *)
Definition prepareDecision
  (oracle : ProcessObjectInteractionInput -> OracleResult)
  (cur : AppState) (avatarId : string) (decision : LLMDecision) : Resolved :=
  let finalThought :=
    match JS.truthy (d_thought decision) with
    | Some t => Some t
    | None => if String.eqb (action decision) "think"
              then Some "Thinking..." else None
    end in
  if String.eqb (action decision) "interact_object" then
    let targetObjectId := opt_param p_targetId (parameters decision) in
    let targetObject :=
      find (fun o => JS.seq (Some (obj_id o)) targetObjectId) (objects cur) in
    let currentAvatar :=
      find (fun a => String.eqb (id a) avatarId) (avatars cur) in
    match targetObject, currentAvatar with
    | Some targetObject, Some currentAvatar =>
        let interactionInput :=
          interactionInput_of targetObject currentAvatar in
        let finalThought' :=
          match oracle interactionInput with
          | Reaction reaction =>
              ("Interacted with " ++ JS.tpl targetObjectId ++ ". Note: "
                 ++ dquote ++ description targetObject ++ dquote
                 ++ ". Reaction: " ++ reaction)%string
          | Failure message =>
              ("Interacted with " ++ JS.tpl targetObjectId
                 ++ ". Failed to process reaction: " ++ message)%string
          end in
        mkResolved "idle" (Some (duration_only 500)) (Some finalThought')
    | _, _ =>
        mkResolved "idle" (Some (duration_only 500))
          (annotate finalThought
             ("(Target object " ++ JS.tpl targetObjectId ++ " not found)"))
    end
  else if String.eqb (action decision) "think" then
    mkResolved "thinking" (parameters decision) finalThought
  else
    mkResolved (action decision) (parameters decision) finalThought.

(** The local variables of the state update. *)
Record Locals := mkLocals {
  nextAvatars : list AvatarState;
  nextConversations : list Conversation;
  newPosition : Vector2;
  newOrientation : R;
  newConversationTarget : option string;
  updateAction : string;
  finalThought : option string
}.

Definition set_nextAvatars (v : list AvatarState) (l : Locals) : Locals :=
  mkLocals v (nextConversations l) (newPosition l) (newOrientation l)
    (newConversationTarget l) (updateAction l) (finalThought l).
Definition set_nextConversations (v : list Conversation) (l : Locals) : Locals :=
  mkLocals (nextAvatars l) v (newPosition l) (newOrientation l)
    (newConversationTarget l) (updateAction l) (finalThought l).
Definition set_newPosition (v : Vector2) (l : Locals) : Locals :=
  mkLocals (nextAvatars l) (nextConversations l) v (newOrientation l)
    (newConversationTarget l) (updateAction l) (finalThought l).
Definition set_newOrientation (v : R) (l : Locals) : Locals :=
  mkLocals (nextAvatars l) (nextConversations l) (newPosition l) v
    (newConversationTarget l) (updateAction l) (finalThought l).
Definition set_newConversationTarget (v : option string) (l : Locals) : Locals :=
  mkLocals (nextAvatars l) (nextConversations l) (newPosition l)
    (newOrientation l) v (updateAction l) (finalThought l).
Definition set_updateAction (v : string) (l : Locals) : Locals :=
  mkLocals (nextAvatars l) (nextConversations l) (newPosition l)
    (newOrientation l) (newConversationTarget l) v (finalThought l).
Definition set_finalThought (v : option string) (l : Locals) : Locals :=
  mkLocals (nextAvatars l) (nextConversations l) (newPosition l)
    (newOrientation l) (newConversationTarget l) (updateAction l) v.

(** [{ ...a, conversationTarget: t, currentAction: act }] *)
Definition with_conversation (a : AvatarState) (t act : option string)
  : AvatarState :=
  {| id := id a; position := position a; orientation := orientation a;
     settings := settings a; color := color a;
     currentAction := act; conversationTarget := t;
     lastActionTime := lastActionTime a; thought := thought a;
     nextDecisionTime := nextDecisionTime a |}.

(** [arr[i] = f(arr[i])] for an index inside the array. *)
Fixpoint update_at {A : Type} (i : nat) (f : A -> A) (l : list A) : list A :=
  match l, i with
  | [], _ => []
  | a :: r, O => f a :: r
  | a :: r, S j => a :: update_at j f r
  end.

(** *** [case 'turn'] *)
Definition snap30 (turnAngle : R) : R := JS.round (turnAngle / 30) * 30.

Definition turn_case (currentAvatar : AvatarState)
  (updateParams : option DecisionParameters) (l : Locals) : Locals :=
  let turnAngle := nullish (opt_param p_angle updateParams) 0 in
  let snappedAngle := snap30 turnAngle in
  set_newOrientation
    (JS.rem (orientation currentAvatar + snappedAngle + 360) 360) l.

(** *** [case 'move'] *)

(** The point of the obstacle rectangle closest to a position. *)
Definition closestPoint (potentialPosition : Vector2) (ob : Obstacle) : Vector2 :=
  let closestX :=
    Rmax (x (obs_position ob))
         (Rmin (x potentialPosition) (x (obs_position ob) + x (size ob))) in
  let closestY :=
    Rmax (y (obs_position ob))
         (Rmin (y potentialPosition) (y (obs_position ob) + y (size ob))) in
  mkVector2 closestX closestY.

(** The loop over the obstacles, left at the first hit. *)
Fixpoint obstacle_collision (potentialPosition : Vector2) (obs : list Obstacle)
  : bool :=
  match obs with
  | [] => false
  | ob :: rest =>
      let avatarRadius := 8 in
      let distToObstacleEdge :=
        distance potentialPosition (closestPoint potentialPosition ob) in
      if JS.lt distToObstacleEdge avatarRadius then true
      else obstacle_collision potentialPosition rest
  end.

(** The loop over the avatars, skipping the mover, left at the first hit. *)
Fixpoint avatar_collision (avatarId : string) (potentialPosition : Vector2)
  (others : list AvatarState) : bool :=
  match others with
  | [] => false
  | otherAvatar :: rest =>
      if String.eqb (id otherAvatar) avatarId
      then avatar_collision avatarId potentialPosition rest
      else
        let distBetweenAvatars :=
          distance potentialPosition (position otherAvatar) in
        if JS.lt distBetweenAvatars (8 + 8) then true
        else avatar_collision avatarId potentialPosition rest
  end.

Definition clampDistance (moveDistance : R) : R :=
  Rmax (-15) (Rmin 15 moveDistance).

Definition potentialPosition_of (currentAvatar : AvatarState)
  (updateParams : option DecisionParameters) : Vector2 :=
  let moveDistance := nullish (opt_param p_distance updateParams) 0 in
  let clampedDistance := clampDistance moveDistance in
  let moveAngleRad := orientation currentAvatar * (PI / 180) in
  let dx := clampedDistance * cos moveAngleRad in
  let dy := clampedDistance * sin moveAngleRad in
  mkVector2 (x (position currentAvatar) + dx) (y (position currentAvatar) + dy).

Definition collided (prev : AppState) (avatarId : string)
  (potentialPosition : Vector2) : bool :=
  if negb (isPointInBounds potentialPosition (boardSize (simulation prev)))
  then true
  else if obstacle_collision potentialPosition (obstacles prev) then true
  else avatar_collision avatarId potentialPosition (avatars prev).

Definition move_case (prev : AppState) (avatarId : string)
  (currentAvatar : AvatarState) (updateParams : option DecisionParameters)
  (l : Locals) : Locals :=
  let potentialPosition := potentialPosition_of currentAvatar updateParams in
  if collided prev avatarId potentialPosition
  then set_finalThought (annotate (finalThought l) "(Movement blocked)") l
  else set_newPosition potentialPosition l.

(** *** The conversation cases *)

(** The active conversation of a pair: the predicate of both [findIndex]
    calls. *)
Definition active_between (a b : string) (c : Conversation) : bool :=
  includes c a && includes c b && not_ended c.

(** [downgrade l note]: fall back to idle and annotate the thought. *)
Definition downgrade (note : string) (l : Locals) : Locals :=
  set_finalThought (annotate (finalThought l) note) (set_updateAction "idle" l).

Definition initiate_case (now : R) (idn : nat) (prev : AppState)
  (avatarId : string) (currentAvatar : AvatarState)
  (updateParams : option DecisionParameters) (l : Locals) : Locals :=
  match JS.truthy (opt_param p_targetId updateParams),
        JS.truthy (opt_param p_message updateParams) with
  | Some targetAvatarId, Some message =>
      match JS.truthy (conversationTarget currentAvatar) with
      | Some _ =>
          downgrade "(Tried to initiate conversation while already in one)" l
      | None =>
          match find (fun a => String.eqb (id a) targetAvatarId) (avatars prev) with
          | Some targetAvatar =>
              if negb (String.eqb targetAvatarId avatarId) then
                match JS.truthy (conversationTarget targetAvatar) with
                | Some _ =>
                    downgrade ("(Target " ++ targetAvatarId ++ " busy)") l
                | None =>
                    let newConv :=
                      {| conv_id := "conversation-" ++ JS.show_nat idn;
                         participants := (avatarId, targetAvatarId);
                         messages := [mkConversationMessage avatarId message now];
                         startTime := now;
                         endTime := None |} in
                    set_updateAction "conversing"
                      (set_nextAvatars
                         (map (fun a =>
                                 if String.eqb (id a) avatarId
                                 then with_conversation a (Some targetAvatarId)
                                        (Some "conversing")
                                 else if String.eqb (id a) targetAvatarId
                                 then with_conversation a (Some avatarId)
                                        (Some "conversing")
                                 else a)
                              (nextAvatars l))
                         (set_newConversationTarget (Some targetAvatarId)
                            (set_nextConversations
                               (nextConversations l ++ [newConv]) l)))
                end
              else
                downgrade ("(Target avatar " ++ targetAvatarId ++ " invalid)") l
          | None =>
              downgrade ("(Target avatar " ++ targetAvatarId ++ " invalid)") l
          end
      end
  | _, _ => downgrade "(Missing parameters for initiate_conversation)" l
  end.

Definition continue_case (now : R) (prev : AppState) (avatarId : string)
  (currentAvatar : AvatarState) (updateParams : option DecisionParameters)
  (l : Locals) : Locals :=
  let invalid :=
    downgrade "(Invalid parameters or state for continue_conversation)"
      (set_newConversationTarget None l) in
  match JS.truthy (opt_param p_targetId updateParams),
        JS.truthy (opt_param p_message updateParams) with
  | Some continueTargetId, Some continueMessage =>
      if JS.seq (conversationTarget currentAvatar) (Some continueTargetId) then
        match JS.findIndex (active_between avatarId continueTargetId)
                (conversations prev) with
        | Some convIndex =>
            let newMessage :=
              mkConversationMessage avatarId continueMessage now in
            set_updateAction "conversing"
              (set_nextConversations
                 (update_at convIndex
                    (fun c =>
                       {| conv_id := conv_id c;
                          participants := participants c;
                          messages :=
                            JS.slice_last 19 (messages c) ++ [newMessage];
                          startTime := startTime c;
                          endTime := endTime c |})
                    (nextConversations l))
                 l)
        | None =>
            downgrade
              ("(No active conversation with " ++ continueTargetId ++ ")")
              (set_newConversationTarget None l)
        end
      else invalid
  | _, _ => invalid
  end.

Definition disengage_case (now : R) (prev : AppState) (avatarId : string)
  (currentAvatar : AvatarState) (updateParams : option DecisionParameters)
  (l : Locals) : Locals :=
  let refuse :=
    set_finalThought
      (annotate (finalThought l)
         "(Cannot disengage, not in conversation or missing target)")
      (match JS.truthy (conversationTarget currentAvatar) with
       | None => set_updateAction "idle" l
       | Some _ => l
       end) in
  match JS.truthy (opt_param p_targetId updateParams) with
  | Some disengageTargetId =>
      if JS.seq (conversationTarget currentAvatar) (Some disengageTargetId) then
        let l1 :=
          match JS.findIndex (active_between avatarId disengageTargetId)
                  (conversations prev) with
          | Some convIndex =>
              set_nextAvatars
                (map (fun a =>
                        if String.eqb (id a) avatarId
                           || String.eqb (id a) disengageTargetId
                        then with_conversation a None None
                        else a)
                     (nextAvatars l))
                (set_nextConversations
                   (update_at convIndex
                      (fun c =>
                         {| conv_id := conv_id c;
                            participants := participants c;
                            messages := messages c;
                            startTime := startTime c;
                            endTime := Some now |})
                      (nextConversations l))
                   l)
          | None => l
          end in
        set_updateAction "idle" (set_newConversationTarget None l1)
      else refuse
  | None => refuse
  end.

(** *** The [switch] over [updateAction] *)
Definition resolve_switch (now : R) (idn : nat) (prev : AppState)
  (avatarId : string) (currentAvatar : AvatarState)
  (updateParams : option DecisionParameters) (l : Locals) : Locals :=
  let a := updateAction l in
  if String.eqb a "turn" then turn_case currentAvatar updateParams l
  else if String.eqb a "move" then
    move_case prev avatarId currentAvatar updateParams l
  else if String.eqb a "interact_object" then set_updateAction "idle" l
  else if String.eqb a "initiate_conversation" then
    initiate_case now idn prev avatarId currentAvatar updateParams l
  else if String.eqb a "continue_conversation" then
    continue_case now prev avatarId currentAvatar updateParams l
  else if String.eqb a "disengage_conversation" then
    disengage_case now prev avatarId currentAvatar updateParams l
  else if String.eqb a "think" then set_updateAction "thinking" l
  else set_updateAction "idle" l.

(** *** Delay, action normalisation and the update of the avatar *)

(** [updateParams?.duration ?? currentAvatar.settings.rateLimit ?? 1000]:
    [rateLimit] is declared a [number], so the last default is never
    taken. *)
Definition decisionDelay (currentAvatar : AvatarState)
  (updateParams : option DecisionParameters) : R :=
  nullish (opt_param p_duration updateParams)
          (rateLimit (settings currentAvatar)).

Definition clampDelay (delay : R) : R := Rmin 10000 (Rmax 100 delay).

Definition finalActionString (updateAction_ : string) : option string :=
  if String.eqb updateAction_ "idle" || String.eqb updateAction_ "thinking"
  then None else Some updateAction_.

Definition with_avatars_conversations (prev : AppState)
  (avs : list AvatarState) (convs : list Conversation) : AppState :=
  {| avatars := avs; objects := objects prev; obstacles := obstacles prev;
     conversations := convs; simulation := simulation prev;
     isRunning := isRunning prev; simulationLogs := simulationLogs prev |}.

(** The locals as they are declared at the top of the update, and as the
    [switch] leaves them. *)
Definition initialLocals (prev : AppState) (currentAvatar : AvatarState)
  (r : Resolved) : Locals :=
  {| nextAvatars := avatars prev;
     nextConversations := conversations prev;
     newPosition := position currentAvatar;
     newOrientation := orientation currentAvatar;
     newConversationTarget := conversationTarget currentAvatar;
     updateAction := r_action r;
     finalThought := r_thought r |}.

Definition resolvedLocals (now : R) (idn : nat) (avatarId : string)
  (r : Resolved) (prev : AppState) (currentAvatar : AvatarState) : Locals :=
  resolve_switch now idn prev avatarId currentAvatar (r_params r)
    (initialLocals prev currentAvatar r).

(** The avatar the final [map] writes at [avatarIndex]. *)
Definition updatedAvatar (now : R) (prev : AppState)
  (currentAvatar : AvatarState) (updateParams : option DecisionParameters)
  (l : Locals) (avatar : AvatarState) : AvatarState :=
  let clampedDelay := clampDelay (decisionDelay currentAvatar updateParams) in
  {| id := id avatar;
     position := newPosition l;
     orientation := newOrientation l;
     settings := settings avatar;
     color := color avatar;
     currentAction := finalActionString (updateAction l);
     conversationTarget := newConversationTarget l;
     lastActionTime :=
       Some (match mode (simulation prev) with
             | time_based => now
             | turn_based =>
                 (if JS.truthy_num (lastActionTime avatar)
                  then nullish (lastActionTime avatar) 0
                  else 0) + 1
             end);
     thought := finalThought l;
     nextDecisionTime := Some (now + clampedDelay) |}.

(** The function given to [setState]. *)
Definition applyDecision (now : R) (idn : nat) (avatarId : string)
  (r : Resolved) (prev : AppState) : AppState :=
  match JS.findIndex (fun a => String.eqb (id a) avatarId) (avatars prev) with
  | None => prev
  | Some avatarIndex =>
      match nth_error (avatars prev) avatarIndex with
      | None => prev
      | Some currentAvatar =>
          let l := resolvedLocals now idn avatarId r prev currentAvatar in
          with_avatars_conversations prev
            (JS.mapi
               (fun avatar idx =>
                  if Nat.eqb idx avatarIndex
                  then updatedAvatar now prev currentAvatar (r_params r) l avatar
                  else avatar)
               (nextAvatars l))
            (nextConversations l)
      end
  end.

(** [executeDecision(avatarId, decision)]: [cur] is the state the part before
    [setState] reads through [stateRef], [prev] the state the update is
    applied to.  The log entries the resolver adds on its way touch
    [simulationLogs] only and are left out. *)
Definition executeDecision
  (oracle : ProcessObjectInteractionInput -> OracleResult)
  (now : R) (idn : nat) (cur : AppState) (avatarId : string)
  (decision : LLMDecision) (prev : AppState) : AppState :=
  applyDecision now idn avatarId (prepareDecision oracle cur avatarId decision)
    prev.

(** ** Validation of the oracle's output ([avatarDecisionGenkitFlow])

    The part of the flow after the prompt has answered: [output] is the
    prompt's decision.  No number of the model is [NaN]. *)

Definition emptyParameters : DecisionParameters :=
  mkDecisionParameters None None None None None.

Definition set_angle (v : R) (p : DecisionParameters) : DecisionParameters :=
  mkDecisionParameters (Some v) (p_distance p) (p_targetId p) (p_message p)
    (p_duration p).
Definition set_distance (v : R) (p : DecisionParameters) : DecisionParameters :=
  mkDecisionParameters (p_angle p) (Some v) (p_targetId p) (p_message p)
    (p_duration p).
Definition set_duration (v : R) (p : DecisionParameters) : DecisionParameters :=
  mkDecisionParameters (p_angle p) (p_distance p) (p_targetId p) (p_message p)
    (Some v).

(** The fallback of a conversation or interaction decision that lacks a
    field.  The note is built after [output.action] has been overwritten, so
    it names [idle]. *)
Definition switch_to_idle (thought_ : string) (missing : string) : LLMDecision :=
  mkLLMDecision "idle" (Some (duration_only 500))
    (Some (thought_ ++ " (Switched to idle due to missing " ++ missing
             ++ " for " ++ "idle" ++ ")")%string).

Definition validateDecision (output : LLMDecision) : LLMDecision :=
  let thought_ :=
    match JS.truthy (d_thought output) with
    | Some t => t
    | None => ("Decided to " ++ action output ++ ".")%string
    end in
  let params := nullish (parameters output) emptyParameters in
  let a := action output in
  if String.eqb a "turn" then
    mkLLMDecision a
      (Some (match p_angle params with
             | None => set_angle 0 params
             | Some v =>
                 (* Clamp angle, then snap to 30-degree increments *)
                 set_angle (JS.round (Rmax (-180) (Rmin 180 v) / 30) * 30) params
             end))
      (Some thought_)
  else if String.eqb a "move" then
    mkLLMDecision a
      (Some (match p_distance params with
             | None => set_distance 0 params
             | Some v => set_distance (Rmax (-15) (Rmin 15 v)) params
             end))
      (Some thought_)
  else if String.eqb a "interact_object"
          || String.eqb a "initiate_conversation"
          || String.eqb a "disengage_conversation" then
    match JS.truthy (p_targetId params) with
    | None => switch_to_idle thought_ "targetId"
    | Some _ => mkLLMDecision a (Some params) (Some thought_)
    end
  else if String.eqb a "continue_conversation" then
    match JS.truthy (p_targetId params), JS.truthy (p_message params) with
    | None, _ => switch_to_idle thought_ "targetId"
    | Some _, None => switch_to_idle thought_ "message"
    | Some _, Some _ => mkLLMDecision a (Some params) (Some thought_)
    end
  else if String.eqb a "think" || String.eqb a "idle" then
    let d :=
      match p_duration params with
      | None => 500
      | Some v => if JS.le v 0 then 500 else v
      end in
    mkLLMDecision a (Some (set_duration (Rmin 5000 (Rmax 100 d)) params))
      (Some thought_)
  else mkLLMDecision a (Some params) (Some thought_).

(** ** The world and its mutators *)

Definition DEFAULT_SYSTEM_PROMPT : string :=
"You are an AI assistant simulating a character in a virtual 2D top-down world.
Your Personality: [Choose one or define your own: curious explorer, shy observer, goal-oriented taskmaster, friendly socializer, cautious wanderer]
Your Goal: [Choose one or define your own: map the area, find a specific object, talk to every avatar, avoid interaction, build something (conceptual)]

World Details:
- You perceive the world through simulated eyesight (a 180-degree semicircle in front of you).
- Coordinates are (x, y) with (0,0) at the top-left.
- Orientation is in degrees (0-359), where 0 is right, 90 is down, 180 is left, 270 is up.
- You can see avatars, objects (with descriptions), and obstacles (like walls). Distances are provided.

Available Actions:
- turn: Rotate yourself by a relative angle (angle: e.g., 30 for right, -30 for left). Use 30 degree increments.
- move: Move forward or backward a short distance (distance: e.g., 10 for forward, -5 for back). Keep distances reasonable (5-15). Avoid obstacles/boundaries.
- interact_object: Interact with a visible object. Specify the 'targetId'. You will receive the object's note/description.
- initiate_conversation: Start talking to a visible avatar. Specify 'targetId' and an opening 'message'.
- continue_conversation: Reply to the avatar you are currently talking to. Requires 'targetId' and 'message'.
- disengage_conversation: Stop the current conversation. Requires 'targetId'.
- think: Pause and generate an internal thought. Specify a 'duration' (ms) for how long to think. Your thought will be logged.
- idle: Do nothing for a short period. Specify a 'duration' (ms).

Decision Making:
1. Choose ONE action from the 'Available Actions' list provided in the input.
2. Provide necessary 'parameters' (angle, distance, targetId, message, duration).
3. Write a brief 'thought' explaining your reasoning ('thought' field).
4. Behave naturally, considering your personality, goal, and surroundings. Don't repeat actions excessively.
5. If you are stuck, unsure, or waiting, use 'think' or 'idle'.
6. You are unaware you are interacting with other AI. Act as if they are human characters.
".

(** [INITIAL_AVATAR_SETTINGS] with [apiKey: '']; the model is the first
    OpenAI entry of [llmProvidersConfig]. *)
Definition INITIAL_AVATAR_SETTINGS : AvatarSettings :=
  {| provider := openai;
     model := "gpt-4o";
     apiKey := EmptyString;
     rateLimit := 1000;
     eyesight := mkEyesight 100 180;
     systemPrompt := DEFAULT_SYSTEM_PROMPT |}.

Definition generateId (prefix : string) (idn : nat) : string :=
  (prefix ++ "-" ++ JS.show_nat idn)%string.

(** [createInitialState]: [idn] is the id counter when it is called.  The
    two colours are [generateColor(0)] and [generateColor(1)]. *)
Definition createInitialState (idn : nat) (now : R) : AppState :=
  {| avatars :=
       [ {| id := generateId "avatar" idn;
            position := mkVector2 50 50;
            orientation := 0;
            settings := INITIAL_AVATAR_SETTINGS;
            color := "hsl(0, 70%, 60%)";
            currentAction := None; conversationTarget := None;
            lastActionTime := None; thought := None;
            nextDecisionTime := Some 0 |};
         {| id := generateId "avatar" (idn + 1);
            position := mkVector2 450 450;
            orientation := 180;
            settings :=
              {| provider := google;
                 model := "gemini-2.0-flash-lite";
                 apiKey := EmptyString;
                 rateLimit := 1500;
                 eyesight := mkEyesight 100 180;
                 systemPrompt := DEFAULT_SYSTEM_PROMPT |};
            color := "hsl(137.508, 70%, 60%)";
            currentAction := None; conversationTarget := None;
            lastActionTime := None; thought := None;
            nextDecisionTime := Some 0 |} ];
     objects :=
       [ mkArenaObject (generateId "object" (idn + 2)) (mkVector2 250 250)
           "A curious glowing orb." ];
     obstacles :=
       [ mkObstacle (generateId "obstacle" (idn + 3)) (mkVector2 100 100)
           (mkVector2 10 150);
         mkObstacle (generateId "obstacle" (idn + 4)) (mkVector2 300 300)
           (mkVector2 150 10) ];
     conversations := [];
     simulation :=
       {| mode := time_based;
          boardSize := mkBoardSize 500 500;
          turnDuration := Some 1000;
          timeScale := Some 1 |};
     isRunning := false;
     simulationLogs :=
       [ mkSimulationLogEntry now "Simulation initialized." info None ] |}.

(** The state update of [addLog]: the last 100 entries and the new one. *)
Definition addLog (now : R) (message : string) (level_ : LogLevel)
  (avatarId : option string) (prev : AppState) : AppState :=
  {| avatars := avatars prev; objects := objects prev;
     obstacles := obstacles prev; conversations := conversations prev;
     simulation := simulation prev; isRunning := isRunning prev;
     simulationLogs :=
       JS.slice_last 100 (simulationLogs prev)
         ++ [mkSimulationLogEntry now message level_ avatarId] |}.

(** An update function that logs: its next state and the [addLog] calls it
    made, in order.  Those calls queue their own updates, which run after
    the update that made them. *)
Definition run_with_logs (now : R) (r : AppState * list (string * LogLevel))
  : AppState :=
  fold_left (fun s ml => addLog now (fst ml) (snd ml) None s) (snd r) (fst r).

(** [addAvatar]: [rx], [ry] and [ro] are the three [Math.random()] draws
    and [color_] the string [generateColor(newIndex)] formats. *)
Definition addAvatar_update (idn : nat) (rx ry ro : R) (color_ : string)
  (prev : AppState) : AppState * list (string * LogLevel) :=
  if Nat.leb 10 (List.length (avatars prev)) then
    (prev, [("Cannot add more avatars (limit reached).", warning)])
  else
    let newAvatar :=
      {| id := generateId "avatar" idn;
         position :=
           mkVector2 (rx * width (boardSize (simulation prev)))
                     (ry * height (boardSize (simulation prev)));
         orientation := ro * 360;
         settings := INITIAL_AVATAR_SETTINGS;
         color := color_;
         currentAction := None; conversationTarget := None;
         lastActionTime := None; thought := None;
         nextDecisionTime := Some 0 |} in
    (with_avatars_conversations prev (avatars prev ++ [newAvatar])
       (conversations prev),
     [(("Avatar " ++ id newAvatar ++ " added.")%string, info)]).

Definition addAvatar (now : R) (idn : nat) (rx ry ro : R) (color_ : string)
  (prev : AppState) : AppState :=
  run_with_logs now (addAvatar_update idn rx ry ro color_ prev).

(** [removeAvatar]: the function given to [setState], with its log calls. *)
Definition ends_with (avatarId : string) (c : Conversation) : bool :=
  includes c avatarId && not_ended c.

Definition removeAvatar_update (now : R) (avatarId : string) (prev : AppState)
  : AppState * list (string * LogLevel) :=
  if Nat.leb (List.length (avatars prev)) 2 then
    (prev,
     [(("Cannot remove avatar " ++ avatarId ++ ", minimum of 2 required.")%string,
       warning)])
  else
    let nextConversations_ :=
      map (fun c =>
             if ends_with avatarId c
             then {| conv_id := conv_id c; participants := participants c;
                     messages := messages c; startTime := startTime c;
                     endTime := Some now |}
             else c)
          (conversations prev) in
    let partnersToReset :=
      flat_map
        (fun c =>
           filter (fun p => negb (String.eqb p avatarId))
                  [fst (participants c); snd (participants c)])
        (filter (ends_with avatarId) (conversations prev)) in
    let nextAvatars_ :=
      map (fun a =>
             if existsb (String.eqb (id a)) partnersToReset
             then with_conversation a None None
             else a)
          (filter (fun a => negb (String.eqb (id a) avatarId)) (avatars prev)) in
    (with_avatars_conversations prev nextAvatars_ nextConversations_,
     (("Avatar " ++ avatarId ++ " removed.")%string, info)
       :: map (fun c =>
                 (("Ending conversation " ++ conv_id c ++ " due to avatar "
                     ++ avatarId ++ " removal.")%string, info))
              (filter (ends_with avatarId) (conversations prev))).

Definition removeAvatar (now : R) (avatarId : string) (prev : AppState)
  : AppState :=
  run_with_logs now (removeAvatar_update now avatarId prev).

(** [resizeBoard]: the function given to [setState].  The log entry the
    call adds afterwards touches [simulationLogs] only. *)

(** Keep avatar center within bounds slightly inset. *)
Definition clampAvatar (finalSize : BoardSize) (a : AvatarState) : AvatarState :=
  {| id := id a;
     position :=
       mkVector2
         (Rmin (Rmax (x (position a)) (0 + 8)) (width finalSize - 8))
         (Rmin (Rmax (y (position a)) (0 + 8)) (height finalSize - 8));
     orientation := orientation a; settings := settings a;
     color := color a; currentAction := currentAction a;
     conversationTarget := conversationTarget a;
     lastActionTime := lastActionTime a; thought := thought a;
     nextDecisionTime := nextDecisionTime a |}.

Definition clampObject (finalSize : BoardSize) (o : ArenaObject) : ArenaObject :=
  {| obj_id := obj_id o;
     obj_position :=
       mkVector2
         (Rmin (Rmax (x (obj_position o)) (0 + 5)) (width finalSize - 5))
         (Rmin (Rmax (y (obj_position o)) (0 + 5)) (height finalSize - 5));
     description := description o |}.

(** Clamp position so the obstacle starts within bounds. *)
Definition clampObstacle (finalSize : BoardSize) (ob : Obstacle) : Obstacle :=
  {| obs_id := obs_id ob;
     obs_position :=
       mkVector2
         (Rmin (Rmax (x (obs_position ob)) 0) (width finalSize - x (size ob)))
         (Rmin (Rmax (y (obs_position ob)) 0) (height finalSize - y (size ob)));
     size := size ob |}.

(** The filter that removes obstacles completely outside. *)
Definition keepObstacle (finalSize : BoardSize) (ob : Obstacle) : bool :=
  JS.lt (x (obs_position ob)) (width finalSize)
  && JS.lt (y (obs_position ob)) (height finalSize).

(** Min size 100x100. *)
Definition finalSize_of (newSize : BoardSize) : BoardSize :=
  mkBoardSize (Rmax 100 (width newSize)) (Rmax 100 (height newSize)).

Definition resizeBoard (newSize : BoardSize) (prev : AppState) : AppState :=
  let finalSize := finalSize_of newSize in
  {| simulation :=
       {| mode := mode (simulation prev);
          boardSize := finalSize;
          turnDuration := turnDuration (simulation prev);
          timeScale := timeScale (simulation prev) |};
     avatars := map (clampAvatar finalSize) (avatars prev);
     objects := map (clampObject finalSize) (objects prev);
     obstacles :=
       filter (keepObstacle finalSize)
         (map (clampObstacle finalSize) (obstacles prev));
     conversations := conversations prev;
     isRunning := isRunning prev;
     simulationLogs := simulationLogs prev |}.

(** The remaining mutators the hook exports. *)

Definition with_simulation (prev : AppState) (sim : SimulationSettings)
  : AppState :=
  {| avatars := avatars prev; objects := objects prev;
     obstacles := obstacles prev; conversations := conversations prev;
     simulation := sim; isRunning := isRunning prev;
     simulationLogs := simulationLogs prev |}.

Definition with_isRunning (prev : AppState) (b : bool) : AppState :=
  {| avatars := avatars prev; objects := objects prev;
     obstacles := obstacles prev; conversations := conversations prev;
     simulation := simulation prev; isRunning := b;
     simulationLogs := simulationLogs prev |}.

Definition with_objects (prev : AppState) (os : list ArenaObject) : AppState :=
  {| avatars := avatars prev; objects := os;
     obstacles := obstacles prev; conversations := conversations prev;
     simulation := simulation prev; isRunning := isRunning prev;
     simulationLogs := simulationLogs prev |}.

Definition with_obstacles (prev : AppState) (os : list Obstacle) : AppState :=
  {| avatars := avatars prev; objects := objects prev;
     obstacles := os; conversations := conversations prev;
     simulation := simulation prev; isRunning := isRunning prev;
     simulationLogs := simulationLogs prev |}.

(** [updateSimulationSettings]: a [Partial] overrides the fields it has. *)
Record PartialSimulationSettings := mkPartialSimulationSettings {
  new_mode : option SimulationMode;
  new_boardSize : option BoardSize;
  new_turnDuration : option (option R);
  new_timeScale : option (option R)
}.

Definition updateSimulationSettings (newSettings : PartialSimulationSettings)
  (prev : AppState) : AppState :=
  with_simulation prev
    {| mode := nullish (new_mode newSettings) (mode (simulation prev));
       boardSize :=
         nullish (new_boardSize newSettings) (boardSize (simulation prev));
       turnDuration :=
         nullish (new_turnDuration newSettings) (turnDuration (simulation prev));
       timeScale :=
         nullish (new_timeScale newSettings) (timeScale (simulation prev)) |}.

Definition toggleSimulation (prev : AppState) : AppState :=
  with_isRunning prev (negb (isRunning prev)).

Definition pauseSimulation (prev : AppState) : AppState :=
  if isRunning prev then with_isRunning prev false else prev.

(** [updateAvatar] with the updates [updateAvatarSettings] gives it, the
    only way the application calls it.  A [Partial] overrides the fields it
    has; the eyesight angle remains 180. *)
Record PartialEyesight := mkPartialEyesight {
  new_radius : option R;
  new_angle : option R
}.

Record PartialAvatarSettings := mkPartialAvatarSettings {
  new_provider : option LLMProvider;
  new_model : option string;
  new_apiKey : option string;
  new_rateLimit : option R;
  new_eyesight : option PartialEyesight;
  new_systemPrompt : option string
}.

Definition updateAvatarSettings (avatarId : string)
  (settingUpdates : PartialAvatarSettings) (prev : AppState) : AppState :=
  with_avatars_conversations prev
    (map (fun a =>
            if String.eqb (id a) avatarId then
              {| id := id a; position := position a;
                 orientation := orientation a;
                 settings :=
                   {| provider :=
                        nullish (new_provider settingUpdates)
                                (provider (settings a));
                      model :=
                        nullish (new_model settingUpdates) (model (settings a));
                      apiKey :=
                        nullish (new_apiKey settingUpdates)
                                (apiKey (settings a));
                      rateLimit :=
                        nullish (new_rateLimit settingUpdates)
                                (rateLimit (settings a));
                      eyesight :=
                        match new_eyesight settingUpdates with
                        | Some e =>
                            mkEyesight
                              (nullish (new_radius e)
                                       (radius (eyesight (settings a))))
                              180
                        | None => eyesight (settings a)
                        end;
                      systemPrompt :=
                        nullish (new_systemPrompt settingUpdates)
                                (systemPrompt (settings a)) |};
                 color := color a; currentAction := currentAction a;
                 conversationTarget := conversationTarget a;
                 lastActionTime := lastActionTime a; thought := thought a;
                 nextDecisionTime := nextDecisionTime a |}
            else a)
         (avatars prev))
    (conversations prev).

Definition addObstacle (idn : nat) (position_ size_ : Vector2)
  (prev : AppState) : AppState :=
  with_obstacles prev
    (obstacles prev ++ [mkObstacle (generateId "obstacle" idn) position_ size_]).

Definition removeObstacle (obstacleId : string) (prev : AppState) : AppState :=
  with_obstacles prev
    (filter (fun o => negb (String.eqb (obs_id o) obstacleId)) (obstacles prev)).

Definition addObject (idn : nat) (position_ : Vector2) (prev : AppState)
  : AppState :=
  with_objects prev
    (objects prev
       ++ [mkArenaObject (generateId "object" idn) position_ "A new object"]).

Definition updateObjectDescription (objectId description_ : string)
  (prev : AppState) : AppState :=
  with_objects prev
    (map (fun o =>
            if String.eqb (obj_id o) objectId
            then mkArenaObject (obj_id o) (obj_position o)
                   (if String.eqb description_ EmptyString
                    then "An object" else description_)
            else o)
         (objects prev)).

Definition removeObject (objectId : string) (prev : AppState) : AppState :=
  with_objects prev
    (filter (fun o => negb (String.eqb (obj_id o) objectId)) (objects prev)).

(** ** Reachable world snapshots

    A world is the state together with the module-level id counter.  One
    step is one state update made by the resolver or by a mutator the
    application calls; the counter advances by the number of ids the update
    generated.  The log entries the resolver and the editing mutators add
    are [addLog] steps of their own.  Restoring a saved world belongs to the
    persistence layer and is not a step. *)
Record World := mkWorld { nextIdCounter : nat; state : AppState }.

Inductive step : World -> World -> Prop :=
| step_executeDecision oracle now cur avatarId decision n s :
    step (mkWorld n s)
      (mkWorld
         (n + (List.length
                 (conversations
                    (executeDecision oracle now n cur avatarId decision s))
               - List.length (conversations s)))
         (executeDecision oracle now n cur avatarId decision s))
| step_addLog now message level_ avatarId n s :
    step (mkWorld n s) (mkWorld n (addLog now message level_ avatarId s))
| step_addAvatar now rx ry ro color_ n s :
    0 <= rx < 1 -> 0 <= ry < 1 -> 0 <= ro < 1 ->
    step (mkWorld n s)
      (mkWorld (if Nat.leb 10 (List.length (avatars s)) then n else S n)
         (addAvatar now n rx ry ro color_ s))
| step_removeAvatar now avatarId n s :
    step (mkWorld n s) (mkWorld n (removeAvatar now avatarId s))
| step_updateAvatarSettings avatarId settingUpdates n s :
    step (mkWorld n s)
      (mkWorld n (updateAvatarSettings avatarId settingUpdates s))
| step_resizeBoard newSize n s :
    step (mkWorld n s) (mkWorld n (resizeBoard newSize s))
| step_updateSimulationSettings newSettings n s :
    step (mkWorld n s) (mkWorld n (updateSimulationSettings newSettings s))
| step_toggleSimulation n s :
    step (mkWorld n s) (mkWorld n (toggleSimulation s))
| step_pauseSimulation n s :
    step (mkWorld n s) (mkWorld n (pauseSimulation s))
| step_resetSimulation now n s :
    step (mkWorld n s) (mkWorld (n + 5) (createInitialState n now))
| step_addObstacle position_ size_ n s :
    step (mkWorld n s) (mkWorld (S n) (addObstacle n position_ size_ s))
| step_removeObstacle obstacleId n s :
    step (mkWorld n s) (mkWorld n (removeObstacle obstacleId s))
| step_addObject position_ n s :
    step (mkWorld n s) (mkWorld (S n) (addObject n position_ s))
| step_updateObjectDescription objectId description_ n s :
    step (mkWorld n s)
      (mkWorld n (updateObjectDescription objectId description_ s))
| step_removeObject objectId n s :
    step (mkWorld n s) (mkWorld n (removeObject objectId s)).

Inductive reachable : World -> Prop :=
| reachable_initial idn now :
    reachable (mkWorld (idn + 5) (createInitialState idn now))
| reachable_step w w' : reachable w -> step w w' -> reachable w'.

(** ** Predicates of the specification *)

(** An avatar centre at least its radius (8) away from every edge, an object
    centre at least 5 away, an obstacle rectangle inside the board. *)
Definition avatar_inset (bs : BoardSize) (a : AvatarState) : Prop :=
  8 <= x (position a) <= width bs - 8 /\ 8 <= y (position a) <= height bs - 8.

Definition object_inset (bs : BoardSize) (o : ArenaObject) : Prop :=
  5 <= x (obj_position o) <= width bs - 5 /\
  5 <= y (obj_position o) <= height bs - 5.

Definition obstacle_within (bs : BoardSize) (ob : Obstacle) : Prop :=
  0 <= x (obs_position ob) /\ x (obs_position ob) + x (size ob) <= width bs /\
  0 <= y (obs_position ob) /\ y (obs_position ob) + y (size ob) <= height bs.

(** The avatar with a given id: the first one the list has. *)
Definition avatar_of (s : AppState) (avatarId : string) : option AvatarState :=
  find (fun a => String.eqb (id a) avatarId) (avatars s).


Definition euclidean (p q : Vector2) : R :=
  sqrt (Rsqr (x q - x p) + Rsqr (y q - y p)).

Definition in_rectangle (ob : Obstacle) (q : Vector2) : Prop :=
  x (obs_position ob) <= x q <= x (obs_position ob) + x (size ob) /\
  y (obs_position ob) <= y q <= y (obs_position ob) + y (size ob).






(** An obstacle entirely outside a board: no point of its rectangle is on
    the board. *)
Definition entirely_outside (bs : BoardSize) (ob : Obstacle) : Prop :=
  forall q, in_rectangle ob q ->
            ~ (0 <= x q <= width bs /\ 0 <= y q <= height bs).

(** The default world, and the default world after one [addAvatar] whose
    random draws put the newcomer at (5, 50). *)
Definition initial_world : AppState := createInitialState 0 0.

Definition edge_world : AppState :=
  addAvatar 0 5 (1 / 100) (1 / 10) 0 "hsl(275.016, 70%, 60%)" initial_world.


(** Every avatar id was generated from a counter value below the current
    one, and no two avatars share an id. *)
Definition well_identified (w : World) : Prop :=
  NoDup (map id (avatars (state w))) /\
  forall a, In a (avatars (state w)) ->
    exists k, (k < nextIdCounter w)%nat /\ id a = generateId "avatar" k.

(** An oracle that always answers, one that always fails, and a decision to
    interact with the orb of the default world. *)
Definition humming_oracle (_ : ProcessObjectInteractionInput) : OracleResult :=
  Reaction "It hums.".


Definition interact_orb : LLMDecision :=
  mkLLMDecision "interact_object"
    (Some (mkDecisionParameters None None (Some (generateId "object" 2))
             None None))
    None.

(** A decision to turn by 47 degrees. *)
Definition turn47 : LLMDecision :=
  mkLLMDecision "turn" (Some (mkDecisionParameters (Some 47) None None None None))
    None.

(** A decision to move 10 forward. *)
Definition move10 : LLMDecision :=
  mkLLMDecision "move"
    (Some (mkDecisionParameters None (Some 10) None None None)) None.

(** The visibility test of the specification.  The bearing to the target is
    the angle of the vector from the observer to it, in degrees; the signed
    angular difference is the representative in (-180, 180] of the bearing
    minus the observer's orientation, modulo 360. *)
Definition bearing_deg (observer : AvatarState) (target : Vector2) : R :=
  JS.atan2 (y target - y (position observer))
           (x target - x (position observer)) * (180 / PI).

Definition is_angular_difference (observer : AvatarState) (target : Vector2)
  (delta : R) : Prop :=
  -180 < delta <= 180 /\
  exists k : Z,
    delta = bearing_deg observer target - orientation observer + 360 * IZR k.

Definition within_cone (observer : AvatarState) (target : Vector2) : Prop :=
  exists delta,
    is_angular_difference observer target delta /\
    Rabs delta <= angle (eyesight (settings observer)) / 2.

Definition spec_visible (observer : AvatarState) (target : Vector2) : Prop :=
  distance (position observer) target <= radius (eyesight (settings observer))
  /\ within_cone observer target.

(** The first avatar of the default world. *)
Definition first_avatar : AvatarState :=
  {| id := generateId "avatar" 0;
     position := mkVector2 50 50;
     orientation := 0;
     settings := INITIAL_AVATAR_SETTINGS;
     color := "hsl(0, 70%, 60%)";
     currentAction := None; conversationTarget := None;
     lastActionTime := None; thought := None;
     nextDecisionTime := Some 0 |}.

(** ** The conversation invariant

    [points_at s a b]: the avatar [a] exists and its [conversationTarget] is
    [b].  The invariant: both participants of every conversation that has
    not ended point at each other, and for every avatar with a
    [conversationTarget] exactly one conversation that has not ended
    contains the pair. *)
Definition points_at (s : AppState) (a b : string) : Prop :=
  exists av, avatar_of s a = Some av /\ conversationTarget av = Some b.

Definition conversation_invariant (s : AppState) : Prop :=
  (forall c, In c (conversations s) -> not_ended c = true ->
     points_at s (fst (participants c)) (snd (participants c)) /\
     points_at s (snd (participants c)) (fst (participants c))) /\
  (forall av t, In av (avatars s) -> conversationTarget av = Some t ->
     List.length (filter (active_between (id av) t) (conversations s)) = 1%nat).

(** The same, as a test that can be run. *)
Definition points_atb (s : AppState) (a b : string) : bool :=
  match avatar_of s a with
  | Some av => JS.seq (conversationTarget av) (Some b)
  | None => false
  end.

Definition conversation_invariantb (s : AppState) : bool :=
  forallb
    (fun c =>
       implb (not_ended c)
         (points_atb s (fst (participants c)) (snd (participants c))
          && points_atb s (snd (participants c)) (fst (participants c))))
    (conversations s)
  &&
  forallb
    (fun av =>
       match conversationTarget av with
       | Some t =>
           Nat.eqb
             (List.length
                (filter (active_between (id av) t) (conversations s)))
             1
       | None => true
       end)
    (avatars s).

(** The first default avatar greets the second, and then answers a stranger:
    the oracle's reply names an avatar that is not its partner. *)
Definition greet : LLMDecision :=
  mkLLMDecision "initiate_conversation"
    (Some (mkDecisionParameters None None (Some (generateId "avatar" 1))
             (Some "Hello") None))
    None.

Definition reply_to_stranger : LLMDecision :=
  mkLLMDecision "continue_conversation"
    (Some (mkDecisionParameters None None (Some (generateId "avatar" 7))
             (Some "Hi") None))
    None.

Definition greeted_world : AppState :=
  executeDecision humming_oracle 1 5 initial_world (generateId "avatar" 0)
    (validateDecision greet) initial_world.

Definition stranded_world : AppState :=
  executeDecision humming_oracle 2 6 greeted_world (generateId "avatar" 0)
    (validateDecision reply_to_stranger) greeted_world.

(** ** The conversation ledger

    All the invariant reads of a world: for each avatar its id and its
    [conversationTarget], and for each conversation its participants and
    whether it has not ended. *)
Definition Target : Type := (string * option string)%type.
Definition Talk : Type := ((string * string) * bool)%type.

Definition targets (s : AppState) : list Target :=
  map (fun av => (id av, conversationTarget av)) (avatars s).

Definition talks (s : AppState) : list Talk :=
  map (fun c => (participants c, not_ended c)) (conversations s).

Definition key_is (a : string) (e : Target) : bool := String.eqb (fst e) a.

Definition lookup (T : list Target) (a : string) : option (option string) :=
  option_map snd (find (key_is a) T).

Definition involves (a : string) (e : Talk) : bool :=
  String.eqb (fst (fst e)) a || String.eqb (snd (fst e)) a.

Definition talking (a b : string) (e : Talk) : bool :=
  involves a e && involves b e && snd e.

Definition ledger_invariant (T : list Target) (C : list Talk) : Prop :=
  (forall e, In e C -> snd e = true ->
     lookup T (fst (fst e)) = Some (Some (snd (fst e))) /\
     lookup T (snd (fst e)) = Some (Some (fst (fst e)))) /\
  (forall a t, In (a, Some t) T ->
     List.length (filter (talking a t) C) = 1%nat).

(** Distinct, non-empty ids. *)
Definition ledger_wf (T : list Target) : Prop :=
  NoDup (map fst T) /\ ~ In EmptyString (map fst T).

(** The ledger after a conversation between [a] and [b] has started, after
    it has been closed from [a]'s side, and after [a] has been removed. *)
Definition pair_up (a b : string) (e : Target) : Target :=
  if String.eqb (fst e) a then (fst e, Some b)
  else if String.eqb (fst e) b then (fst e, Some a)
  else e.

Definition release (a b : string) (e : Target) : Target :=
  if String.eqb (fst e) a || String.eqb (fst e) b then (fst e, None) else e.

Definition close_talk (e : Talk) : Talk := (fst e, false).

Definition close_with (a : string) (e : Talk) : Talk :=
  if involves a e && snd e then close_talk e else e.

Definition partners_of (a : string) (C : list Talk) : list string :=
  flat_map
    (fun e => filter (fun p => negb (String.eqb p a))
                     [fst (fst e); snd (fst e)])
    (filter (fun e => involves a e && snd e) C).

Definition release_partners (P : list string) (e : Target) : Target :=
  if existsb (String.eqb (fst e)) P then (fst e, None) else e.

(** A reply that continues the avatar's conversation: it names the avatar's
    partner and carries a message. *)
Definition answers_partner (r : Resolved) (av : AvatarState) : Prop :=
  exists t m,
    JS.truthy (opt_param p_targetId (r_params r)) = Some t /\
    JS.truthy (opt_param p_message (r_params r)) = Some m /\
    conversationTarget av = Some t.


(** * Further parts of the simulation core *)

(** ** The decision flow around the validation ([avatarDecisionGenkitFlow])

    The prompt either answers, with an output that may be missing, or
    throws an error with a message. *)
Inductive PromptResponse :=
| Answered (output : option LLMDecision)
| Threw (message : string).

Definition avatarDecisionFlow (response : PromptResponse) : LLMDecision :=
  let output :=
    match response with
    | Answered output => output
    | Threw message =>
        (* Provide a default 'idle' decision on error *)
        Some (mkLLMDecision "idle" (Some (duration_only 1000))
                (Some ("Error during decision generation: " ++ message)%string))
    end in
  match output with
  | None =>
      (* Longer idle on failure *)
      mkLLMDecision "idle" (Some (duration_only 1500))
        (Some "LLM failed to generate a valid decision output.")
  | Some output => validateDecision output
  end.

(** What a decision that has passed the flow looks like. *)
Definition well_formed_decision (d : LLMDecision) : Prop :=
  JS.truthy (d_thought d) <> None /\
  (action d = "turn" ->
   exists v (k : Z),
     opt_param p_angle (parameters d) = Some v /\
     v = IZR k * 30 /\ -180 <= v <= 180) /\
  (action d = "move" ->
   exists v, opt_param p_distance (parameters d) = Some v /\ -15 <= v <= 15) /\
  (action d = "interact_object" \/ action d = "initiate_conversation" \/
   action d = "disengage_conversation" \/ action d = "continue_conversation" ->
   JS.truthy (opt_param p_targetId (parameters d)) <> None) /\
  (action d = "continue_conversation" ->
   JS.truthy (opt_param p_message (parameters d)) <> None) /\
  (action d = "think" \/ action d = "idle" ->
   exists v, opt_param p_duration (parameters d) = Some v /\ 100 <= v <= 5000).

(** ** The simulation loop ([tick]) *)

(** [now >= (avatar.nextDecisionTime || 0)] *)
Definition canAct (now : R) (avatar : AvatarState) : bool :=
  JS.ge now (if JS.truthy_num (nextDecisionTime avatar)
             then nullish (nextDecisionTime avatar) 0 else 0).

(** Step 2 of the loop: the actions offered to an avatar. *)
Definition availableActions (sensoryInput : SensoryInput)
  (avatar : AvatarState) : list string :=
  let conversing :=
    match JS.truthy (conversationTarget avatar) with
    | Some _ => true | None => false
    end in
  let a0 := ["turn"; "move"; "interact_object"; "think"; "idle"] in
  let a1 :=
    if Nat.ltb 0 (List.length (visibleAvatars sensoryInput)) && negb conversing
    then a0 ++ ["initiate_conversation"] else a0 in
  let a2 :=
    if conversing
    then (a1 ++ ["continue_conversation"]) ++ ["disengage_conversation"]
    else a1 in
  (* Remove interact if no objects are visible or if conversing *)
  let a3 :=
    if Nat.eqb (List.length (visibleObjects sensoryInput)) 0 || conversing
    then filter (fun a => negb (String.eqb a "interact_object")) a2 else a2 in
  (* Remove initiate if conversing *)
  let a4 :=
    if conversing
    then filter (fun a => negb (String.eqb a "initiate_conversation")) a3
    else a3 in
  (* Remove continue/disengage if not conversing *)
  if negb conversing
  then filter (fun a => negb (String.eqb a "continue_conversation")
                        && negb (String.eqb a "disengage_conversation")) a4
  else a4.

(** The last five messages of the avatar's open conversation. *)
Definition conversationHistory (s : AppState) (avatar : AvatarState)
  : option (list ConversationMessage) :=
  match JS.truthy (conversationTarget avatar) with
  | Some t =>
      match find (active_between (id avatar) t) (conversations s) with
      | Some c => Some (JS.slice_last 5 (messages c))
      | None => None
      end
  | None => None
  end.

(** The decision the loop resolves when the request for one fails. *)
Definition fallbackDecision : LLMDecision :=
  mkLLMDecision "idle" (Some (duration_only 1000))
    (Some "Error occurred during decision making.").

(** ** Conditions of the conversation cases *)

(** The resolver starts a conversation: the decision names a target and
    carries a message, the avatar is free, and the target is another avatar
    that is free too. *)
Definition can_initiate (prev : AppState) (avatarId : string)
  (av : AvatarState) (params : option DecisionParameters) : Prop :=
  exists B m avB,
    JS.truthy (opt_param p_targetId params) = Some B /\
    JS.truthy (opt_param p_message params) = Some m /\
    JS.truthy (conversationTarget av) = None /\
    avatar_of prev B = Some avB /\ B <> avatarId /\
    JS.truthy (conversationTarget avB) = None.

(** [{ ...c, endTime: now }] and [{ ...c, messages: [...last 19, m] }] *)
Definition ended_at (now : R) (c : Conversation) : Conversation :=
  {| conv_id := conv_id c; participants := participants c;
     messages := messages c; startTime := startTime c;
     endTime := Some now |}.

Definition with_message (m : ConversationMessage) (c : Conversation)
  : Conversation :=
  {| conv_id := conv_id c; participants := participants c;
     messages := JS.slice_last 19 (messages c) ++ [m];
     startTime := startTime c; endTime := endTime c |}.

(** ** Bounds of a world *)

(** The caps the mutators enforce: at most 10 avatars, at most 101 entries
    in the event log, and between 1 and 20 messages in a conversation. *)
Definition within_capacity (s : AppState) : Prop :=
  (List.length (avatars s) <= 10)%nat /\
  (List.length (simulationLogs s) <= 101)%nat /\
  (forall c, In c (conversations s) ->
             (1 <= List.length (messages c) <= 20)%nat).

(** Every avatar sees a semicircle. *)
Definition semicircle_eyesight (s : AppState) : Prop :=
  forall a, In a (avatars s) -> angle (eyesight (settings a)) = 180.

(** ** What an avatar perceives *)

(** A point in sight of an observer: away from the observer, within the
    eyesight radius and inside the cone. *)
Definition in_sight (observer : AvatarState) (target : Vector2) : Prop :=
  0 < distance (position observer) target /\ spec_visible observer target.

(** The distance of the nearest sample point of an obstacle that is in
    sight. *)
Definition nearest_sample_in_sight (observer : AvatarState) (ob : Obstacle)
  (c : R) : Prop :=
  (exists p, In p (pointsToCheck ob) /\ in_sight observer p /\
             c = distance (position observer) p) /\
  (forall q, In q (pointsToCheck ob) -> in_sight observer q ->
             c <= distance (position observer) q).

(** * Properties *)

(** ** Comparisons and clamps *)

Lemma lt_true (a b : R) : JS.lt a b = true <-> a < b.
Proof. unfold JS.lt. destruct (Rlt_dec a b); split; intros; easy. Qed.

Lemma lt_false (a b : R) : JS.lt a b = false <-> b <= a.
Proof.
  unfold JS.lt. destruct (Rlt_dec a b); split; intros; try easy; lra.
Qed.

Lemma le_true (a b : R) : JS.le a b = true <-> a <= b.
Proof. unfold JS.le. destruct (Rle_dec a b); split; intros; easy. Qed.

Lemma le_false (a b : R) : JS.le a b = false <-> b < a.
Proof.
  unfold JS.le. destruct (Rle_dec a b); split; intros; try easy; lra.
Qed.

Lemma eq_true (a b : R) : JS.eq a b = true <-> a = b.
Proof. unfold JS.eq. destruct (Req_dec_T a b); split; intros; easy. Qed.

Lemma eq_false (a b : R) : JS.eq a b = false <-> a <> b.
Proof. unfold JS.eq. destruct (Req_dec_T a b); split; intros; easy. Qed.

(** Case analysis on every [Rmin] and [Rmax] in sight, then linear
    arithmetic. *)
Ltac minmax :=
  unfold Rmin, Rmax in *;
  repeat match goal with
         | |- context [Rle_dec ?a ?b] => destruct (Rle_dec a b)
         | H : context [Rle_dec ?a ?b] |- _ => destruct (Rle_dec a b)
         end;
  try lra.

Lemma clamp_inside (lo hi v : R) :
  lo <= v <= hi -> Rmin (Rmax v lo) hi = v.
Proof. intros. minmax. Qed.

Lemma clamp_range (lo hi v : R) :
  lo <= hi -> lo <= Rmin (Rmax v lo) hi <= hi.
Proof. intros. minmax. Qed.

(** ** Resizing the board *)

Lemma clampAvatar_inside (fs : BoardSize) (a : AvatarState) :
  8 <= x (position a) <= width fs - 8 ->
  8 <= y (position a) <= height fs - 8 ->
  clampAvatar fs a = a.
Proof.
  intros Hx Hy. destruct a as [i [px py] o st c ca ct la th nd].
  unfold clampAvatar; simpl in *.
  rewrite !clamp_inside by lra. reflexivity.
Qed.

Lemma clampObject_inside (fs : BoardSize) (o : ArenaObject) :
  5 <= x (obj_position o) <= width fs - 5 ->
  5 <= y (obj_position o) <= height fs - 5 ->
  clampObject fs o = o.
Proof.
  intros Hx Hy. destruct o as [i [px py] d].
  unfold clampObject; simpl in *.
  rewrite !clamp_inside by lra. reflexivity.
Qed.

Lemma clampObstacle_inside (fs : BoardSize) (ob : Obstacle) :
  0 <= x (obs_position ob) <= width fs - x (size ob) ->
  0 <= y (obs_position ob) <= height fs - y (size ob) ->
  clampObstacle fs ob = ob.
Proof.
  intros Hx Hy. destruct ob as [i [px py] [sx sy]].
  unfold clampObstacle; simpl in *.
  rewrite !clamp_inside by lra. reflexivity.
Qed.

Lemma map_fixed {A : Type} (f : A -> A) (l : list A) :
  (forall a, In a l -> f a = a) -> map f l = l.
Proof.
  induction l as [|a l IH]; simpl; intros H; [reflexivity|].
  rewrite H by (left; reflexivity). rewrite IH; [reflexivity|].
  intros b Hb. apply H. right. exact Hb.
Qed.

Lemma filter_all {A : Type} (p : A -> bool) (l : list A) :
  (forall a, In a l -> p a = true) -> filter p l = l.
Proof.
  induction l as [|a l IH]; simpl; intros H; [reflexivity|].
  rewrite H by (left; reflexivity). rewrite IH; [reflexivity|].
  intros b Hb. apply H. right. exact Hb.
Qed.

Lemma obstacles_resizeBoard (ns : BoardSize) (s : AppState) (ob' : Obstacle) :
  In ob' (obstacles (resizeBoard ns s)) <->
  exists ob, In ob (obstacles s) /\ ob' = clampObstacle (finalSize_of ns) ob /\
             x (obs_position ob') < width (finalSize_of ns) /\
             y (obs_position ob') < height (finalSize_of ns).
Proof.
  unfold resizeBoard; simpl. rewrite filter_In, in_map_iff.
  unfold keepObstacle. rewrite andb_true_iff, !lt_true.
  split.
  - intros [[ob [E Hin]] [Hx Hy]]. exists ob. subst ob'. auto.
  - intros [ob [Hin [E [Hx Hy]]]]. split; [exists ob; auto | auto].
Qed.

Lemma clampObstacle_within (fs : BoardSize) (ob : Obstacle) :
  0 <= x (size ob) <= width fs -> 0 <= y (size ob) <= height fs ->
  obstacle_within fs (clampObstacle fs ob).
Proof.
  intros Hx Hy. unfold obstacle_within, clampObstacle; simpl.
  repeat split; minmax.
Qed.

Lemma reachable_edge_world : reachable (mkWorld 6 edge_world).
Proof.
  apply reachable_step with (w := mkWorld 5 initial_world).
  - apply (reachable_initial 0 0).
  - apply (step_addAvatar 0 (1 / 100) (1 / 10) 0 _ 5 initial_world); lra.
Qed.

(** C8, as stated, fails: in the world reached from the default one by adding
    an avatar that spawns at (5, 50), resizing the board to its current size
    moves that avatar to (8, 50). *)
Lemma resizeBoard_current_size_moves_edge_avatar :
  map position
      (avatars (resizeBoard (boardSize (simulation edge_world)) edge_world))
  <> map position (avatars edge_world).
Proof.
  intros H.
  apply (f_equal (fun l => x (nth 2 l (mkVector2 0 0)))) in H.
  simpl in H. minmax.
Qed.

(** C8, amended: resizing the board to its current size leaves every avatar,
    object and obstacle as it is when every avatar centre is at least 8 and
    every object centre at least 5 away from each edge and every obstacle
    lies inside the board with its corner strictly inside. *)
Theorem resizeBoard_current_size_keeps_inset_entities (s : AppState) :
  (forall a, In a (avatars s) -> avatar_inset (boardSize (simulation s)) a) ->
  (forall o, In o (objects s) -> object_inset (boardSize (simulation s)) o) ->
  (forall ob, In ob (obstacles s) ->
     obstacle_within (boardSize (simulation s)) ob /\
     x (obs_position ob) < width (boardSize (simulation s)) /\
     y (obs_position ob) < height (boardSize (simulation s))) ->
  avatars (resizeBoard (boardSize (simulation s)) s) = avatars s /\
  objects (resizeBoard (boardSize (simulation s)) s) = objects s /\
  obstacles (resizeBoard (boardSize (simulation s)) s) = obstacles s.
Proof.
  intros Ha Ho Hb.
  set (bs := boardSize (simulation s)) in *.
  assert (Hw : width bs <= width (finalSize_of bs))
    by (unfold finalSize_of; simpl; minmax).
  assert (Hh : height bs <= height (finalSize_of bs))
    by (unfold finalSize_of; simpl; minmax).
  unfold resizeBoard; simpl. fold bs. repeat split.
  - apply map_fixed. intros a Hin. destruct (Ha a Hin) as [Hx Hy].
    apply clampAvatar_inside; lra.
  - apply map_fixed. intros o Hin. destruct (Ho o Hin) as [Hx Hy].
    apply clampObject_inside; lra.
  - rewrite map_fixed.
    + apply filter_all. intros ob Hin.
      destruct (Hb ob Hin) as [_ [Hx Hy]].
      unfold keepObstacle. rewrite andb_true_iff, !lt_true. lra.
    + intros ob Hin. destruct (Hb ob Hin) as [[H1 [H2 [H3 H4]]] _].
      apply clampObstacle_inside; lra.
Qed.

(** The default world meets the conditions: resizing it to 500 x 500 changes
    nothing. *)
Lemma resizeBoard_current_size_keeps_initial_world :
  avatars (resizeBoard (boardSize (simulation initial_world)) initial_world)
    = avatars initial_world /\
  objects (resizeBoard (boardSize (simulation initial_world)) initial_world)
    = objects initial_world /\
  obstacles (resizeBoard (boardSize (simulation initial_world)) initial_world)
    = obstacles initial_world.
Proof.
  apply (resizeBoard_current_size_keeps_inset_entities initial_world).
  - intros a [E | [E | []]]; subst a; unfold avatar_inset; simpl; lra.
  - intros o [E | []]; subst o; unfold object_inset; simpl; lra.
  - intros ob [E | [E | []]]; subst ob; unfold obstacle_within; simpl; lra.
Defined.

(** Shrinking the default board to 100 x 100 keeps the first default
    obstacle (10 x 150) at (90, -50): the clamp only moves the corner, so an
    obstacle larger than the new board sticks out of it. *)
Lemma resizeBoard_oversized_obstacle_sticks_out :
  exists ob,
    In ob (obstacles (resizeBoard (mkBoardSize 100 100) initial_world)) /\
    ~ obstacle_within (finalSize_of (mkBoardSize 100 100)) ob.
Proof.
  exists (clampObstacle (finalSize_of (mkBoardSize 100 100))
            (mkObstacle (generateId "obstacle" 3) (mkVector2 100 100)
               (mkVector2 10 150))).
  split.
  - apply obstacles_resizeBoard.
    eexists. split; [left; reflexivity|]. split; [reflexivity|].
    simpl. minmax.
  - unfold obstacle_within. simpl. intros [_ [_ [H _]]]. minmax.
Qed.

(** The filter of [resizeBoard] runs on the clamped obstacles, and the clamp
    puts the corner of an obstacle of positive width and height strictly
    before the far edges: the filter keeps every such obstacle. *)
Lemma keepObstacle_clampObstacle (fs : BoardSize) (ob : Obstacle) :
  0 < x (size ob) -> 0 < y (size ob) ->
  keepObstacle fs (clampObstacle fs ob) = true.
Proof.
  intros Hx Hy. unfold keepObstacle, clampObstacle; simpl.
  rewrite andb_true_iff, !lt_true. split; minmax.
Qed.

(** C9: [resizeBoard] does not remove an obstacle that lies entirely outside
    the new bounds.  Shrinking the default 500 x 500 board to 200 x 200
    leaves the second default obstacle, the rectangle from (300, 300) to
    (450, 310), without a point on the new board; the obstacle is not
    removed but kept, pulled to (50, 190).  The same holds in general: for
    every world whose obstacles have positive width and height and for every
    new size, the obstacles after the call are the clamped obstacles, all of
    them, so the filter removes nothing. *)
Theorem resizeBoard_keeps_an_obstacle_entirely_outside :
  In (mkObstacle (generateId "obstacle" 4) (mkVector2 300 300)
        (mkVector2 150 10))
     (obstacles initial_world) /\
  entirely_outside (finalSize_of (mkBoardSize 200 200))
    (mkObstacle (generateId "obstacle" 4) (mkVector2 300 300)
       (mkVector2 150 10)) /\
  obstacles (resizeBoard (mkBoardSize 200 200) initial_world)
  = [ mkObstacle (generateId "obstacle" 3) (mkVector2 100 50)
        (mkVector2 10 150);
      mkObstacle (generateId "obstacle" 4) (mkVector2 50 190)
        (mkVector2 150 10) ] /\
  (forall (ns : BoardSize) (s : AppState),
     (forall ob, In ob (obstacles s) -> 0 < x (size ob) /\ 0 < y (size ob)) ->
     obstacles (resizeBoard ns s)
     = map (clampObstacle (finalSize_of ns)) (obstacles s)).
Proof.
  assert (Hall : forall (ns : BoardSize) (s : AppState),
             (forall ob, In ob (obstacles s) ->
                         0 < x (size ob) /\ 0 < y (size ob)) ->
             obstacles (resizeBoard ns s)
             = map (clampObstacle (finalSize_of ns)) (obstacles s)).
  { intros ns s Hpos. unfold resizeBoard; simpl. apply filter_all.
    intros ob' Hin. apply in_map_iff in Hin. destruct Hin as [ob [E Hin]].
    subst ob'. destruct (Hpos ob Hin) as [Hx Hy].
    apply keepObstacle_clampObstacle; assumption. }
  split; [right; left; reflexivity|]. split; [|split; [|exact Hall]].
  - intros q [[Hx _] _] [[_ Hx'] _]. simpl in Hx, Hx'. minmax.
  - rewrite Hall.
    + assert (E200 : Rmax 100 200 = 200) by minmax.
      assert (Ex3 : Rmin (Rmax 100 0) (200 - 10) = 100) by minmax.
      assert (Ey3 : Rmin (Rmax 100 0) (200 - 150) = 50) by minmax.
      assert (Ex4 : Rmin (Rmax 300 0) (200 - 150) = 50) by minmax.
      assert (Ey4 : Rmin (Rmax 300 0) (200 - 10) = 190) by minmax.
      unfold clampObstacle, finalSize_of; simpl.
      rewrite E200, Ex3, Ey3, Ex4, Ey4. reflexivity.
    + intros ob [E | [E | []]]; subst ob; simpl; lra.
Qed.

(** ** Ids: generated ids are distinct, and the resolver keeps them *)

Lemma append_inj_l (p s t : string) : (p ++ s = p ++ t)%string -> s = t.
Proof.
  induction p as [|c p IH]; simpl; intros H; [exact H|].
  injection H as H. auto.
Qed.

Lemma show_nat_inj (n m : nat) : JS.show_nat n = JS.show_nat m -> n = m.
Proof.
  unfold JS.show_nat. intros H.
  assert (Hnil : forall k, Nat.to_uint k <> Nil).
  { intros k E. pose proof (Unsigned.to_of (Nat.to_uint k)) as Hk.
    rewrite Unsigned.of_to in Hk. rewrite E in Hk at 1.
    symmetry in Hk. exact (unorm_nonnil _ Hk). }
  apply Unsigned.to_uint_inj.
  assert (Hs : Some (Nat.to_uint n) = Some (Nat.to_uint m)).
  { rewrite <- (NilZero.usu _ (Hnil n)), <- (NilZero.usu _ (Hnil m)).
    rewrite H. reflexivity. }
  injection Hs as Hs. exact Hs.
Qed.

Lemma generateId_inj (prefix : string) (n m : nat) :
  generateId prefix n = generateId prefix m -> n = m.
Proof.
  unfold generateId. intros H.
  apply append_inj_l in H. apply (append_inj_l "-") in H.
  apply show_nat_inj. exact H.
Qed.

Lemma id_with_conversation (a : AvatarState) (t act : option string) :
  id (with_conversation a t act) = id a.
Proof. reflexivity. Qed.

Lemma map_id_ext (f : AvatarState -> AvatarState) (l : list AvatarState) :
  (forall a, id (f a) = id a) -> map id (map f l) = map id l.
Proof.
  intros H. rewrite map_map. apply map_ext. exact H.
Qed.

Lemma mapi_from_ids (f : AvatarState -> nat -> AvatarState)
  (l : list AvatarState) (i : nat) :
  (forall a k, id (f a k) = id a) -> map id (JS.mapi_from i f l) = map id l.
Proof.
  intros H. revert i. induction l as [|a l IH]; intros i; simpl;
    [reflexivity|]. rewrite H, IH. reflexivity.
Qed.

(** Case analysis on the scrutinee of every [match] and [if] of the goal. *)
Ltac break_match :=
  repeat match goal with
         | |- context [match ?e with _ => _ end] => destruct e eqn:?
         end.

Lemma resolve_switch_ids now idn prev avatarId currentAvatar updateParams l :
  map id (nextAvatars
            (resolve_switch now idn prev avatarId currentAvatar updateParams l))
  = map id (nextAvatars l).
Proof.
  unfold resolve_switch, turn_case, move_case, initiate_case, continue_case,
    disengage_case, downgrade.
  break_match; simpl; try reflexivity;
    apply map_id_ext; intro; break_match; reflexivity.
Qed.

Lemma applyDecision_ids now idn avatarId r prev :
  map id (avatars (applyDecision now idn avatarId r prev))
  = map id (avatars prev).
Proof.
  unfold applyDecision.
  destruct (JS.findIndex _ _) as [avatarIndex|]; [|reflexivity].
  destruct (nth_error _ _) as [currentAvatar|]; [|reflexivity].
  simpl. unfold JS.mapi. rewrite mapi_from_ids.
  - unfold resolvedLocals. apply resolve_switch_ids.
  - intros av k. destruct (Nat.eqb k avatarIndex); reflexivity.
Qed.

Lemma executeDecision_ids oracle now idn cur avatarId decision prev :
  map id (avatars (executeDecision oracle now idn cur avatarId decision prev))
  = map id (avatars prev).
Proof. apply applyDecision_ids. Qed.

(** ** Logging leaves everything but the log alone *)

Lemma run_with_logs_avatars now s logs :
  avatars (run_with_logs now (s, logs)) = avatars s.
Proof.
  unfold run_with_logs; simpl. revert s.
  induction logs as [|ml logs IH]; intros s; simpl; [reflexivity|].
  rewrite IH. reflexivity.
Qed.

Lemma run_with_logs_core now s logs :
  let s' := run_with_logs now (s, logs) in
  avatars s' = avatars s /\ objects s' = objects s /\
  obstacles s' = obstacles s /\ conversations s' = conversations s /\
  simulation s' = simulation s /\ isRunning s' = isRunning s.
Proof.
  unfold run_with_logs; simpl. revert s.
  induction logs as [|ml logs IH]; intros s; simpl; [tauto|].
  destruct (IH (addLog now (fst ml) (snd ml) None s)) as (A & B & C & D & E & F).
  rewrite A, B, C, D, E, F. simpl. tauto.
Qed.

(** ** The avatar floor *)

Lemma filter_other_ids_length (avatarId : string) (l : list AvatarState) :
  NoDup (map id l) ->
  (List.length l
   <= S (List.length
           (filter (fun a => negb (String.eqb (id a) avatarId)) l)))%nat.
Proof.
  induction l as [|a l IH]; simpl; intros Hnd; [lia|].
  inversion Hnd as [|? ? Hnotin Hnd']; subst.
  destruct (String.eqb (id a) avatarId) eqn:E; simpl.
  - apply String.eqb_eq in E.
    rewrite filter_all; [lia|].
    intros b Hb. apply negb_true_iff, String.eqb_neq. intros Eb.
    apply Hnotin. rewrite E, <- Eb. apply in_map. exact Hb.
  - specialize (IH Hnd'). lia.
Qed.

Lemma filter_ids_NoDup (p : AvatarState -> bool) (l : list AvatarState) :
  NoDup (map id l) -> NoDup (map id (filter p l)).
Proof.
  induction l as [|a l IH]; simpl; intros Hnd; [constructor|].
  inversion Hnd as [|? ? Hnotin Hnd']; subst.
  destruct (p a); simpl; [|auto].
  constructor; [|auto].
  intros Hin. apply Hnotin.
  apply in_map_iff in Hin. destruct Hin as [b [Eb Hb]].
  apply filter_In in Hb. rewrite <- Eb. apply in_map. tauto.
Qed.

Lemma removeAvatar_update_avatars now avatarId s :
  (2 < List.length (avatars s))%nat ->
  exists reset : AvatarState -> bool,
    avatars (fst (removeAvatar_update now avatarId s))
    = map (fun a => if reset a then with_conversation a None None else a)
          (filter (fun a => negb (String.eqb (id a) avatarId)) (avatars s)).
Proof.
  intros Hlen. unfold removeAvatar_update.
  destruct (Nat.leb (List.length (avatars s)) 2) eqn:E.
  - apply Nat.leb_le in E. lia.
  - simpl. eexists. reflexivity.
Qed.

Lemma removeAvatar_update_rejects now avatarId s :
  (List.length (avatars s) <= 2)%nat ->
  removeAvatar_update now avatarId s
  = (s, [(("Cannot remove avatar " ++ avatarId
             ++ ", minimum of 2 required.")%string, warning)]).
Proof.
  intros Hlen. unfold removeAvatar_update.
  destruct (Nat.leb (List.length (avatars s)) 2) eqn:E; [reflexivity|].
  apply Nat.leb_gt in E. lia.
Qed.

Lemma avatars_removeAvatar now avatarId s :
  avatars (removeAvatar now avatarId s)
  = avatars (fst (removeAvatar_update now avatarId s)).
Proof.
  unfold removeAvatar.
  destruct (removeAvatar_update now avatarId s) as [s' logs].
  apply run_with_logs_avatars.
Qed.

Lemma avatars_addAvatar now idn rx ry ro color_ s :
  avatars (addAvatar now idn rx ry ro color_ s)
  = avatars (fst (addAvatar_update idn rx ry ro color_ s)).
Proof.
  unfold addAvatar.
  destruct (addAvatar_update idn rx ry ro color_ s) as [s' logs].
  apply run_with_logs_avatars.
Qed.

Lemma NoDup_snoc {A : Type} (l : list A) (a : A) :
  NoDup l -> ~ In a l -> NoDup (l ++ [a]).
Proof.
  induction l as [|b l IH]; simpl; intros Hnd Hnotin.
  - constructor; [intros [] | constructor].
  - inversion Hnd as [|? ? Hb Hnd']; subst. constructor.
    + intros Hin. apply in_app_or in Hin. destruct Hin as [Hin | [E | []]].
      * contradiction.
      * apply Hnotin. left. symmetry. exact E.
    + apply IH; [exact Hnd' | tauto].
Qed.

(** A step that keeps the list of ids and does not lower the counter keeps
    the floor and the identification. *)
Lemma same_ids_invariant (n n' : nat) (s s' : AppState) :
  map id (avatars s') = map id (avatars s) -> (n <= n')%nat ->
  (2 <= List.length (avatars s))%nat /\ well_identified (mkWorld n s) ->
  (2 <= List.length (avatars s'))%nat /\ well_identified (mkWorld n' s').
Proof.
  intros Hids Hn [Hlen [Hnd Hgen]]. unfold well_identified; simpl in *.
  split; [|split].
  - rewrite <- (length_map id), Hids, length_map. exact Hlen.
  - rewrite Hids. exact Hnd.
  - intros a Hin.
    assert (Hin' : In (id a) (map id (avatars s)))
      by (rewrite <- Hids; apply in_map; exact Hin).
    apply in_map_iff in Hin'. destruct Hin' as [b [Eb Hb]].
    destruct (Hgen b Hb) as [k [Hk Ek]].
    exists k. split; [lia | congruence].
Qed.

Lemma initial_invariant (idn : nat) (now : R) :
  (2 <= List.length (avatars (createInitialState idn now)))%nat /\
  well_identified (mkWorld (idn + 5) (createInitialState idn now)).
Proof.
  unfold well_identified; simpl. split; [lia|]. split.
  - constructor.
    + intros [E | []]. apply generateId_inj in E. lia.
    + constructor; [intros [] | constructor].
  - intros a [E | [E | []]]; subst a; simpl.
    + exists idn. split; [lia | reflexivity].
    + exists (idn + 1)%nat. split; [lia | reflexivity].
Qed.

Lemma step_invariant (w w' : World) :
  step w w' ->
  (2 <= List.length (avatars (state w)))%nat /\ well_identified w ->
  (2 <= List.length (avatars (state w')))%nat /\ well_identified w'.
Proof.
  intros Hstep Hinv.
  destruct Hstep; simpl state in *;
    try (apply (same_ids_invariant n _ s); [reflexivity | lia | exact Hinv]).
  - (* executeDecision *)
    apply (same_ids_invariant n _ s);
      [apply executeDecision_ids | lia | exact Hinv].
  - (* addAvatar *)
    destruct Hinv as [Hlen [Hnd Hgen]]. unfold well_identified in *.
    cbn [state nextIdCounter] in *.
    rewrite avatars_addAvatar. unfold addAvatar_update.
    destruct (Nat.leb 10 (List.length (avatars s))); simpl in *.
    + auto.
    + rewrite length_app, map_app. simpl. split; [lia|]. split.
      * apply NoDup_snoc; [exact Hnd|]. intros Hin.
        apply in_map_iff in Hin. destruct Hin as [b [Eb Hb]].
        destruct (Hgen b Hb) as [k [Hk Ek]].
        rewrite Ek in Eb. apply generateId_inj in Eb. lia.
      * intros a Hin. apply in_app_or in Hin. destruct Hin as [Hin | [E | []]].
        -- destruct (Hgen a Hin) as [k [Hk Ek]]. exists k. split; [lia | auto].
        -- subst a. simpl. exists n. split; [lia | reflexivity].
  - (* removeAvatar *)
    destruct Hinv as [Hlen [Hnd Hgen]]. unfold well_identified in *.
    cbn [state nextIdCounter] in *. rewrite avatars_removeAvatar.
    destruct (Nat.leb (List.length (avatars s)) 2) eqn:E.
    + apply Nat.leb_le in E.
      rewrite removeAvatar_update_rejects by exact E. simpl. auto.
    + apply Nat.leb_gt in E.
      destruct (removeAvatar_update_avatars now avatarId s E) as [reset Hr].
      rewrite Hr.
      assert (Hids : forall l,
                 map id (map (fun a => if reset a
                                       then with_conversation a None None
                                       else a) l) = map id l).
      { intros l. apply map_id_ext. intros a. destruct (reset a); reflexivity. }
      split; [|split].
      * rewrite length_map.
        pose proof (filter_other_ids_length avatarId (avatars s) Hnd). lia.
      * rewrite Hids. apply filter_ids_NoDup. exact Hnd.
      * intros a Hin. apply in_map_iff in Hin. destruct Hin as [b [Eb Hb]].
        apply filter_In in Hb. destruct Hb as [Hb _].
        destruct (Hgen b Hb) as [k [Hk Ek]]. exists k. split; [exact Hk|].
        subst a. destruct (reset b); exact Ek.
  - (* updateAvatarSettings *)
    apply (same_ids_invariant n _ s); [ | lia | exact Hinv].
    unfold updateAvatarSettings; simpl. apply map_id_ext.
    intros a. destruct (String.eqb (id a) avatarId); reflexivity.
  - (* resizeBoard *)
    apply (same_ids_invariant n _ s); [ | lia | exact Hinv].
    unfold resizeBoard; simpl. apply map_id_ext. reflexivity.
  - (* pauseSimulation *)
    apply (same_ids_invariant n _ s); [ | lia | exact Hinv].
    unfold pauseSimulation. destruct (isRunning s); reflexivity.
  - (* resetSimulation *)
    apply initial_invariant.
Qed.

Lemma reachable_invariant (w : World) :
  reachable w ->
  (2 <= List.length (avatars (state w)))%nat /\ well_identified w.
Proof.
  induction 1 as [idn now | w w' _ IH Hstep].
  - apply initial_invariant.
  - exact (step_invariant w w' Hstep IH).
Qed.

(** C2, as stated, fails in its last part: a rejected removal still changes
    the world snapshot, whose event log gains the warning. *)
Lemma rejected_removeAvatar_changes_the_log :
  removeAvatar 1 (generateId "avatar" 0) initial_world <> initial_world.
Proof.
  intros H.
  apply (f_equal (fun s => List.length (simulationLogs s))) in H.
  vm_compute in H. discriminate H.
Qed.

(** C2, amended: the initial world has two avatars and every reachable world
    has at least two; a [removeAvatar] call with at most two avatars left is
    rejected: its update returns the previous state itself, so the call
    leaves avatars, objects, obstacles, conversations, settings and the
    running flag as they were, and its only effect is one warning appended
    to the event log. *)
Theorem avatar_floor :
  (forall idn now,
     List.length (avatars (createInitialState idn now)) = 2%nat) /\
  (forall w, reachable w -> (2 <= List.length (avatars (state w)))%nat) /\
  (forall now avatarId s,
     (List.length (avatars s) <= 2)%nat ->
     fst (removeAvatar_update now avatarId s) = s /\
     avatars (removeAvatar now avatarId s) = avatars s /\
     objects (removeAvatar now avatarId s) = objects s /\
     obstacles (removeAvatar now avatarId s) = obstacles s /\
     conversations (removeAvatar now avatarId s) = conversations s /\
     simulation (removeAvatar now avatarId s) = simulation s /\
     isRunning (removeAvatar now avatarId s) = isRunning s /\
     simulationLogs (removeAvatar now avatarId s)
     = JS.slice_last 100 (simulationLogs s)
         ++ [mkSimulationLogEntry now
               ("Cannot remove avatar " ++ avatarId
                  ++ ", minimum of 2 required.")%string
               warning None]).
Proof.
  split; [reflexivity|]. split.
  - intros w Hw. apply (reachable_invariant w Hw).
  - intros now avatarId s Hlen. unfold removeAvatar.
    rewrite (removeAvatar_update_rejects now avatarId s Hlen).
    unfold run_with_logs. simpl. repeat split; reflexivity.
Qed.

(** The floor in the world with a third avatar, and a rejected removal in
    the default world. *)
Lemma avatar_floor_witness :
  (2 <= List.length (avatars (state (mkWorld 6 edge_world))))%nat /\
  avatars (removeAvatar 1 (generateId "avatar" 0) initial_world)
  = avatars initial_world.
Proof.
  split.
  - apply (proj1 (proj2 avatar_floor) (mkWorld 6 edge_world)).
    apply reachable_edge_world.
  - apply (proj2 (proj2 avatar_floor) 1 (generateId "avatar" 0) initial_world).
    simpl. lia.
Defined.

(** ** The avatar the resolver updates *)

Lemma find_findIndex {A : Type} (p : A -> bool) (l : list A) :
  find p l = match JS.findIndex p l with
             | Some i => nth_error l i
             | None => None
             end.
Proof.
  induction l as [|a l IH]; simpl; [reflexivity|].
  destruct (p a); [reflexivity|].
  rewrite IH. destruct (JS.findIndex p l); reflexivity.
Qed.

Lemma findIndex_by_ids (avatarId : string) (l : list AvatarState) :
  JS.findIndex (fun a => String.eqb (id a) avatarId) l
  = JS.findIndex (fun i => String.eqb i avatarId) (map id l).
Proof.
  induction l as [|a l IH]; simpl; [reflexivity|].
  rewrite IH. reflexivity.
Qed.

Lemma mapi_from_nth_error {A B : Type} (f : A -> nat -> B) (l : list A)
  (k i : nat) :
  nth_error (JS.mapi_from k f l) i
  = option_map (fun a => f a (k + i)%nat) (nth_error l i).
Proof.
  revert k i. induction l as [|a l IH]; intros k [|i]; simpl;
    try reflexivity.
  - rewrite Nat.add_0_r. reflexivity.
  - rewrite IH. rewrite Nat.add_succ_r. reflexivity.
Qed.

Lemma nth_error_same_ids (l l' : list AvatarState) (i : nat) (a : AvatarState) :
  map id l' = map id l -> nth_error l i = Some a ->
  exists a', nth_error l' i = Some a' /\ id a' = id a.
Proof.
  intros Hids Hnth.
  assert (H : nth_error (map id l') i = Some (id a))
    by (rewrite Hids; apply map_nth_error; exact Hnth).
  rewrite nth_error_map in H.
  destruct (nth_error l' i) as [a'|]; simpl in H; [|discriminate H].
  exists a'. split; [reflexivity | congruence].
Qed.

Lemma avatar_of_applyDecision now idn avatarId r prev av :
  avatar_of prev avatarId = Some av ->
  exists a0,
    id a0 = id av /\
    avatar_of (applyDecision now idn avatarId r prev) avatarId
    = Some (updatedAvatar now prev av (r_params r)
              (resolvedLocals now idn avatarId r prev av) a0).
Proof.
  unfold avatar_of. intros Hav.
  assert (Hids := applyDecision_ids now idn avatarId r prev).
  rewrite find_findIndex in Hav |- *.
  rewrite findIndex_by_ids, Hids, <- findIndex_by_ids.
  unfold applyDecision.
  destruct (JS.findIndex _ (avatars prev)) as [i|]; [|discriminate Hav].
  rewrite Hav. simpl avatars.
  set (l := resolvedLocals now idn avatarId r prev av).
  destruct (nth_error_same_ids (avatars prev) (nextAvatars l) i av)
    as [a0 [Hnth Hid]]; [apply resolve_switch_ids | exact Hav |].
  exists a0. split; [exact Hid|].
  unfold JS.mapi. rewrite mapi_from_nth_error, Hnth. simpl.
  rewrite Nat.eqb_refl. reflexivity.
Qed.

Lemma avatar_of_id s avatarId av :
  avatar_of s avatarId = Some av -> id av = avatarId.
Proof.
  unfold avatar_of. intros H. apply find_some in H.
  apply String.eqb_eq. tauto.
Qed.

(** ** Delay and action normalisation *)

Lemma clampDelay_range (d : R) : 100 <= clampDelay d <= 10000.
Proof. unfold clampDelay. minmax. Qed.

Lemma clampDelay_inside (d : R) : 100 <= d <= 10000 -> clampDelay d = d.
Proof. unfold clampDelay. intros. minmax. Qed.


Lemma prepareDecision_interact oracle cur avatarId decision :
  action decision = "interact_object" ->
  r_action (prepareDecision oracle cur avatarId decision) = "idle" /\
  r_params (prepareDecision oracle cur avatarId decision)
  = Some (duration_only 500).
Proof.
  intros Ha. unfold prepareDecision. rewrite Ha. simpl.
  break_match; simpl; split; reflexivity.
Qed.

Lemma prepareDecision_params oracle cur avatarId decision :
  action decision <> "interact_object" ->
  r_params (prepareDecision oracle cur avatarId decision)
  = parameters decision.
Proof.
  intros Ha. unfold prepareDecision.
  apply String.eqb_neq in Ha. rewrite Ha.
  destruct (String.eqb (action decision) "think"); reflexivity.
Qed.




(** ** Object interaction *)

Lemma append_assoc (s1 s2 s3 : string) :
  ((s1 ++ s2) ++ s3 = s1 ++ (s2 ++ s3))%string.
Proof.
  induction s1 as [|c s1 IH]; simpl; [reflexivity|].
  rewrite IH. reflexivity.
Qed.

Lemma resolvedLocals_idle now idn avatarId r prev av :
  r_action r = "idle" ->
  updateAction (resolvedLocals now idn avatarId r prev av) = "idle" /\
  finalThought (resolvedLocals now idn avatarId r prev av) = r_thought r.
Proof.
  intros Ha. unfold resolvedLocals, resolve_switch, initialLocals.
  simpl. rewrite Ha. simpl. split; reflexivity.
Qed.

(** C6: an [interact_object] decision always leaves the avatar without a
    current action and due again 500 ms after the resolution, whether or
    not the target object (and, in the state the resolver reads first, the
    avatar) is found and whether the Interaction Oracle answers or fails;
    the avatar's thought ends with the oracle's reaction, with the error
    message, or with the not-found note. *)
Theorem interact_object_always_idles
  oracle now idn cur avatarId decision prev av :
  action decision = "interact_object" ->
  avatar_of prev avatarId = Some av ->
  exists av',
    avatar_of (executeDecision oracle now idn cur avatarId decision prev)
      avatarId = Some av' /\
    currentAction av' = None /\
    nextDecisionTime av' = Some (now + 500) /\
    match find (fun o => JS.seq (Some (obj_id o))
                           (opt_param p_targetId (parameters decision)))
               (objects cur),
          avatar_of cur avatarId with
    | Some targetObject, Some currentAvatar =>
        match oracle (interactionInput_of targetObject currentAvatar) with
        | Reaction reaction =>
            exists pre, thought av' = Some (pre ++ reaction)%string
        | Failure message =>
            exists pre, thought av' = Some (pre ++ message)%string
        end
    | _, _ =>
        exists pre,
          thought av'
          = Some (pre ++ "(Target object "
                    ++ JS.tpl (opt_param p_targetId (parameters decision))
                    ++ " not found)")%string
    end.
Proof.
  intros Ha Hav.
  destruct (avatar_of_applyDecision now idn avatarId
              (prepareDecision oracle cur avatarId decision) prev av Hav)
    as [a0 [_ H]].
  destruct (prepareDecision_interact oracle cur avatarId decision Ha)
    as [Hact Hpar].
  destruct (resolvedLocals_idle now idn avatarId _ prev av Hact)
    as [Hidle Hthought].
  eexists. split; [exact H|]. simpl.
  rewrite Hidle, Hthought. split; [reflexivity|]. split.
  - unfold decisionDelay. rewrite Hpar. simpl.
    rewrite clampDelay_inside by lra. reflexivity.
  - unfold prepareDecision, avatar_of. rewrite Ha. simpl.
    destruct (find _ (objects cur)) as [targetObject|];
      [destruct (find _ (avatars cur)) as [currentAvatar|] |].
    + destruct (oracle (interactionInput_of targetObject currentAvatar)).
      * exists ("Interacted with "
                  ++ JS.tpl (opt_param p_targetId (parameters decision))
                  ++ ". Note: " ++ dquote ++ description targetObject
                  ++ dquote ++ ". Reaction: ")%string.
        simpl. rewrite ?append_assoc. simpl. rewrite ?append_assoc.
        reflexivity.
      * exists ("Interacted with "
                  ++ JS.tpl (opt_param p_targetId (parameters decision))
                  ++ ". Failed to process reaction: ")%string.
        simpl. rewrite ?append_assoc. reflexivity.
    + simpl. eexists. reflexivity.
    + simpl. eexists. reflexivity.
Qed.

(** The first default avatar interacts with the orb. *)
Lemma interact_object_always_idles_witness :
  exists av',
    avatar_of (executeDecision humming_oracle 1 5 initial_world
                 (generateId "avatar" 0) interact_orb initial_world)
      (generateId "avatar" 0) = Some av' /\
    currentAction av' = None /\
    nextDecisionTime av' = Some (1 + 500).
Proof.
  destruct (interact_object_always_idles humming_oracle 1 5 initial_world
              (generateId "avatar" 0) interact_orb initial_world _
              eq_refl eq_refl)
    as [av' [H1 [H2 [H3 _]]]].
  exists av'. auto.
Defined.

(** ** Turning *)

Lemma round_bounds (a : R) : a - / 2 < JS.round a <= a + / 2.
Proof.
  unfold JS.round. pose proof (Zfloor_bound (a + / 2)). lra.
Qed.

Lemma round_IZR (k : Z) : JS.round (IZR k) = IZR k.
Proof.
  unfold JS.round. f_equal. apply Zfloor_eq. lra.
Qed.

Lemma snap30_multiple (k : Z) : snap30 (IZR k * 30) = IZR k * 30.
Proof.
  unfold snap30. replace (IZR k * 30 / 30) with (IZR k) by field.
  rewrite round_IZR. reflexivity.
Qed.

Lemma snap30_spec (a : R) :
  exists k : Z, snap30 a = IZR k * 30 /\ a - 15 < snap30 a <= a + 15.
Proof.
  unfold snap30. exists (Zfloor (a / 30 + / 2)).
  split; [reflexivity|].
  pose proof (round_bounds (a / 30)). lra.
Qed.

Lemma snap30_clamped (a : R) :
  -180 <= a <= 180 -> -180 <= snap30 a <= 180.
Proof.
  intros Ha. unfold snap30, JS.round.
  assert (H1 : (-6 <= Zfloor (a / 30 + / 2))%Z)
    by (apply Zfloor_lub; lra).
  assert (H2 : (Zfloor (a / 30 + / 2) <= 6)%Z).
  { assert (H : (Zfloor (a / 30 + / 2) < 7)%Z); [|lia].
    apply lt_IZR. pose proof (Zfloor_bound (a / 30 + / 2)). lra. }
  apply IZR_le in H1. apply IZR_le in H2. lra.
Qed.

Lemma snap30_47 : snap30 47 = 60.
Proof.
  unfold snap30, JS.round.
  rewrite (Zfloor_eq 2); lra.
Qed.

Lemma rem_nonneg (a n : R) :
  0 <= a -> 0 < n ->
  0 <= JS.rem a n < n /\ exists k : Z, JS.rem a n = a - n * IZR k.
Proof.
  intros Ha Hn. unfold JS.rem, JS.trunc.
  assert (Hq : 0 <= a / n).
  { apply Rmult_le_pos; [exact Ha|]. left. apply Rinv_0_lt_compat. exact Hn. }
  destruct (Rle_dec 0 (a / n)) as [_|Hneg]; [|contradiction].
  split; [|eexists; reflexivity].
  pose proof (Zfloor_bound (a / n)) as Hb.
  assert (Ea : a = n * (a / n)) by (field; lra).
  set (q := a / n) in *. set (f := IZR (Zfloor q)) in *.
  nra.
Qed.

Lemma rem_in_range (a n : R) : 0 <= a < n -> JS.rem a n = a.
Proof.
  intros Ha. unfold JS.rem, JS.trunc.
  assert (Hn : 0 < n) by lra.
  assert (Hq : 0 <= a / n < 1).
  { split.
    - apply Rmult_le_pos; [lra|]. left. apply Rinv_0_lt_compat. exact Hn.
    - apply Rmult_lt_reg_r with n; [exact Hn|].
      replace (a / n * n) with a by (field; lra). lra. }
  destruct (Rle_dec 0 (a / n)) as [_|Hneg]; [|lra].
  rewrite (Zfloor_eq 0); lra.
Qed.

Lemma rem_one_turn (a n : R) : n <= a < 2 * n -> 0 < n -> JS.rem a n = a - n.
Proof.
  intros Ha Hn. unfold JS.rem, JS.trunc.
  assert (Hq : 1 <= a / n < 2).
  { split.
    - apply Rmult_le_reg_r with n; [exact Hn|].
      replace (a / n * n) with a by (field; lra). lra.
    - apply Rmult_lt_reg_r with n; [exact Hn|].
      replace (a / n * n) with a by (field; lra). lra. }
  destruct (Rle_dec 0 (a / n)) as [_|Hneg]; [|lra].
  rewrite (Zfloor_eq 1); lra.
Qed.

Lemma validateDecision_turn (decision : LLMDecision) (a : R) :
  action decision = "turn" ->
  opt_param p_angle (parameters decision) = Some a ->
  action (validateDecision decision) = "turn" /\
  opt_param p_angle (parameters (validateDecision decision))
  = Some (snap30 (Rmax (-180) (Rmin 180 a))).
Proof.
  intros Hact Hang. unfold validateDecision. rewrite Hact. simpl.
  split; [reflexivity|].
  destruct (parameters decision) as [p|]; simpl in *; [|discriminate Hang].
  rewrite Hang. reflexivity.
Qed.

Lemma executeDecision_turn oracle now idn cur avatarId decision prev av :
  action decision = "turn" ->
  avatar_of prev avatarId = Some av ->
  exists av',
    avatar_of (executeDecision oracle now idn cur avatarId decision prev)
      avatarId = Some av' /\
    orientation av'
    = JS.rem (orientation av
              + snap30 (nullish (opt_param p_angle (parameters decision)) 0)
              + 360) 360.
Proof.
  intros Hact Hav.
  destruct (avatar_of_applyDecision now idn avatarId
              (prepareDecision oracle cur avatarId decision) prev av Hav)
    as [a0 [_ H]].
  eexists. split; [exact H|]. simpl.
  unfold resolvedLocals, resolve_switch, initialLocals, prepareDecision.
  rewrite Hact. simpl. reflexivity.
Qed.

(** C4, as stated, fails in its example: a validated turn by 47 degrees
    turns the first default avatar from 0 to 60 degrees, not to 30. *)
Lemma turn_by_47_is_a_turn_by_60 :
  exists av av',
    avatar_of initial_world (generateId "avatar" 0) = Some av /\
    avatar_of (executeDecision humming_oracle 1 5 initial_world
                 (generateId "avatar" 0) (validateDecision turn47)
                 initial_world)
              (generateId "avatar" 0) = Some av' /\
    orientation av' = orientation av + 60 /\
    orientation av' <> orientation av + 30.
Proof.
  destruct (executeDecision_turn humming_oracle 1 5 initial_world
              (generateId "avatar" 0) (validateDecision turn47) initial_world
              _ eq_refl eq_refl) as [av' [Hav' Ho]].
  destruct (validateDecision_turn turn47 47 eq_refl eq_refl) as [_ Hang].
  rewrite Hang in Ho. simpl in Ho.
  replace (Rmax (-180) (Rmin 180 47)) with 47 in Ho by minmax.
  rewrite snap30_47 in Ho.
  replace 60 with (IZR 2 * 30) in Ho at 1 by lra.
  rewrite snap30_multiple in Ho.
  rewrite rem_one_turn in Ho by lra.
  eexists. exists av'. split; [reflexivity|]. split; [exact Hav'|].
  simpl. split; lra.
Qed.

(** C4, amended: for a turn decision the flow clamps the relative angle to
    [-180, 180] and snaps it to the nearest multiple of 30 (the quotient by
    30 rounded half-up); the resolver adds the snapped angle to the avatar's
    orientation modulo 360, so an orientation in [0, 360) stays there; a turn
    by 47 degrees changes the orientation by 60 degrees. *)
Theorem turn_clamps_snaps_and_wraps
  oracle now idn cur avatarId decision prev av a :
  action decision = "turn" ->
  opt_param p_angle (parameters decision) = Some a ->
  avatar_of prev avatarId = Some av ->
  0 <= orientation av < 360 ->
  exists av',
    avatar_of (executeDecision oracle now idn cur avatarId
                 (validateDecision decision) prev) avatarId = Some av' /\
    -180 <= Rmax (-180) (Rmin 180 a) <= 180 /\
    snap30 (Rmax (-180) (Rmin 180 a))
    = IZR (Zfloor (Rmax (-180) (Rmin 180 a) / 30 + / 2)) * 30 /\
    Rmax (-180) (Rmin 180 a) - 15 < snap30 (Rmax (-180) (Rmin 180 a))
      <= Rmax (-180) (Rmin 180 a) + 15 /\
    orientation av'
    = JS.rem (orientation av + snap30 (Rmax (-180) (Rmin 180 a)) + 360) 360 /\
    0 <= orientation av' < 360 /\
    (exists k : Z,
       orientation av'
       = orientation av + snap30 (Rmax (-180) (Rmin 180 a)) + 360 * IZR k) /\
    (a = 47 -> snap30 (Rmax (-180) (Rmin 180 a)) = 60).
Proof.
  intros Hact Hang Hav Ho.
  destruct (validateDecision_turn decision a Hact Hang) as [Hact' Hang'].
  destruct (executeDecision_turn oracle now idn cur avatarId
              (validateDecision decision) prev av Hact' Hav)
    as [av' [Hav' Ho']].
  rewrite Hang' in Ho'. simpl in Ho'.
  set (clamped := Rmax (-180) (Rmin 180 a)) in *.
  assert (Hc : -180 <= clamped <= 180) by (unfold clamped; minmax).
  destruct (snap30_spec clamped) as [m [Hm Hnear]].
  assert (Hs : -180 <= snap30 clamped <= 180) by (apply snap30_clamped; exact Hc).
  assert (Hidem : snap30 (snap30 clamped) = snap30 clamped)
    by (rewrite Hm; apply snap30_multiple).
  rewrite Hidem in Ho'.
  destruct (rem_nonneg (orientation av + snap30 clamped + 360) 360)
    as [Hrange [k Hk]]; [lra | lra |].
  exists av'. split; [exact Hav'|]. split; [exact Hc|].
  split; [reflexivity|]. split; [exact Hnear|]. split; [exact Ho'|].
  split; [rewrite Ho'; exact Hrange|]. split.
  - exists (1 - k)%Z. rewrite Ho', Hk, minus_IZR. lra.
  - intros E. unfold clamped. rewrite E.
    replace (Rmax (-180) (Rmin 180 47)) with 47 by minmax.
    apply snap30_47.
Qed.

(** The second default avatar, facing 180 degrees, turns by 47. *)
Lemma turn_clamps_snaps_and_wraps_witness :
  exists av',
    avatar_of (executeDecision humming_oracle 1 5 initial_world
                 (generateId "avatar" 1) (validateDecision turn47)
                 initial_world)
      (generateId "avatar" 1) = Some av' /\
    0 <= orientation av' < 360.
Proof.
  assert (Ho : 0 <= 180 < 360) by lra.
  destruct (turn_clamps_snaps_and_wraps humming_oracle 1 5 initial_world
              (generateId "avatar" 1) turn47 initial_world _ 47
              eq_refl eq_refl eq_refl Ho)
    as [av' [Hav' [_ [_ [_ [_ [Hr _]]]]]]].
  exists av'. split; [exact Hav' | exact Hr].
Defined.

(** ** Moving *)

Lemma isPointInBounds_true (p : Vector2) (bs : BoardSize) :
  isPointInBounds p bs = true <->
  0 <= x p <= width bs /\ 0 <= y p <= height bs.
Proof.
  unfold isPointInBounds, JS.ge.
  rewrite !andb_true_iff, !le_true. tauto.
Qed.

Lemma obstacle_collision_true (p : Vector2) (obs : list Obstacle) :
  obstacle_collision p obs = true <->
  exists ob, In ob obs /\ distance p (closestPoint p ob) < 8.
Proof.
  induction obs as [|ob rest IH]; simpl.
  - split; [discriminate | intros [ob [[] _]]].
  - destruct (JS.lt (distance p (closestPoint p ob)) 8) eqn:E.
    + apply lt_true in E. split; [|reflexivity].
      intros _. exists ob. auto.
    + apply lt_false in E. rewrite IH. split.
      * intros [ob' [Hin Hd]]. exists ob'. auto.
      * intros [ob' [[Eo | Hin] Hd]]; [subst ob'; lra | exists ob'; auto].
Qed.

Lemma avatar_collision_true (avatarId : string) (p : Vector2)
  (others : list AvatarState) :
  avatar_collision avatarId p others = true <->
  exists other, In other others /\ id other <> avatarId /\
                distance p (position other) < 16.
Proof.
  induction others as [|o rest IH]; simpl.
  - split; [discriminate | intros [o [[] _]]].
  - destruct (String.eqb (id o) avatarId) eqn:Eid.
    + apply String.eqb_eq in Eid. rewrite IH. split.
      * intros [o' [Hin H]]. exists o'. auto.
      * intros [o' [[Eo | Hin] [Hne Hd]]];
          [subst o'; contradiction | exists o'; auto].
    + apply String.eqb_neq in Eid.
      destruct (JS.lt (distance p (position o)) (8 + 8)) eqn:E.
      * apply lt_true in E. split; [|reflexivity].
        intros _. exists o. repeat split; auto. lra.
      * apply lt_false in E. rewrite IH. split.
        -- intros [o' [Hin H]]. exists o'. auto.
        -- intros [o' [[Eo | Hin] [Hne Hd]]];
             [subst o'; lra | exists o'; auto].
Qed.

(** The code's [distance] is the Euclidean distance. *)
Lemma distance_euclidean (p q : Vector2) : distance p q = euclidean p q.
Proof.
  unfold distance, euclidean, Rsqr. cbv zeta. f_equal. ring.
Qed.

Lemma distance_le (p q q' : Vector2) :
  (x p - x q) * (x p - x q) <= (x p - x q') * (x p - x q') ->
  (y p - y q) * (y p - y q) <= (y p - y q') * (y p - y q') ->
  distance p q <= distance p q'.
Proof.
  intros Hx Hy. unfold distance. cbv zeta. apply sqrt_le_1_alt. lra.
Qed.

(** Clamping a coordinate into an interval gives the point of the interval
    nearest to it. *)
Lemma clamp_nearest (lo w p t : R) :
  lo <= t <= lo + w ->
  (p - Rmax lo (Rmin p (lo + w))) * (p - Rmax lo (Rmin p (lo + w)))
  <= (p - t) * (p - t).
Proof.
  intros H. unfold Rmin, Rmax.
  destruct (Rle_dec p (lo + w)) as [H1 | H1].
  - destruct (Rle_dec lo p) as [H2 | H2].
    + pose proof (Rle_0_sqr (p - t)) as Hsq. unfold Rsqr in Hsq. lra.
    + assert (0 <= (t - lo) * (lo + t - 2 * p))
        by (apply Rmult_le_pos; lra).
      lra.
  - destruct (Rle_dec lo (lo + w)) as [H2 | H2]; [|lra].
    assert (0 <= (lo + w - t) * (2 * p - (lo + w) - t))
      by (apply Rmult_le_pos; lra).
    lra.
Qed.


Lemma closestPoint_nearest (p q' : Vector2) (ob : Obstacle) :
  in_rectangle ob q' ->
  distance p (closestPoint p ob) <= distance p q'.
Proof.
  intros [Hx Hy]. apply distance_le; unfold closestPoint; simpl.
  - apply clamp_nearest. exact Hx.
  - apply clamp_nearest. exact Hy.
Qed.







Lemma clampDistance_range (d : R) : -15 <= clampDistance d <= 15.
Proof. unfold clampDistance. minmax. Qed.










(** ** Perception *)

Lemma wrap_down_spec (a : R) :
  wrap_down a <= PI /\
  (- PI < a -> - PI < wrap_down a) /\
  (a <= PI -> wrap_down a = a) /\
  exists k : Z, wrap_down a = a + 2 * PI * IZR k.
Proof.
  funelim (wrap_down a).
  - destruct H as [H1 [H2 [H3 [k Hk]]]].
    split; [exact H1|]. split; [intros _; apply H2; lra|].
    split; [intros Hle; lra|].
    exists (k - 1)%Z. rewrite Hk, minus_IZR. lra.
  - split; [lra|]. split; [auto|]. split; [auto|].
    exists 0%Z. lra.
Qed.

Lemma wrap_up_spec (a : R) :
  - PI < wrap_up a /\
  (a <= PI -> wrap_up a <= PI) /\
  (- PI < a -> wrap_up a = a) /\
  exists k : Z, wrap_up a = a + 2 * PI * IZR k.
Proof.
  funelim (wrap_up a).
  - destruct H as [H1 [H2 [H3 [k Hk]]]].
    split; [exact H1|]. split; [intros _; apply H2; lra|].
    split; [intros Hlt; lra|].
    exists (k + 1)%Z. rewrite Hk, plus_IZR. lra.
  - split; [lra|]. split; [auto|]. split; [auto|].
    exists 0%Z. lra.
Qed.

(** The two loops end, and leave the angle in (-PI, PI], a whole number of
    turns away from where it started. *)
Lemma normalize_angle_spec (a : R) :
  - PI < normalize_angle a <= PI /\
  exists k : Z, normalize_angle a = a + 2 * PI * IZR k.
Proof.
  unfold normalize_angle.
  destruct (wrap_down_spec a) as [Hd1 [_ [_ [k1 Hk1]]]].
  destruct (wrap_up_spec (wrap_down a)) as [Hu1 [Hu2 [_ [k2 Hk2]]]].
  split; [split; [exact Hu1 | apply Hu2; exact Hd1]|].
  exists (k1 + k2)%Z. rewrite Hk2, Hk1, plus_IZR. lra.
Qed.

Lemma angular_difference_unique (d1 d2 a : R) (k1 k2 : Z) :
  -180 < d1 <= 180 -> -180 < d2 <= 180 ->
  d1 = a + 360 * IZR k1 -> d2 = a + 360 * IZR k2 -> d1 = d2.
Proof.
  intros H1 H2 E1 E2.
  assert (Hk : (k1 - k2 = 0)%Z).
  { assert (Hlt : (-1 < k1 - k2 < 1)%Z); [|lia].
    split; apply lt_IZR; rewrite minus_IZR; lra. }
  assert (Ek : k1 = k2) by lia. subst k2. lra.
Qed.

Lemma occlusion_loop_None avatar dist relativeAngle obs :
  occlusion_loop avatar dist relativeAngle obs = None.
Proof.
  induction obs as [|ob rest IH]; simpl; [reflexivity|].
  break_match; exact IH.
Qed.

Lemma distance_sym_sqrt (p q : Vector2) :
  sqrt ((x q - x p) * (x q - x p) + (y q - y p) * (y q - y p)) = distance p q.
Proof. unfold distance. cbv zeta. f_equal. ring. Qed.

Lemma distance_nonneg (p q : Vector2) : 0 <= distance p q.
Proof. unfold distance. cbv zeta. apply sqrt_pos. Qed.

(** [isVisible] without its obstacle loop. *)
Lemma isVisible_unfold avatar obstacles_ targetPos :
  isVisible avatar obstacles_ targetPos
  = (negb (JS.gt (distance (position avatar) targetPos)
                 (radius (eyesight (settings avatar)))
           || JS.eq (distance (position avatar) targetPos) 0)
     && JS.le (Rabs (normalize_angle
                       (JS.atan2 (y targetPos - y (position avatar))
                                 (x targetPos - x (position avatar))
                        - orientationRad avatar)))
              (halfAngleRad avatar),
     distance (position avatar) targetPos).
Proof.
  unfold isVisible. cbv zeta. rewrite distance_sym_sqrt.
  rewrite occlusion_loop_None.
  destruct (JS.gt _ _ || JS.eq _ _); simpl; [reflexivity|].
  destruct (JS.le _ _); reflexivity.
Qed.

(** The code's cone test, in radians, is the specification's, in degrees. *)
Lemma cone_test avatar targetPos :
  JS.le (Rabs (normalize_angle
                 (JS.atan2 (y targetPos - y (position avatar))
                           (x targetPos - x (position avatar))
                  - orientationRad avatar)))
        (halfAngleRad avatar) = true
  <-> within_cone avatar targetPos.
Proof.
  assert (HPI := PI_RGT_0).
  set (b := JS.atan2 (y targetPos - y (position avatar))
                     (x targetPos - x (position avatar))).
  destruct (normalize_angle_spec (b - orientationRad avatar))
    as [[Hlo Hhi] [k Hk]].
  set (rel := normalize_angle (b - orientationRad avatar)) in *.
  assert (Hdeg : is_angular_difference avatar targetPos (rel * (180 / PI))).
  { unfold is_angular_difference, bearing_deg. fold b. split.
    - split.
      + apply Rmult_lt_reg_r with (PI / 180); [lra|].
        replace (rel * (180 / PI) * (PI / 180)) with rel by (field; lra).
        lra.
      + apply Rmult_le_reg_r with (PI / 180); [lra|].
        replace (rel * (180 / PI) * (PI / 180)) with rel by (field; lra).
        lra.
    - exists k. rewrite Hk. unfold orientationRad. field. lra. }
  assert (Habs : Rabs (rel * (180 / PI)) = Rabs rel * (180 / PI)).
  { rewrite Rabs_mult. f_equal. apply Rabs_right.
    apply Rle_ge. apply Rmult_le_pos; [lra|].
    left. apply Rinv_0_lt_compat. exact HPI. }
  assert (Hscale : Rabs rel <= halfAngleRad avatar <->
                   Rabs rel * (180 / PI)
                   <= angle (eyesight (settings avatar)) / 2).
  { unfold halfAngleRad.
    assert (Hpos : 0 < 180 / PI).
    { apply Rmult_lt_0_compat; [lra|]. apply Rinv_0_lt_compat. exact HPI. }
    split; intros H.
    - replace (angle (eyesight (settings avatar)) / 2)
        with (angle (eyesight (settings avatar)) / 2 * (PI / 180) * (180 / PI))
        by (field; lra).
      apply Rmult_le_compat_r; [lra | exact H].
    - apply Rmult_le_reg_r with (180 / PI); [exact Hpos|].
      replace (angle (eyesight (settings avatar)) / 2 * (PI / 180) * (180 / PI))
        with (angle (eyesight (settings avatar)) / 2) by (field; lra).
      exact H. }
  rewrite le_true, Hscale. unfold within_cone. split.
  - intros H. exists (rel * (180 / PI)). split; [exact Hdeg|].
    rewrite Habs. exact H.
  - intros [delta [[Hr [k' Hk']] Hle]].
    destruct Hdeg as [Hr0 [k0 Hk0]].
    assert (E : delta = rel * (180 / PI))
      by (eapply angular_difference_unique; eauto).
    rewrite <- Habs, <- E. exact Hle.
Qed.

(** C5, as stated, fails: a target at the observer's own position is within
    the radius (distance 0) and dead ahead (difference 0), yet the test
    reports it not visible. *)
Lemma coincident_target_is_not_visible :
  spec_visible first_avatar (mkVector2 50 50) /\
  fst (isVisible first_avatar (obstacles initial_world) (mkVector2 50 50))
  = false.
Proof.
  assert (Hd : distance (position first_avatar) (mkVector2 50 50) = 0).
  { unfold distance. simpl.
    replace ((50 - 50) * (50 - 50) + (50 - 50) * (50 - 50)) with 0 by ring.
    apply sqrt_0. }
  split.
  - split; [rewrite Hd; simpl; lra|].
    exists 0. split.
    + split; [lra|]. exists 0%Z.
      unfold bearing_deg. simpl.
      replace (50 - 50) with 0 by ring.
      unfold JS.atan2.
      repeat match goal with
             | |- context [Rlt_dec ?a ?b] => destruct (Rlt_dec a b); try lra
             end.
    + rewrite Rabs_R0. simpl. lra.
  - rewrite isVisible_unfold. cbn [fst]. rewrite Hd.
    assert (E : JS.eq 0 0 = true) by (apply eq_true; reflexivity).
    rewrite E, orb_true_r. reflexivity.
Qed.

(** C5, amended: the visibility test reports the distance from the observer
    to the target, and reports the target visible if and only if that
    distance is positive and at most the eyesight radius and the signed
    angular difference between the bearing to the target and the observer's
    orientation, normalised to (-180, 180] degrees, is at most half the cone
    angle in absolute value. *)
Theorem visibility_test avatar obstacles_ targetPos :
  snd (isVisible avatar obstacles_ targetPos)
  = distance (position avatar) targetPos /\
  (fst (isVisible avatar obstacles_ targetPos) = true <->
   0 < distance (position avatar) targetPos /\ spec_visible avatar targetPos).
Proof.
  rewrite isVisible_unfold. cbn [fst snd]. split; [reflexivity|].
  pose proof (distance_nonneg (position avatar) targetPos) as Hnn.
  unfold spec_visible. rewrite <- cone_test.
  rewrite andb_true_iff, negb_true_iff, orb_false_iff.
  unfold JS.gt. rewrite lt_false, eq_false. intuition lra.
Qed.

(** C10: the visible avatars and the visible objects of a perception
    snapshot, with their distances, are the same whatever the obstacle list:
    the occlusion loop never ends the test. *)
Theorem perception_ignores_obstacles
  avatar allAvatars objects_ obstacles1 obstacles2 bs :
  visibleAvatars (getSensoryInput avatar allAvatars objects_ obstacles1 bs)
  = visibleAvatars (getSensoryInput avatar allAvatars objects_ obstacles2 bs)
  /\
  visibleObjects (getSensoryInput avatar allAvatars objects_ obstacles1 bs)
  = visibleObjects (getSensoryInput avatar allAvatars objects_ obstacles2 bs)
  /\
  (forall targetPos,
     isVisible avatar obstacles1 targetPos
     = isVisible avatar obstacles2 targetPos) /\
  (forall dist relativeAngle,
     occlusion_loop avatar dist relativeAngle obstacles1 = None).
Proof.
  assert (Hvis : forall t, isVisible avatar obstacles1 t
                           = isVisible avatar obstacles2 t).
  { intros t. rewrite !isVisible_unfold. reflexivity. }
  unfold getSensoryInput. cbn [visibleAvatars visibleObjects].
  split; [|split; [|split]].
  - apply flat_map_ext. intros other. rewrite Hvis. reflexivity.
  - apply flat_map_ext. intros obj. rewrite Hvis. reflexivity.
  - exact Hvis.
  - intros dist relativeAngle. apply occlusion_loop_None.
Qed.

(** ** Conversations *)

Lemma points_atb_true (s : AppState) (a b : string) :
  points_atb s a b = true <-> points_at s a b.
Proof.
  unfold points_atb, points_at. destruct (avatar_of s a) as [av|].
  - unfold JS.seq. destruct (conversationTarget av) as [t|] eqn:Et.
    + rewrite String.eqb_eq. split.
      * intros E. exists av. split; [reflexivity | congruence].
      * intros [av' [E1 E2]]. congruence.
    + split; [discriminate|]. intros [av' [E1 E2]]. congruence.
  - split; [discriminate|]. intros [av' [E1 E2]]. discriminate E1.
Qed.

Lemma conversation_invariantb_true (s : AppState) :
  conversation_invariantb s = true <-> conversation_invariant s.
Proof.
  unfold conversation_invariantb, conversation_invariant.
  rewrite andb_true_iff, !forallb_forall. split.
  - intros [H1 H2]. split.
    + intros c Hin Hne. specialize (H1 c Hin). rewrite Hne in H1.
      simpl in H1. apply andb_true_iff in H1.
      rewrite !points_atb_true in H1. exact H1.
    + intros av t Hin Ht. specialize (H2 av Hin). rewrite Ht in H2.
      apply Nat.eqb_eq. exact H2.
  - intros [H1 H2]. split.
    + intros c Hin. destruct (not_ended c) eqn:Hne; [|reflexivity].
      simpl. rewrite andb_true_iff, !points_atb_true. auto.
    + intros av Hin. destruct (conversationTarget av) as [t|] eqn:Ht;
        [|reflexivity].
      apply Nat.eqb_eq. auto.
Qed.

Lemma reachable_stranded_world : reachable (mkWorld 6 stranded_world).
Proof.
  apply reachable_step with (w := mkWorld 6 greeted_world).
  - apply reachable_step with (w := mkWorld 5 initial_world).
    + apply (reachable_initial 0 0).
    + exact (step_executeDecision humming_oracle 1 initial_world
               (generateId "avatar" 0) (validateDecision greet)
               5 initial_world).
  - exact (step_executeDecision humming_oracle 2 greeted_world
             (generateId "avatar" 0) (validateDecision reply_to_stranger)
             6 greeted_world).
Qed.

(** C1 fails on the code.  In the default world the first avatar greets the
    second: the invariant holds.  Its next decision is a
    [continue_conversation] that names an avatar other than its partner;
    the resolver clears the first avatar's [conversationTarget] only, so the
    conversation stays open with the second avatar pointing at a partner
    that no longer points back. *)
Theorem continue_conversation_breaks_the_invariant :
  conversation_invariant initial_world /\
  conversation_invariant greeted_world /\
  ~ conversation_invariant stranded_world /\
  map not_ended (conversations stranded_world) = [true] /\
  map participants (conversations stranded_world)
  = [(generateId "avatar" 0, generateId "avatar" 1)] /\
  map conversationTarget (avatars stranded_world)
  = [None; Some (generateId "avatar" 0)].
Proof.
  split; [apply conversation_invariantb_true; vm_compute; reflexivity|].
  split; [apply conversation_invariantb_true; vm_compute; reflexivity|].
  split.
  - intros H. apply conversation_invariantb_true in H.
    vm_compute in H. discriminate H.
  - repeat split; vm_compute; reflexivity.
Qed.

(** *** The ledger and its invariant *)

Lemma lookup_In (T : list Target) (a : string) (t : option string) :
  NoDup (map fst T) -> In (a, t) T -> lookup T a = Some t.
Proof.
  unfold lookup. induction T as [|[b u] T IH]; simpl; intros Hnd Hin;
    [contradiction|].
  inversion Hnd as [|? ? Hnotin Hnd']; subst.
  unfold key_is at 1; simpl. destruct (String.eqb_spec b a) as [E|E].
  - subst b. destruct Hin as [Hin | Hin].
    + injection Hin as Hin. subst u. reflexivity.
    + exfalso. apply Hnotin. apply (in_map fst) in Hin. exact Hin.
  - destruct Hin as [Hin | Hin]; [congruence | auto].
Qed.

Lemma In_lookup (T : list Target) (a : string) (t : option string) :
  lookup T a = Some t -> In (a, t) T.
Proof.
  unfold lookup. destruct (find (key_is a) T) as [[b u]|] eqn:E;
    simpl; intros H; [|discriminate H].
  apply find_some in E. destruct E as [Hin Hk].
  unfold key_is in Hk; simpl in Hk. apply String.eqb_eq in Hk.
  injection H as H. subst. exact Hin.
Qed.

Lemma lookup_key (T : list Target) (a : string) (t : option string) :
  lookup T a = Some t -> In a (map fst T).
Proof.
  intros H. apply In_lookup in H. apply (in_map fst) in H. exact H.
Qed.

Lemma lookup_map (f : Target -> Target) (T : list Target) (a : string) :
  (forall e, fst (f e) = fst e) ->
  lookup (map f T) a
  = match find (key_is a) T with
    | Some e => Some (snd (f e))
    | None => None
    end.
Proof.
  intros Hf. unfold lookup. induction T as [|e T IH]; simpl; [reflexivity|].
  unfold key_is at 1 3. rewrite Hf.
  destruct (String.eqb (fst e) a); [reflexivity | exact IH].
Qed.

Lemma find_key (T : list Target) (a : string) (e : Target) :
  find (key_is a) T = Some e -> fst e = a /\ lookup T a = Some (snd e).
Proof.
  intros H. unfold lookup. rewrite H. split; [|reflexivity].
  apply find_some in H. apply String.eqb_eq. tauto.
Qed.

Lemma involves_cases (a : string) (e : Talk) :
  involves a e = true <-> fst (fst e) = a \/ snd (fst e) = a.
Proof.
  unfold involves. rewrite orb_true_iff, !String.eqb_eq. tauto.
Qed.

Lemma talking_sym (a b : string) (e : Talk) : talking a b e = talking b a e.
Proof.
  unfold talking. rewrite (andb_comm (involves a e)). reflexivity.
Qed.

Section LedgerFacts.

Variable T : list Target.
Variable C : list Talk.
Hypothesis Hwf : ledger_wf T.
Hypothesis Hinv : ledger_invariant T C.

(** An open conversation that involves [a] is the one [a] is in. *)
Lemma involves_talking (a t : string) (e : Talk) :
  In e C -> snd e = true -> involves a e = true ->
  lookup T a = Some (Some t) -> talking a t e = true.
Proof.
  intros Hin Hopen Ha Hl.
  destruct Hinv as [I1 _]. destruct (I1 e Hin Hopen) as [Hp Hq].
  unfold talking. rewrite Ha, Hopen. simpl. rewrite andb_true_r.
  apply involves_cases. apply involves_cases in Ha.
  destruct Ha as [E | E]; rewrite E in *.
  - right. congruence.
  - left. congruence.
Qed.

(** An avatar without a truthy target is in no open conversation. *)
Lemma free_not_involved (a : string) (ta : option string) (e : Talk) :
  lookup T a = Some ta -> JS.truthy ta = None ->
  In e C -> snd e = true -> involves a e = false.
Proof.
  intros Hl Hfree Hin Hopen.
  destruct (involves a e) eqn:Ha; [exfalso | reflexivity].
  destruct Hinv as [I1 _]. destruct (I1 e Hin Hopen) as [Hp Hq].
  destruct Hwf as [_ Hne].
  apply involves_cases in Ha.
  destruct Ha as [E | E]; rewrite E in *.
  - rewrite Hl in Hp. injection Hp as Hp. subst ta.
    simpl in Hfree. destruct (String.eqb_spec (snd (fst e)) EmptyString)
      as [E0|E0]; [|discriminate Hfree].
    rewrite E0 in Hq. apply lookup_key in Hq. contradiction.
  - rewrite Hl in Hq. injection Hq as Hq. subst ta.
    simpl in Hfree. destruct (String.eqb_spec (fst (fst e)) EmptyString)
      as [E0|E0]; [|discriminate Hfree].
    rewrite E0 in Hp. apply lookup_key in Hp. contradiction.
Qed.

End LedgerFacts.

Lemma lookup_map_snd (f : Target -> Target) (T : list Target) (a : string)
  (g : string -> option string -> option string) :
  (forall e, f e = (fst e, g (fst e) (snd e))) ->
  lookup (map f T) a
  = match lookup T a with
    | Some t => Some (g a t)
    | None => None
    end.
Proof.
  intros Hf. rewrite lookup_map by (intros e; rewrite Hf; reflexivity).
  unfold lookup. destruct (find (key_is a) T) as [e|] eqn:E; [|reflexivity].
  simpl. apply find_key in E. destruct E as [E _].
  rewrite Hf, E. reflexivity.
Qed.

Lemma pair_up_shape (a b : string) (e : Target) :
  pair_up a b e
  = (fst e,
     if String.eqb (fst e) a then Some b
     else if String.eqb (fst e) b then Some a else snd e).
Proof.
  unfold pair_up. destruct e as [k t]; simpl.
  destruct (String.eqb k a); [reflexivity|].
  destruct (String.eqb k b); reflexivity.
Qed.

Lemma release_shape (a b : string) (e : Target) :
  release a b e
  = (fst e,
     if String.eqb (fst e) a || String.eqb (fst e) b then None else snd e).
Proof.
  unfold release. destruct e as [k t]; simpl.
  destruct (String.eqb k a || String.eqb k b); reflexivity.
Qed.

Lemma release_partners_shape (P : list string) (e : Target) :
  release_partners P e
  = (fst e, if existsb (String.eqb (fst e)) P then None else snd e).
Proof.
  unfold release_partners. destruct e as [k t]; simpl.
  destruct (existsb (String.eqb k) P); reflexivity.
Qed.

Lemma filter_nil {A : Type} (p : A -> bool) (l : list A) :
  (forall e, In e l -> p e = false) -> filter p l = [].
Proof.
  induction l as [|e l IH]; simpl; intros H; [reflexivity|].
  rewrite H by (left; reflexivity). apply IH. intros e' He'. apply H.
  right. exact He'.
Qed.

Lemma filter_nil_inv {A : Type} (p : A -> bool) (l : list A) (e : A) :
  filter p l = [] -> In e l -> p e = false.
Proof.
  intros Hf Hin. destruct (p e) eqn:E; [|reflexivity].
  assert (Hin' : In e (filter p l)) by (apply filter_In; auto).
  rewrite Hf in Hin'. contradiction.
Qed.

Lemma filter_map_same_length {A : Type} (p : A -> bool) (f : A -> A)
  (l : list A) :
  (forall e, In e l -> p (f e) = p e) ->
  List.length (filter p (map f l)) = List.length (filter p l).
Proof.
  induction l as [|e l IH]; simpl; intros H; [reflexivity|].
  rewrite H by (left; reflexivity).
  destruct (p e); simpl; rewrite IH; auto.
Qed.

(** Where [findIndex] finds its element, and what [update_at] does there. *)
Lemma findIndex_split {A : Type} (p : A -> bool) (f : A -> A) (l : list A)
  (i : nat) :
  JS.findIndex p l = Some i ->
  exists l1 e l2,
    l = l1 ++ e :: l2 /\ p e = true /\
    (forall e', In e' l1 -> p e' = false) /\
    update_at i f l = l1 ++ f e :: l2.
Proof.
  revert i. induction l as [|a l IH]; simpl; intros i H; [discriminate H|].
  destruct (p a) eqn:Ea.
  - injection H as H. subst i. exists [], a, l. simpl.
    split; [reflexivity|]. split; [exact Ea|]. split; [|reflexivity].
    intros e' [].
  - destruct (JS.findIndex p l) as [j|]; [|discriminate H].
    injection H as H. subst i.
    destruct (IH j eq_refl) as [l1 [e [l2 [El [He [Hl1 Hu]]]]]].
    exists (a :: l1), e, l2. simpl. rewrite Hu, El.
    repeat split; auto.
    intros e' [E | Hin]; [subst e'; exact Ea | auto].
Qed.

Lemma findIndex_Some {A : Type} (p : A -> bool) (l : list A) :
  filter p l <> [] -> exists i, JS.findIndex p l = Some i.
Proof.
  induction l as [|a l IH]; simpl; intros H; [contradiction|].
  destruct (p a); [eexists; reflexivity|].
  destruct (IH H) as [i Hi]. rewrite Hi. eexists. reflexivity.
Qed.

Section LedgerSteps.

Variable T : list Target.
Variable C : list Talk.
Hypothesis Hwf : ledger_wf T.
Hypothesis Hinv : ledger_invariant T C.

(** Starting a conversation between two free avatars. *)
Lemma ledger_pair_up (a b : string) (ta tb : option string) :
  a <> b ->
  lookup T a = Some ta -> JS.truthy ta = None ->
  lookup T b = Some tb -> JS.truthy tb = None ->
  ledger_invariant (map (pair_up a b) T) (C ++ [((a, b), true)]).
Proof.
  intros Hab Ha Hfa Hb Hfb.
  assert (Hl : forall p,
             lookup (map (pair_up a b) T) p
             = match lookup T p with
               | Some t => Some (if String.eqb p a then Some b
                                 else if String.eqb p b then Some a else t)
               | None => None
               end).
  { intros p.
    apply (lookup_map_snd (pair_up a b) T p
             (fun k t => if String.eqb k a then Some b
                         else if String.eqb k b then Some a else t)).
    apply pair_up_shape. }
  assert (Hfree : forall e, In e C -> snd e = true ->
                            involves a e = false /\ involves b e = false).
  { intros e Hin Hopen. split.
    - exact (free_not_involved T C Hwf Hinv a ta e Ha Hfa Hin Hopen).
    - exact (free_not_involved T C Hwf Hinv b tb e Hb Hfb Hin Hopen). }
  destruct Hinv as [I1 I2]. split.
  - intros e Hin Hopen. apply in_app_or in Hin.
    destruct Hin as [Hin | [E | []]].
    + destruct (Hfree e Hin Hopen) as [Hna Hnb].
      unfold involves in Hna, Hnb.
      apply orb_false_iff in Hna. apply orb_false_iff in Hnb.
      destruct Hna as [Hna1 Hna2]. destruct Hnb as [Hnb1 Hnb2].
      destruct (I1 e Hin Hopen) as [Hp Hq].
      rewrite !Hl, Hp, Hq, Hna1, Hna2, Hnb1, Hnb2. auto.
    + subst e. simpl. rewrite !Hl, Ha, Hb, String.eqb_refl.
      destruct (String.eqb_spec b a) as [E|_]; [congruence|].
      rewrite String.eqb_refl. auto.
  - intros p t Hin. rewrite filter_app, length_app.
    apply in_map_iff in Hin. destruct Hin as [e0 [E0 Hin0]].
    rewrite pair_up_shape in E0.
    assert (Hnone : forall k u,
               (exists v, lookup T k = Some v /\ JS.truthy v = None) ->
               filter (talking k u) C = []).
    { intros k u [v [Hk Hv]]. apply filter_nil. intros e Hin.
      unfold talking. destruct (snd e) eqn:Hopen; [|apply andb_false_r].
      rewrite (free_not_involved T C Hwf (conj I1 I2) k v e Hk Hv Hin Hopen).
      reflexivity. }
    destruct (String.eqb_spec (fst e0) a) as [Ea|Ea].
    + injection E0 as Ep Et. subst p t. rewrite Ea.
      rewrite (Hnone a b) by eauto. simpl.
      unfold talking, involves; simpl.
      rewrite !String.eqb_refl, orb_true_r. reflexivity.
    + destruct (String.eqb_spec (fst e0) b) as [Eb|Eb].
      * injection E0 as Ep Et. subst p t. rewrite Eb.
        rewrite (Hnone b a) by eauto. simpl.
        unfold talking, involves; simpl.
        rewrite !String.eqb_refl, orb_true_r. reflexivity.
      * assert (Ee : e0 = (p, Some t))
          by (destruct e0; simpl in *; congruence).
        subst e0. simpl in Ea, Eb.
        rewrite (I2 p t Hin0). simpl.
        unfold talking, involves; simpl.
        apply String.eqb_neq in Ea. apply String.eqb_neq in Eb.
        rewrite (String.eqb_sym a p), (String.eqb_sym b p), Ea, Eb.
        reflexivity.
Qed.

(** The one open conversation between [a] and its partner [b] involves
    exactly these two, and [b] points back. *)
Lemma partner_points_back (a b : string) (e : Talk) :
  lookup T a = Some (Some b) -> In e C -> talking a b e = true ->
  lookup T b = Some (Some a) /\
  (forall p, involves p e = true -> p = a \/ p = b).
Proof.
  intros Ha Hin Ht. unfold talking in Ht.
  apply andb_true_iff in Ht. destruct Ht as [Ht Hopen].
  apply andb_true_iff in Ht. destruct Ht as [Hia Hib].
  destruct Hinv as [I1 _]. destruct (I1 e Hin Hopen) as [Hp Hq].
  apply involves_cases in Hia.
  destruct Hia as [E | E].
  - rewrite E in *. rewrite Ha in Hp. injection Hp as Hp.
    rewrite <- Hp in *. split; [exact Hq|].
    intros p Hip. apply involves_cases in Hip. rewrite E in Hip.
    destruct Hip; [left | right]; congruence.
  - rewrite E in *. rewrite Ha in Hq. injection Hq as Hq.
    rewrite <- Hq in *. split; [exact Hp|].
    intros p Hip. apply involves_cases in Hip. rewrite E in Hip.
    destruct Hip; [right | left]; congruence.
Qed.

(** Closing the conversation between [a] and its partner [b]. *)
Lemma ledger_release (a b : string) (i : nat) :
  lookup T a = Some (Some b) ->
  JS.findIndex (talking a b) C = Some i ->
  ledger_invariant (map (release a b) T) (update_at i close_talk C).
Proof.
  intros Ha Hi.
  destruct (findIndex_split (talking a b) close_talk C i Hi)
    as [C1 [e0 [C2 [EC [He0 [HC1 HU]]]]]].
  rewrite HU.
  assert (Hin0 : In e0 C) by (rewrite EC; apply in_elt).
  destruct (partner_points_back a b e0 Ha Hin0 He0) as [Hb Honly].
  assert (HC2 : forall e', In e' C2 -> talking a b e' = false).
  { destruct Hinv as [_ I2].
    pose proof (I2 a b (In_lookup T a (Some b) Ha)) as Hone.
    rewrite EC, filter_app in Hone. simpl in Hone. rewrite He0 in Hone.
    rewrite (filter_nil _ C1 HC1) in Hone. simpl in Hone.
    intros e' Hin'. apply (filter_nil_inv (talking a b) C2); [|exact Hin'].
    destruct (filter (talking a b) C2); [reflexivity | discriminate Hone]. }
  assert (Hrest : forall e', In e' (C1 ++ C2) -> snd e' = true ->
                             In e' C /\ involves a e' = false
                             /\ involves b e' = false).
  { intros e' Hin' Hopen.
    assert (Hin : In e' C).
    { rewrite EC. apply in_app_or in Hin'. apply in_or_app.
      destruct Hin'; [left | right; right]; assumption. }
    assert (Hnt : talking a b e' = false).
    { apply in_app_or in Hin'. destruct Hin'; auto. }
    split; [exact Hin|]. split.
    - destruct (involves a e') eqn:E; [|reflexivity].
      rewrite (involves_talking T C Hinv a b e' Hin Hopen E Ha) in Hnt.
      discriminate Hnt.
    - destruct (involves b e') eqn:E; [|reflexivity].
      rewrite talking_sym in Hnt.
      rewrite (involves_talking T C Hinv b a e' Hin Hopen E Hb) in Hnt.
      discriminate Hnt. }
  assert (Hl : forall p,
             lookup (map (release a b) T) p
             = match lookup T p with
               | Some t => Some (if String.eqb p a || String.eqb p b
                                 then None else t)
               | None => None
               end).
  { intros p.
    apply (lookup_map_snd (release a b) T p
             (fun k t => if String.eqb k a || String.eqb k b
                         then None else t)).
    apply release_shape. }
  destruct Hinv as [I1 I2]. split.
  - intros e Hin Hopen.
    assert (Hin' : In e (C1 ++ C2)).
    { apply in_app_or in Hin. apply in_or_app.
      destruct Hin as [Hin | [E | Hin]]; auto.
      subst e. discriminate Hopen. }
    destruct (Hrest e Hin' Hopen) as [HinC [Hna Hnb]].
    unfold involves in Hna, Hnb.
    apply orb_false_iff in Hna. apply orb_false_iff in Hnb.
    destruct Hna as [Hna1 Hna2]. destruct Hnb as [Hnb1 Hnb2].
    destruct (I1 e HinC Hopen) as [Hp Hq].
    rewrite !Hl, Hp, Hq, Hna1, Hna2, Hnb1, Hnb2. auto.
  - intros p t Hin.
    apply in_map_iff in Hin. destruct Hin as [e1 [E1 Hin1]].
    rewrite release_shape in E1.
    destruct (String.eqb (fst e1) a || String.eqb (fst e1) b) eqn:Ek;
      [discriminate E1|].
    assert (Ee : e1 = (p, Some t)) by (destruct e1; simpl in *; congruence).
    subst e1. simpl in Ek. apply orb_false_iff in Ek. destruct Ek as [Ea Eb].
    apply String.eqb_neq in Ea. apply String.eqb_neq in Eb.
    assert (Hnp : involves p e0 = false).
    { destruct (involves p e0) eqn:E; [|reflexivity].
      destruct (Honly p E); contradiction. }
    pose proof (I2 p t Hin1) as Hone.
    rewrite EC, filter_app in Hone. simpl in Hone.
    rewrite filter_app. simpl.
    unfold talking at 2 in Hone. rewrite Hnp in Hone. simpl in Hone.
    unfold talking at 2. unfold close_talk at 1 2 3. simpl.
    rewrite andb_false_r. exact Hone.
Qed.

Lemma In_partners_of (x p : string) :
  In p (partners_of x C) <->
  p <> x /\ exists e, In e C /\ snd e = true /\ involves x e = true
                      /\ involves p e = true.
Proof.
  unfold partners_of. rewrite in_flat_map. split.
  - intros [e [Hin Hp]]. apply filter_In in Hin. destruct Hin as [Hin Hx].
    apply andb_true_iff in Hx. destruct Hx as [Hx Hopen].
    apply filter_In in Hp. destruct Hp as [Hp Hne].
    apply negb_true_iff, String.eqb_neq in Hne.
    split; [exact Hne|]. exists e. repeat split; auto.
    apply involves_cases. simpl in Hp. intuition.
  - intros [Hne [e [Hin [Hopen [Hx Hp]]]]]. exists e. split.
    + apply filter_In. rewrite Hx, Hopen. auto.
    + apply filter_In. split.
      * apply involves_cases in Hp. simpl. intuition.
      * apply negb_true_iff, String.eqb_neq. exact Hne.
Qed.

Lemma lookup_after_removal (x p : string) (P : list string) :
  p <> x ->
  lookup (map (release_partners P)
              (filter (fun e => negb (String.eqb (fst e) x)) T)) p
  = match lookup T p with
    | Some t => Some (if existsb (String.eqb p) P then None else t)
    | None => None
    end.
Proof.
  intros Hne.
  rewrite (lookup_map_snd (release_partners P) _ p
             (fun k t => if existsb (String.eqb k) P then None else t))
    by apply release_partners_shape.
  assert (E : lookup (filter (fun e => negb (String.eqb (fst e) x)) T) p
              = lookup T p).
  { unfold lookup. f_equal. clear Hwf Hinv.
    induction T as [|e T' IH]; simpl; [reflexivity|].
    destruct (String.eqb_spec (fst e) x) as [Ex|Ex]; simpl.
    - unfold key_is at 2. rewrite Ex.
      apply String.eqb_neq in Hne. rewrite String.eqb_sym, Hne. exact IH.
    - destruct (key_is p e); [reflexivity | exact IH]. }
  rewrite E. reflexivity.
Qed.

(** Removing [x]: its open conversations are closed and its partners
    released. *)
Lemma ledger_remove (x : string) :
  ledger_invariant
    (map (release_partners (partners_of x C))
         (filter (fun e => negb (String.eqb (fst e) x)) T))
    (map (close_with x) C).
Proof.
  assert (Hnp : forall e p t,
             In e C -> snd e = true -> involves x e = false ->
             involves p e = true -> lookup T p = Some (Some t) ->
             ~ In p (partners_of x C)).
  { intros e p t Hin Hopen Hnx Hip Hlp Hpart.
    apply In_partners_of in Hpart.
    destruct Hpart as [Hne [e2 [Hin2 [Hopen2 [Hx2 Hp2]]]]].
    pose proof (involves_talking T C Hinv p t e Hin Hopen Hip Hlp) as Ht.
    pose proof (involves_talking T C Hinv p t e2 Hin2 Hopen2 Hp2 Hlp) as Ht2.
    destruct (partner_points_back p t e2 Hlp Hin2 Ht2) as [_ Honly2].
    destruct (Honly2 x Hx2) as [E | E]; [congruence|].
    subst t. unfold talking in Ht. rewrite Hnx in Ht.
    rewrite andb_false_r in Ht. discriminate Ht. }
  destruct Hinv as [I1 I2]. split.
  - intros e' Hin' Hopen'.
    apply in_map_iff in Hin'. destruct Hin' as [e [E Hin]].
    unfold close_with in E.
    destruct (involves x e && snd e) eqn:Ex;
      [subst e'; discriminate Hopen'|].
    subst e'. rewrite Hopen' in Ex. rewrite andb_true_r in Ex.
    destruct (I1 e Hin Hopen') as [Hp Hq].
    assert (Hxp : fst (fst e) <> x /\ snd (fst e) <> x).
    { unfold involves in Ex. apply orb_false_iff in Ex.
      destruct Ex as [E1 E2].
      apply String.eqb_neq in E1. apply String.eqb_neq in E2. auto. }
    destruct Hxp as [Hxp Hxq].
    rewrite !lookup_after_removal, Hp, Hq by assumption.
    assert (Hp' : ~ In (fst (fst e)) (partners_of x C)).
    { apply (Hnp e (fst (fst e)) (snd (fst e)) Hin Hopen' Ex); [|exact Hp].
      apply involves_cases. auto. }
    assert (Hq' : ~ In (snd (fst e)) (partners_of x C)).
    { apply (Hnp e (snd (fst e)) (fst (fst e)) Hin Hopen' Ex); [|exact Hq].
      apply involves_cases. auto. }
    assert (Hex : forall k, ~ In k (partners_of x C) ->
                            existsb (String.eqb k) (partners_of x C) = false).
    { intros k Hk. destruct (existsb _ _) eqn:E; [|reflexivity].
      apply existsb_exists in E. destruct E as [k' [Hk' E]].
      apply String.eqb_eq in E. subst k'. contradiction. }
    rewrite (Hex _ Hp'), (Hex _ Hq'). auto.
  - intros p t Hin.
    apply in_map_iff in Hin. destruct Hin as [e1 [E1 Hin1]].
    apply filter_In in Hin1. destruct Hin1 as [Hin1 Hk].
    apply negb_true_iff, String.eqb_neq in Hk.
    rewrite release_partners_shape in E1.
    destruct (existsb (String.eqb (fst e1)) (partners_of x C)) eqn:Ep;
      [discriminate E1|].
    assert (Ee : e1 = (p, Some t)) by (destruct e1; simpl in *; congruence).
    subst e1. simpl in Ep, Hk.
    assert (Hpart : ~ In p (partners_of x C)).
    { intros Hp. assert (Ht : existsb (String.eqb p) (partners_of x C) = true).
      { apply existsb_exists. exists p. split; [exact Hp|].
        apply String.eqb_refl. }
      congruence. }
    rewrite filter_map_same_length; [exact (I2 p t Hin1)|].
    intros e Hin. unfold close_with.
    destruct (involves x e && snd e) eqn:Ex; [|reflexivity].
    apply andb_true_iff in Ex. destruct Ex as [Ex Hopen].
    unfold talking at 1. unfold close_talk. simpl. rewrite andb_false_r.
    symmetry. unfold talking.
    destruct (involves p e) eqn:Eip; [|reflexivity].
    exfalso. apply Hpart. apply In_partners_of.
    split; [exact Hk|]. exists e. auto.
Qed.

End LedgerSteps.

(** *** The ledger of a world *)

Lemma lookup_targets (s : AppState) (a : string) :
  lookup (targets s) a = option_map conversationTarget (avatar_of s a).
Proof.
  unfold lookup, targets, avatar_of.
  induction (avatars s) as [|av l IH]; simpl; [reflexivity|].
  unfold key_is at 1; simpl.
  destruct (String.eqb (id av) a); [reflexivity | exact IH].
Qed.

Lemma points_at_lookup (s : AppState) (a b : string) :
  points_at s a b <-> lookup (targets s) a = Some (Some b).
Proof.
  rewrite lookup_targets. unfold points_at. split.
  - intros [av [E1 E2]]. rewrite E1. simpl. congruence.
  - destruct (avatar_of s a) as [av|]; simpl; intros H; [|discriminate H].
    exists av. split; [reflexivity | congruence].
Qed.

Lemma active_between_talking (a t : string) (c : Conversation) :
  active_between a t c = talking a t (participants c, not_ended c).
Proof. reflexivity. Qed.

Lemma filter_talks_length (a t : string) (l : list Conversation) :
  List.length (filter (talking a t)
                 (map (fun c => (participants c, not_ended c)) l))
  = List.length (filter (active_between a t) l).
Proof.
  induction l as [|c l IH]; simpl; [reflexivity|].
  rewrite <- active_between_talking.
  destruct (active_between a t c); simpl; rewrite IH; reflexivity.
Qed.

(** The invariant of a world is the invariant of its ledger. *)
Lemma conversation_invariant_ledger (s : AppState) :
  conversation_invariant s <-> ledger_invariant (targets s) (talks s).
Proof.
  unfold conversation_invariant, ledger_invariant. split.
  - intros [I1 I2]. split.
    + intros e Hin Hopen. unfold talks in Hin.
      apply in_map_iff in Hin. destruct Hin as [c [E Hin]]. subst e.
      simpl in *. rewrite <- !points_at_lookup. auto.
    + intros a t Hin. unfold targets in Hin.
      apply in_map_iff in Hin. destruct Hin as [av [E Hin]].
      injection E as Ea Et. subst a.
      unfold talks. rewrite filter_talks_length. auto.
  - intros [I1 I2]. split.
    + intros c Hin Hopen. rewrite !points_at_lookup.
      apply (I1 (participants c, not_ended c)); [|exact Hopen].
      unfold talks. apply in_map_iff. exists c. auto.
    + intros av t Hin Ht. rewrite <- filter_talks_length.
      apply I2. unfold targets. apply in_map_iff. exists av.
      split; [congruence | exact Hin].
Qed.

Lemma generateId_nonempty (prefix : string) (n : nat) :
  prefix <> EmptyString -> generateId prefix n <> EmptyString.
Proof.
  unfold generateId. destruct prefix as [|c p]; [congruence|].
  simpl. discriminate.
Qed.

Lemma ledger_wf_targets (w : World) :
  well_identified w -> ledger_wf (targets (state w)).
Proof.
  intros [Hnd Hgen]. unfold ledger_wf, targets.
  rewrite map_map. simpl. split; [exact Hnd|].
  intros Hin. apply in_map_iff in Hin. destruct Hin as [av [E Hin]].
  destruct (Hgen av Hin) as [k [_ Ek]]. rewrite Ek in E.
  apply generateId_nonempty in E; [exact E | discriminate].
Qed.

(** *** Removing an avatar *)

Lemma not_ended_closed (now : R) (c : Conversation) :
  now <> 0 ->
  not_ended {| conv_id := conv_id c; participants := participants c;
               messages := messages c; startTime := startTime c;
               endTime := Some now |} = false.
Proof.
  intros Hnow. unfold not_ended, JS.truthy_num. simpl.
  apply eq_false in Hnow. rewrite Hnow. reflexivity.
Qed.

Lemma flat_map_filter_map {A B D : Type} (f : A -> B) (p : B -> bool)
  (g : B -> list D) (l : list A) :
  flat_map g (filter p (map f l))
  = flat_map (fun a => g (f a)) (filter (fun a => p (f a)) l).
Proof.
  induction l as [|a l IH]; simpl; [reflexivity|].
  destruct (p (f a)); simpl; rewrite IH; reflexivity.
Qed.

Lemma removeAvatar_ledger (now : R) (x : string) (s : AppState) :
  now <> 0 -> (2 < List.length (avatars s))%nat ->
  targets (removeAvatar now x s)
  = map (release_partners (partners_of x (talks s)))
        (filter (fun e => negb (String.eqb (fst e) x)) (targets s)) /\
  talks (removeAvatar now x s) = map (close_with x) (talks s).
Proof.
  intros Hnow Hlen.
  destruct (run_with_logs_core now
              (fst (removeAvatar_update now x s))
              (snd (removeAvatar_update now x s)))
    as (Ha & _ & _ & Hc & _).
  rewrite <- surjective_pairing in Ha, Hc.
  fold (removeAvatar now x s) in Ha, Hc.
  unfold targets, talks. rewrite Ha, Hc. clear Ha Hc.
  fold (targets s). fold (talks s).
  unfold removeAvatar_update.
  destruct (Nat.leb (List.length (avatars s)) 2) eqn:E;
    [apply Nat.leb_le in E; lia|].
  cbn [fst avatars conversations with_avatars_conversations].
  assert (HP : flat_map
                 (fun c => filter (fun p => negb (String.eqb p x))
                             [fst (participants c); snd (participants c)])
                 (filter (ends_with x) (conversations s))
               = partners_of x (talks s)).
  { unfold partners_of, talks. rewrite flat_map_filter_map. reflexivity. }
  rewrite HP. clear HP Hlen E. split.
  - unfold targets.
    induction (avatars s) as [|av l IH]; simpl; [reflexivity|].
    destruct (String.eqb (id av) x); simpl; [exact IH|].
    rewrite IH. f_equal. unfold release_partners. simpl.
    destruct (existsb (String.eqb (id av)) (partners_of x (talks s)));
      reflexivity.
  - unfold talks. rewrite !map_map. apply map_ext. intros c.
    unfold close_with.
    change (involves x (participants c, not_ended c)
            && snd (participants c, not_ended c))
      with (ends_with x c).
    destruct (ends_with x c); [|reflexivity].
    rewrite not_ended_closed by exact Hnow. reflexivity.
Qed.

(** X15: removing an avatar keeps the conversation invariant: in a world
    where the open conversations and the conversation targets agree, they
    still agree after [removeAvatar], whether the call is rejected at the
    floor of two avatars or removes the avatar, ends its open conversations
    at [now] (a time other than 0, which would read as not ended) and frees
    its partners. *)
Lemma removeAvatar_preserves_invariant (now : R) (x : string) (s : AppState) :
  now <> 0 -> conversation_invariant s ->
  conversation_invariant (removeAvatar now x s).
Proof.
  intros Hnow Hinv.
  apply conversation_invariant_ledger.
  destruct (Nat.leb (List.length (avatars s)) 2) eqn:E.
  - apply Nat.leb_le in E.
    assert (Hsame : targets (removeAvatar now x s) = targets s
                    /\ talks (removeAvatar now x s) = talks s).
    { unfold targets, talks, removeAvatar.
      rewrite (removeAvatar_update_rejects now x s E).
      destruct (run_with_logs_core now s
                  [(("Cannot remove avatar " ++ x
                       ++ ", minimum of 2 required.")%string, warning)])
        as (Ha & _ & _ & Hc & _).
      rewrite Ha, Hc. auto. }
    destruct Hsame as [Ht Hc]. rewrite Ht, Hc.
    apply conversation_invariant_ledger. exact Hinv.
  - apply Nat.leb_gt in E.
    destruct (removeAvatar_ledger now x s Hnow E) as [Ht Hc].
    rewrite Ht, Hc. apply ledger_remove.
    apply conversation_invariant_ledger. exact Hinv.
Qed.

(** *** The ledger after a decision *)

Lemma mapi_from_never {A : Type} (g : A -> A) (l : list A) (k i : nat) :
  (i < k)%nat ->
  JS.mapi_from k (fun e idx => if Nat.eqb idx i then g e else e) l = l.
Proof.
  revert k. induction l as [|a l IH]; intros k Hk; simpl; [reflexivity|].
  destruct (Nat.eqb_spec k i) as [E|E]; [lia|].
  rewrite IH by lia. reflexivity.
Qed.

Lemma mapi_from_update_at {A : Type} (g : A -> A) (l : list A) (k i : nat) :
  JS.mapi_from k (fun e idx => if Nat.eqb idx (k + i) then g e else e) l
  = update_at i g l.
Proof.
  revert k i. induction l as [|a l IH]; intros k i; simpl;
    [destruct i; reflexivity|].
  destruct i as [|j].
  - rewrite Nat.add_0_r, Nat.eqb_refl.
    rewrite mapi_from_never by lia. reflexivity.
  - destruct (Nat.eqb_spec k (k + S j)) as [E|E]; [lia|].
    replace (k + S j)%nat with (S k + j)%nat by lia.
    rewrite IH. reflexivity.
Qed.

Lemma mapi_update_at {A : Type} (g : A -> A) (l : list A) (i : nat) :
  JS.mapi (fun e idx => if Nat.eqb idx i then g e else e) l = update_at i g l.
Proof. exact (mapi_from_update_at g l 0 i). Qed.

Lemma map_update_at {A B : Type} (f : A -> B) (g : A -> A) (g' : B -> B)
  (l : list A) (i : nat) :
  (forall a, f (g a) = g' (f a)) ->
  map f (update_at i g l) = update_at i g' (map f l).
Proof.
  intros H. revert i. induction l as [|a l IH]; intros [|i]; simpl;
    try reflexivity.
  - rewrite H. reflexivity.
  - rewrite IH. reflexivity.
Qed.

Lemma findIndex_map {A B : Type} (f : A -> B) (p : B -> bool) (l : list A) :
  JS.findIndex p (map f l) = JS.findIndex (fun a => p (f a)) l.
Proof.
  induction l as [|a l IH]; simpl; [reflexivity|].
  rewrite IH. reflexivity.
Qed.

(** With distinct keys, updating at the index of a key is updating by key. *)
Lemma update_at_key (T : list Target) (a : string) (i : nat)
  (h : Target -> Target) :
  NoDup (map fst T) -> JS.findIndex (key_is a) T = Some i ->
  update_at i h T = map (fun e => if key_is a e then h e else e) T.
Proof.
  intros Hnd Hi.
  destruct (findIndex_split (key_is a) h T i Hi)
    as [T1 [e [T2 [ET [He [HT1 HU]]]]]].
  rewrite HU, ET, map_app. simpl. rewrite He.
  rewrite ET, map_app in Hnd. simpl in Hnd.
  apply NoDup_remove_2 in Hnd.
  assert (Hk : fst e = a) by (apply String.eqb_eq; exact He).
  f_equal; [|f_equal].
  - symmetry. apply map_fixed. intros e' Hin. rewrite (HT1 e' Hin).
    reflexivity.
  - symmetry. apply map_fixed. intros e' Hin.
    destruct (key_is a e') eqn:E; [|reflexivity].
    exfalso. apply Hnd. apply in_or_app. right.
    apply String.eqb_eq in E. rewrite Hk, <- E. apply in_map. exact Hin.
Qed.

Lemma applyDecision_ledger now idn avatarId r prev av :
  NoDup (map id (avatars prev)) ->
  avatar_of prev avatarId = Some av ->
  targets (applyDecision now idn avatarId r prev)
  = map (fun e =>
           if key_is avatarId e
           then (fst e,
                 newConversationTarget
                   (resolvedLocals now idn avatarId r prev av))
           else e)
        (map (fun a => (id a, conversationTarget a))
             (nextAvatars (resolvedLocals now idn avatarId r prev av))) /\
  talks (applyDecision now idn avatarId r prev)
  = map (fun c => (participants c, not_ended c))
        (nextConversations (resolvedLocals now idn avatarId r prev av)).
Proof.
  intros Hnd Hav. unfold avatar_of in Hav. rewrite find_findIndex in Hav.
  unfold targets, talks, applyDecision.
  destruct (JS.findIndex _ (avatars prev)) as [i|] eqn:Hi;
    [|discriminate Hav].
  rewrite Hav. cbn [avatars conversations with_avatars_conversations].
  set (l := resolvedLocals now idn avatarId r prev av).
  split; [|reflexivity].
  rewrite (mapi_update_at
             (updatedAvatar now prev av (r_params r) l) (nextAvatars l) i).
  rewrite (map_update_at (fun a => (id a, conversationTarget a))
             (updatedAvatar now prev av (r_params r) l)
             (fun e => (fst e, newConversationTarget l)))
    by reflexivity.
  assert (Hids : map id (nextAvatars l) = map id (avatars prev))
    by apply resolve_switch_ids.
  apply update_at_key.
  - replace (map fst (map (fun a => (id a, conversationTarget a))
                          (nextAvatars l)))
      with (map id (nextAvatars l)) by (rewrite map_map; reflexivity).
    rewrite Hids. exact Hnd.
  - rewrite findIndex_map. unfold key_is. simpl.
    rewrite findIndex_by_ids, Hids, <- findIndex_by_ids. exact Hi.
Qed.

Lemma seq_Some (o : option string) (t : string) :
  JS.seq o (Some t) = true <-> o = Some t.
Proof.
  unfold JS.seq. destruct o as [u|].
  - rewrite String.eqb_eq. split; congruence.
  - split; discriminate.
Qed.

Lemma map_update_at_same {A B : Type} (f : A -> B) (g : A -> A)
  (l : list A) (i : nat) :
  (forall a, f (g a) = f a) -> map f (update_at i g l) = map f l.
Proof.
  intros H. revert i. induction l as [|a l IH]; intros [|i]; simpl;
    try reflexivity.
  - rewrite H. reflexivity.
  - rewrite IH. reflexivity.
Qed.

Lemma findIndex_talks (a b : string) (s : AppState) :
  JS.findIndex (talking a b) (talks s)
  = JS.findIndex (active_between a b) (conversations s).
Proof. unfold talks. rewrite findIndex_map. reflexivity. Qed.

(** What a decision does to the ledger: nothing; or it pairs the avatar up
    with a free avatar; or it clears the target of an avatar that has one,
    closing the pair's open conversation when there is one; or it is a
    [continue_conversation] that does not answer the partner, and clears the
    avatar's own target. *)
Lemma resolvedLocals_cases now idn avatarId r prev av :
  now <> 0 ->
  (map (fun a => (id a, conversationTarget a))
       (nextAvatars (resolvedLocals now idn avatarId r prev av))
   = targets prev /\
   map (fun c => (participants c, not_ended c))
       (nextConversations (resolvedLocals now idn avatarId r prev av))
   = talks prev /\
   newConversationTarget (resolvedLocals now idn avatarId r prev av)
   = conversationTarget av)
  \/
  (exists B tB,
     JS.truthy (conversationTarget av) = None /\
     lookup (targets prev) B = Some tB /\ JS.truthy tB = None /\
     avatarId <> B /\
     map (fun a => (id a, conversationTarget a))
         (nextAvatars (resolvedLocals now idn avatarId r prev av))
     = map (pair_up avatarId B) (targets prev) /\
     map (fun c => (participants c, not_ended c))
         (nextConversations (resolvedLocals now idn avatarId r prev av))
     = talks prev ++ [((avatarId, B), true)] /\
     newConversationTarget (resolvedLocals now idn avatarId r prev av)
     = Some B)
  \/
  (exists B,
     conversationTarget av = Some B /\
     newConversationTarget (resolvedLocals now idn avatarId r prev av) = None /\
     match JS.findIndex (talking avatarId B) (talks prev) with
     | Some i =>
         map (fun a => (id a, conversationTarget a))
             (nextAvatars (resolvedLocals now idn avatarId r prev av))
         = map (release avatarId B) (targets prev) /\
         map (fun c => (participants c, not_ended c))
             (nextConversations (resolvedLocals now idn avatarId r prev av))
         = update_at i close_talk (talks prev)
     | None =>
         map (fun a => (id a, conversationTarget a))
             (nextAvatars (resolvedLocals now idn avatarId r prev av))
         = targets prev /\
         map (fun c => (participants c, not_ended c))
             (nextConversations (resolvedLocals now idn avatarId r prev av))
         = talks prev
     end)
  \/
  (r_action r = "continue_conversation" /\ ~ answers_partner r av /\
   map (fun a => (id a, conversationTarget a))
       (nextAvatars (resolvedLocals now idn avatarId r prev av))
   = targets prev /\
   map (fun c => (participants c, not_ended c))
       (nextConversations (resolvedLocals now idn avatarId r prev av))
   = talks prev /\
   newConversationTarget (resolvedLocals now idn avatarId r prev av) = None).
Proof.
  intros Hnow.
  unfold resolvedLocals, resolve_switch.
  cbn [updateAction initialLocals].
  destruct (String.eqb (r_action r) "turn");
    [left; repeat split; reflexivity|].
  destruct (String.eqb (r_action r) "move").
  { unfold move_case. destruct (collided _ _ _);
      left; repeat split; reflexivity. }
  destruct (String.eqb (r_action r) "interact_object");
    [left; repeat split; reflexivity|].
  destruct (String.eqb (r_action r) "initiate_conversation").
  { unfold initiate_case, downgrade.
    destruct (JS.truthy (opt_param p_targetId (r_params r))) as [B|];
      [|left; repeat split; reflexivity].
    destruct (JS.truthy (opt_param p_message (r_params r))) as [m|];
      [|left; repeat split; reflexivity].
    destruct (JS.truthy (conversationTarget av)) eqn:Hfree;
      [left; repeat split; reflexivity|].
    destruct (find _ (avatars prev)) as [targetAvatar|] eqn:Hfind;
      [|left; repeat split; reflexivity].
    destruct (String.eqb_spec B avatarId) as [E|E]; simpl negb; cbv iota;
      [left; repeat split; reflexivity|].
    destruct (JS.truthy (conversationTarget targetAvatar)) eqn:Hfree';
      [left; repeat split; reflexivity|].
    right. left. exists B, (conversationTarget targetAvatar).
    split; [reflexivity|]. split.
    { rewrite lookup_targets. unfold avatar_of. rewrite Hfind. reflexivity. }
    split; [exact Hfree'|]. split; [congruence|].
    cbn [nextAvatars nextConversations newConversationTarget
         set_updateAction set_nextAvatars set_newConversationTarget
         set_nextConversations initialLocals].
    split; [|split; [|reflexivity]].
    - unfold targets. rewrite !map_map. apply map_ext. intros a.
      unfold pair_up. simpl.
      destruct (String.eqb (id a) avatarId); [reflexivity|].
      destruct (String.eqb (id a) B); reflexivity.
    - unfold talks. rewrite map_app. reflexivity. }
  destruct (String.eqb_spec (r_action r) "continue_conversation")
    as [Hact|_].
  { unfold continue_case, downgrade.
    assert (Hbad : ~ answers_partner r av ->
                   (r_action r = "continue_conversation" /\
                    ~ answers_partner r av /\
                    targets prev = targets prev /\
                    talks prev = talks prev /\
                    @None string = None)) by auto.
    destruct (JS.truthy (opt_param p_targetId (r_params r))) as [t|] eqn:Ht.
    2:{ right. right. right. apply Hbad.
        intros [t' [m' [H1 _]]]. congruence. }
    destruct (JS.truthy (opt_param p_message (r_params r))) as [m|] eqn:Hm.
    2:{ right. right. right. apply Hbad.
        intros [t' [m' [_ [H2 _]]]]. congruence. }
    destruct (JS.seq (conversationTarget av) (Some t)) eqn:Hseq.
    2:{ right. right. right. apply Hbad.
        intros [t' [m' [H1 [_ H3]]]].
        assert (Et : t' = t) by congruence. subst t'.
        apply seq_Some in H3. congruence. }
    apply seq_Some in Hseq.
    destruct (JS.findIndex (active_between avatarId t) (conversations prev))
      as [convIndex|] eqn:Hfi.
    - left. cbn [nextAvatars nextConversations newConversationTarget
                 set_updateAction set_nextConversations initialLocals].
      split; [reflexivity|]. split; [|reflexivity].
      unfold talks. apply map_update_at_same. reflexivity.
    - right. right. left. exists t. split; [exact Hseq|].
      split; [reflexivity|].
      rewrite findIndex_talks, Hfi. split; reflexivity. }
  destruct (String.eqb (r_action r) "disengage_conversation").
  { unfold disengage_case.
    destruct (JS.truthy (opt_param p_targetId (r_params r))) as [B|];
      [|left; destruct (JS.truthy (conversationTarget av));
        repeat split; reflexivity].
    destruct (JS.seq (conversationTarget av) (Some B)) eqn:Hseq;
      [|left; destruct (JS.truthy (conversationTarget av));
        repeat split; reflexivity].
    apply seq_Some in Hseq.
    right. right. left. exists B. split; [exact Hseq|].
    split; [reflexivity|].
    rewrite findIndex_talks.
    destruct (JS.findIndex (active_between avatarId B) (conversations prev))
      as [convIndex|].
    - cbn [nextAvatars nextConversations newConversationTarget
           set_updateAction set_nextAvatars set_newConversationTarget
           set_nextConversations initialLocals].
      split.
      + unfold targets. rewrite !map_map. apply map_ext. intros a.
        unfold release. simpl.
        destruct (String.eqb (id a) avatarId || String.eqb (id a) B);
          reflexivity.
      + unfold talks. apply map_update_at. intros c.
        unfold close_talk. simpl.
        rewrite not_ended_closed by exact Hnow. reflexivity.
    - split; reflexivity. }
  destruct (String.eqb (r_action r) "think");
    left; repeat split; reflexivity.
Qed.

Lemma override_same (T : list Target) (a : string) (t : option string) :
  NoDup (map fst T) -> lookup T a = Some t ->
  map (fun e => if key_is a e then (fst e, t) else e) T = T.
Proof.
  intros Hnd Hl. apply map_fixed. intros [k u] Hin.
  unfold key_is. simpl. destruct (String.eqb_spec k a) as [E|E];
    [|reflexivity].
  subst k. rewrite (lookup_In T a u Hnd Hin) in Hl. congruence.
Qed.

Lemma override_pair_up (T : list Target) (a b : string) :
  map (fun e => if key_is a e then (fst e, Some b) else e)
      (map (pair_up a b) T)
  = map (pair_up a b) T.
Proof.
  apply map_fixed. intros e Hin. apply in_map_iff in Hin.
  destruct Hin as [e0 [E _]]. subst e. rewrite pair_up_shape.
  unfold key_is. simpl.
  destruct (String.eqb (fst e0) a); reflexivity.
Qed.

Lemma override_release (T : list Target) (a b : string) :
  map (fun e => if key_is a e then (fst e, None) else e)
      (map (release a b) T)
  = map (release a b) T.
Proof.
  apply map_fixed. intros e Hin. apply in_map_iff in Hin.
  destruct Hin as [e0 [E _]]. subst e. rewrite release_shape.
  unfold key_is. simpl.
  destruct (String.eqb (fst e0) a); reflexivity.
Qed.

Lemma applyDecision_no_avatar now idn avatarId r prev :
  avatar_of prev avatarId = None ->
  applyDecision now idn avatarId r prev = prev.
Proof.
  unfold avatar_of, applyDecision. rewrite find_findIndex.
  destruct (JS.findIndex _ (avatars prev)) as [i|]; [|reflexivity].
  intros H. rewrite H. reflexivity.
Qed.

(** Every decision other than a [continue_conversation] that fails to answer
    the partner of an avatar in a conversation keeps the invariant. *)
Lemma executeDecision_preserves_invariant
  oracle now idn cur avatarId decision w :
  now <> 0 -> well_identified w ->
  conversation_invariant (state w) ->
  (forall av,
     avatar_of (state w) avatarId = Some av ->
     r_action (prepareDecision oracle cur avatarId decision)
     = "continue_conversation" ->
     conversationTarget av = None \/
     answers_partner (prepareDecision oracle cur avatarId decision) av) ->
  conversation_invariant
    (executeDecision oracle now idn cur avatarId decision (state w)).
Proof.
  intros Hnow Hwi Hinv Hcont. unfold executeDecision.
  set (r := prepareDecision oracle cur avatarId decision) in *.
  set (prev := state w) in *.
  destruct (avatar_of prev avatarId) as [av|] eqn:Hav;
    [|rewrite applyDecision_no_avatar by exact Hav; exact Hinv].
  pose proof (ledger_wf_targets w Hwi) as Hwf. fold prev in Hwf.
  assert (Hnd : NoDup (map id (avatars prev))) by (destruct Hwi; assumption).
  apply conversation_invariant_ledger in Hinv.
  apply conversation_invariant_ledger.
  destruct (applyDecision_ledger now idn avatarId r prev av Hnd Hav)
    as [HT HC].
  rewrite HT, HC. clear HT HC.
  assert (Hla : lookup (targets prev) avatarId
                = Some (conversationTarget av))
    by (rewrite lookup_targets, Hav; reflexivity).
  destruct (resolvedLocals_cases now idn avatarId r prev av Hnow)
    as [[ET [EC En]] | [[B [tB (Hfa & HlB & HfB & Hne & ET & EC & En)]]
       | [[B (Ht & En & Hm)] | (Hact & Hbad & ET & EC & En)]]].
  - rewrite ET, EC, En.
    rewrite override_same; [exact Hinv | apply Hwf | exact Hla].
  - rewrite ET, EC, En, override_pair_up.
    exact (ledger_pair_up (targets prev) (talks prev) Hwf Hinv avatarId B
             (conversationTarget av) tB Hne Hla Hfa HlB HfB).
  - rewrite Ht in Hla. rewrite En.
    destruct (findIndex_Some (talking avatarId B) (talks prev)) as [i Hi].
    { destruct Hinv as [_ I2].
      pose proof (I2 avatarId B (In_lookup _ _ _ Hla)) as Hone.
      intros E. rewrite E in Hone. discriminate Hone. }
    rewrite Hi in Hm. destruct Hm as [ET EC].
    rewrite ET, EC, override_release.
    exact (ledger_release (targets prev) (talks prev) Hinv avatarId B i
             Hla Hi).
  - destruct (Hcont av eq_refl Hact) as [Hnone | Hgood];
      [|contradiction].
    rewrite ET, EC, En, <- Hnone.
    rewrite override_same; [exact Hinv | apply Hwf | exact Hla].
Qed.

(** * Further properties of the simulation core *)

(** ** The decision flow's validation *)

Lemma truthy_Some (o : option string) (t : string) :
  JS.truthy o = Some t -> o = Some t /\ t <> EmptyString.
Proof.
  destruct o as [s|]; simpl; [|discriminate].
  destruct (String.eqb s EmptyString) eqn:E; [discriminate|].
  intros H. injection H as H. subst t.
  apply String.eqb_neq in E. auto.
Qed.

Lemma truthy_of_nonempty (t : string) :
  t <> EmptyString -> JS.truthy (Some t) = Some t.
Proof.
  intros H. simpl. apply String.eqb_neq in H. rewrite H. reflexivity.
Qed.

Lemma append_nonempty_l (s t : string) :
  s <> EmptyString -> (s ++ t)%string <> EmptyString.
Proof. destruct s; simpl; [congruence | discriminate]. Qed.

(** The thought the validation stores is never empty. *)
Lemma validated_thought (output : LLMDecision) :
  match JS.truthy (d_thought output) with
  | Some t => t
  | None => ("Decided to " ++ action output ++ ".")%string
  end <> EmptyString.
Proof.
  destruct (JS.truthy (d_thought output)) as [t|] eqn:E.
  - apply truthy_Some in E. tauto.
  - discriminate.
Qed.

Lemma pause_range (d : R) : 100 <= Rmin 5000 (Rmax 100 d) <= 5000.
Proof. minmax. Qed.

Lemma validateDecision_well_formed (output : LLMDecision) :
  well_formed_decision (validateDecision output).
Proof.
  pose proof (validated_thought output) as Hth.
  unfold well_formed_decision, validateDecision.
  set (thought_ := match JS.truthy (d_thought output) with
                   | Some t => t
                   | None => ("Decided to " ++ action output ++ ".")%string
                   end) in *.
  set (params := nullish (parameters output) emptyParameters).
  assert (Hidle : forall missing,
             JS.truthy (d_thought (switch_to_idle thought_ missing)) <> None).
  { intros missing. unfold switch_to_idle. cbn [d_thought].
    rewrite truthy_of_nonempty; [discriminate|].
    apply append_nonempty_l. exact Hth. }
  assert (Htr : JS.truthy (Some thought_) <> None)
    by (rewrite truthy_of_nonempty by exact Hth; discriminate).
  destruct (String.eqb (action output) "turn") eqn:E1.
  { apply String.eqb_eq in E1. cbn [action parameters d_thought].
    rewrite E1. repeat split; try (intros H; try destruct H as [H | H];
      try destruct H as [H | H]; try destruct H as [H | H]; discriminate H).
    - exact Htr.
    - intros _. destruct (p_angle params) as [v|] eqn:Ev.
      + destruct (snap30_spec (Rmax (-180) (Rmin 180 v))) as [k [Hk _]].
        exists (snap30 (Rmax (-180) (Rmin 180 v))), k.
        split; [reflexivity|]. split; [exact Hk|].
        apply snap30_clamped. minmax.
      + exists 0, 0%Z. split; [reflexivity|]. lra. }
  destruct (String.eqb (action output) "move") eqn:E2.
  { apply String.eqb_eq in E2. cbn [action parameters d_thought].
    rewrite E2. repeat split; try (intros H; try destruct H as [H | H];
      try destruct H as [H | H]; try destruct H as [H | H]; discriminate H).
    - exact Htr.
    - intros _. destruct (p_distance params) as [v|] eqn:Ev.
      + eexists. split; [reflexivity|]. minmax.
      + exists 0. split; [reflexivity|]. lra. }
  apply String.eqb_neq in E1. apply String.eqb_neq in E2.
  destruct (String.eqb (action output) "interact_object"
            || String.eqb (action output) "initiate_conversation"
            || String.eqb (action output) "disengage_conversation") eqn:E3.
  { destruct (JS.truthy (p_targetId params)) as [t|] eqn:Et.
    - cbn [action parameters d_thought opt_param].
      repeat split; try contradiction.
      + exact Htr.
      + intros _. rewrite Et. discriminate.
      + intros H. rewrite H in E3. discriminate E3.
      + intros [H | H]; rewrite H in E3; discriminate E3.
    - unfold switch_to_idle at 2 3 4 5 6 7.
      cbn [action parameters opt_param duration_only p_duration].
      repeat split; try (intros H; try destruct H as [H | H];
        try destruct H as [H | H]; try destruct H as [H | H];
        discriminate H).
      + apply Hidle.
      + intros _. exists 500. split; [reflexivity | lra]. }
  destruct (String.eqb (action output) "continue_conversation") eqn:E4.
  { destruct (JS.truthy (p_targetId params)) as [t|] eqn:Et;
      [destruct (JS.truthy (p_message params)) as [m|] eqn:Em|].
    - cbn [action parameters d_thought opt_param].
      repeat split; try contradiction.
      + exact Htr.
      + intros _. rewrite Et. discriminate.
      + intros _. rewrite Em. discriminate.
      + apply String.eqb_eq in E4.
        intros [H | H]; rewrite H in E4; discriminate E4.
    - unfold switch_to_idle at 2 3 4 5 6 7.
      cbn [action parameters opt_param duration_only p_duration].
      repeat split; try (intros H; try destruct H as [H | H];
        try destruct H as [H | H]; try destruct H as [H | H];
        discriminate H).
      + apply Hidle.
      + intros _. exists 500. split; [reflexivity | lra].
    - unfold switch_to_idle at 2 3 4 5 6 7.
      cbn [action parameters opt_param duration_only p_duration].
      repeat split; try (intros H; try destruct H as [H | H];
        try destruct H as [H | H]; try destruct H as [H | H];
        discriminate H).
      + apply Hidle.
      + intros _. exists 500. split; [reflexivity | lra]. }
  apply String.eqb_neq in E4.
  apply orb_false_iff in E3. destruct E3 as [E3 E5].
  apply orb_false_iff in E3. destruct E3 as [E3 E6].
  apply String.eqb_neq in E3. apply String.eqb_neq in E5.
  apply String.eqb_neq in E6.
  destruct (String.eqb (action output) "think"
            || String.eqb (action output) "idle") eqn:E7.
  - cbn [action parameters d_thought opt_param set_duration p_duration].
    repeat split; try contradiction.
    + exact Htr.
    + intros [H | [H | [H | H]]]; contradiction.
    + intros _. eexists. split; [reflexivity | apply pause_range].
  - apply orb_false_iff in E7. destruct E7 as [E7 E8].
    apply String.eqb_neq in E7. apply String.eqb_neq in E8.
    cbn [action parameters d_thought opt_param].
    repeat split; try contradiction.
    + exact Htr.
    + intros [H | [H | [H | H]]]; contradiction.
    + intros [H | H]; contradiction.
Qed.

(** X1: whatever the prompt does (it answers with a decision, answers with
    no output, or throws), the decision flow returns a well-formed decision:
    a non-empty thought; for a turn an angle that is a multiple of 30 in
    [-180, 180]; for a move a distance in [-15, 15]; for an interaction or a
    conversation action a target id, and for continue_conversation a message
    too; for think and idle a duration in [100, 5000]. *)
Theorem avatarDecisionFlow_returns_a_well_formed_decision
  (response : PromptResponse) :
  well_formed_decision (avatarDecisionFlow response).
Proof.
  destruct response as [[output|]|message]; unfold avatarDecisionFlow.
  - apply validateDecision_well_formed.
  - unfold well_formed_decision. cbn [action parameters d_thought opt_param].
    repeat split; try (intros H; try destruct H as [H | H];
      try destruct H as [H | H]; try destruct H as [H | H]; discriminate H).
    intros _. exists 1500. split; [reflexivity | lra].
  - apply validateDecision_well_formed.
Qed.

Lemma snap30_fixed (v : R) :
  snap30 (Rmax (-180) (Rmin 180 (snap30 (Rmax (-180) (Rmin 180 v)))))
  = snap30 (Rmax (-180) (Rmin 180 v)).
Proof.
  assert (Hc : -180 <= Rmax (-180) (Rmin 180 v) <= 180) by minmax.
  pose proof (snap30_clamped _ Hc) as Hr.
  destruct (snap30_spec (Rmax (-180) (Rmin 180 v))) as [k [Hk _]].
  replace (Rmax (-180) (Rmin 180 (snap30 (Rmax (-180) (Rmin 180 v)))))
    with (snap30 (Rmax (-180) (Rmin 180 v))) by minmax.
  rewrite Hk. apply snap30_multiple.
Qed.

Lemma snap30_0 : snap30 (Rmax (-180) (Rmin 180 0)) = 0.
Proof.
  replace (Rmax (-180) (Rmin 180 0)) with (IZR 0 * 30) by minmax.
  rewrite snap30_multiple. lra.
Qed.

Lemma clamp15_fixed (v : R) :
  Rmax (-15) (Rmin 15 (Rmax (-15) (Rmin 15 v))) = Rmax (-15) (Rmin 15 v).
Proof. minmax. Qed.

Lemma pause_fixed (d : R) :
  Rmin 5000
    (Rmax 100
       (if JS.le (Rmin 5000 (Rmax 100 d)) 0 then 500
        else Rmin 5000 (Rmax 100 d)))
  = Rmin 5000 (Rmax 100 d).
Proof.
  pose proof (pause_range d) as Hr.
  destruct (JS.le (Rmin 5000 (Rmax 100 d)) 0) eqn:E.
  - apply le_true in E. lra.
  - minmax.
Qed.

Lemma validateDecision_switch_to_idle (t missing : string) :
  t <> EmptyString ->
  validateDecision (switch_to_idle t missing) = switch_to_idle t missing.
Proof.
  intros Ht. unfold validateDecision, switch_to_idle.
  cbn [action parameters d_thought nullish].
  rewrite truthy_of_nonempty by (apply append_nonempty_l; exact Ht).
  cbn. unfold set_duration, duration_only. cbn.
  destruct (JS.le 500 0) eqn:E; [apply le_true in E; lra|].
  replace (Rmin 5000 (Rmax 100 500)) with 500 by minmax. reflexivity.
Qed.

(** X2: validating a decision twice is validating it once: the flow's
    corrections (default thought, clamped and snapped angle, clamped
    distance, fallback to idle, clamped duration) leave a decision that has
    already passed them as it is. *)
Theorem validateDecision_idempotent (output : LLMDecision) :
  validateDecision (validateDecision output) = validateDecision output.
Proof.
  pose proof (validated_thought output) as Hth.
  unfold validateDecision at 2 3.
  set (thought_ := match JS.truthy (d_thought output) with
                   | Some t => t
                   | None => ("Decided to " ++ action output ++ ".")%string
                   end) in *.
  set (params := nullish (parameters output) emptyParameters).
  pose proof (truthy_of_nonempty thought_ Hth) as Htr.
  destruct (String.eqb (action output) "turn") eqn:E1.
  { unfold validateDecision. cbn [action parameters d_thought nullish].
    rewrite E1, Htr.
    destruct (p_angle params) as [v|]; unfold set_angle; cbn.
    - pose proof (snap30_fixed v) as H. unfold snap30 in H.
      rewrite H. reflexivity.
    - pose proof snap30_0 as H. unfold snap30 in H.
      rewrite H. reflexivity. }
  destruct (String.eqb (action output) "move") eqn:E2.
  { unfold validateDecision. cbn [action parameters d_thought nullish].
    rewrite E1, E2, Htr.
    destruct (p_distance params) as [v|]; unfold set_distance; cbn.
    - rewrite clamp15_fixed. reflexivity.
    - replace (Rmax (-15) (Rmin 15 0)) with 0 by minmax. reflexivity. }
  destruct (String.eqb (action output) "interact_object"
            || String.eqb (action output) "initiate_conversation"
            || String.eqb (action output) "disengage_conversation") eqn:E3.
  { destruct (JS.truthy (p_targetId params)) as [t|] eqn:Et.
    - unfold validateDecision. cbn [action parameters d_thought nullish].
      rewrite E1, E2, E3, Htr, Et. reflexivity.
    - apply validateDecision_switch_to_idle. exact Hth. }
  destruct (String.eqb (action output) "continue_conversation") eqn:E4.
  { destruct (JS.truthy (p_targetId params)) as [t|] eqn:Et;
      [destruct (JS.truthy (p_message params)) as [m|] eqn:Em|].
    - unfold validateDecision. cbn [action parameters d_thought nullish].
      rewrite E1, E2, E3, E4, Htr, Et, Em. reflexivity.
    - apply validateDecision_switch_to_idle. exact Hth.
    - apply validateDecision_switch_to_idle. exact Hth. }
  destruct (String.eqb (action output) "think"
            || String.eqb (action output) "idle") eqn:E7.
  - unfold validateDecision. cbn [action parameters d_thought nullish].
    rewrite E1, E2, E3, E4, E7, Htr.
    unfold set_duration. cbn. rewrite pause_fixed. reflexivity.
  - unfold validateDecision. cbn [action parameters d_thought nullish].
    rewrite E1, E2, E3, E4, E7, Htr. reflexivity.
Qed.

(** ** What a decision changes *)

(** The [switch] rewrites the avatar list pointwise: an avatar is kept, or,
    if it is the decider or the target the parameters name, its
    conversation target and current action are replaced. *)
Lemma resolve_switch_avatars now idn prev avatarId currentAvatar updateParams l :
  exists f : AvatarState -> AvatarState,
    nextAvatars
      (resolve_switch now idn prev avatarId currentAvatar updateParams l)
    = map f (nextAvatars l) /\
    forall a,
      f a = a \/
      ((id a = avatarId \/
        JS.truthy (opt_param p_targetId updateParams) = Some (id a)) /\
       exists t act, f a = with_conversation a t act).
Proof.
  assert (Hkeep : exists f : AvatarState -> AvatarState,
             nextAvatars l = map f (nextAvatars l) /\
             forall a,
               f a = a \/
               ((id a = avatarId \/
                 JS.truthy (opt_param p_targetId updateParams) = Some (id a)) /\
                exists t act, f a = with_conversation a t act)).
  { exists (fun a => a). split; [symmetry; apply map_id | auto]. }
  unfold resolve_switch.
  destruct (String.eqb (updateAction l) "turn"); [exact Hkeep|].
  destruct (String.eqb (updateAction l) "move").
  { unfold move_case. break_match; exact Hkeep. }
  destruct (String.eqb (updateAction l) "interact_object"); [exact Hkeep|].
  destruct (String.eqb (updateAction l) "initiate_conversation").
  { unfold initiate_case, downgrade.
    destruct (JS.truthy (opt_param p_targetId updateParams)) as [B|] eqn:EB;
      [|exact Hkeep].
    destruct (JS.truthy (opt_param p_message updateParams)); [|exact Hkeep].
    destruct (JS.truthy (conversationTarget currentAvatar)); [exact Hkeep|].
    destruct (find _ (avatars prev)); [|exact Hkeep].
    destruct (negb (String.eqb B avatarId)); [|exact Hkeep].
    destruct (JS.truthy (conversationTarget a)); [exact Hkeep|].
    eexists. split; [reflexivity|]. intros a0. cbn beta.
    destruct (String.eqb (id a0) avatarId) eqn:E1.
    - right. apply String.eqb_eq in E1. split; [left; exact E1|].
      eexists. eexists. reflexivity.
    - destruct (String.eqb (id a0) B) eqn:E2; [|left; reflexivity].
      right. apply String.eqb_eq in E2. subst B.
      split; [right; reflexivity|]. eexists. eexists. reflexivity. }
  destruct (String.eqb (updateAction l) "continue_conversation").
  { unfold continue_case, downgrade. break_match; exact Hkeep. }
  destruct (String.eqb (updateAction l) "disengage_conversation").
  { unfold disengage_case.
    destruct (JS.truthy (opt_param p_targetId updateParams)) as [B|] eqn:EB;
      [|break_match; exact Hkeep].
    destruct (JS.seq (conversationTarget currentAvatar) (Some B));
      [|break_match; exact Hkeep].
    destruct (JS.findIndex _ (conversations prev)); [|exact Hkeep].
    eexists. split; [reflexivity|]. intros a0. cbn beta.
    destruct (String.eqb (id a0) avatarId) eqn:E1.
    - right. apply String.eqb_eq in E1. split; [left; exact E1|].
      eexists. eexists. reflexivity.
    - destruct (String.eqb (id a0) B) eqn:E2; [|left; reflexivity].
      right. apply String.eqb_eq in E2. subst B.
      split; [right; reflexivity|]. eexists. eexists. reflexivity. }
  destruct (String.eqb (updateAction l) "think"); exact Hkeep.
Qed.

(** The [switch] leaves the position alone unless it performs a move, and
    the orientation alone unless it performs a turn. *)
Lemma resolve_switch_position now idn prev avatarId currentAvatar updateParams l :
  newPosition
    (resolve_switch now idn prev avatarId currentAvatar updateParams l)
  = newPosition l \/
  (updateAction l = "move" /\
   collided prev avatarId (potentialPosition_of currentAvatar updateParams)
   = false /\
   newPosition
     (resolve_switch now idn prev avatarId currentAvatar updateParams l)
   = potentialPosition_of currentAvatar updateParams).
Proof.
  unfold resolve_switch.
  destruct (String.eqb (updateAction l) "turn"); [left; reflexivity|].
  destruct (String.eqb (updateAction l) "move") eqn:Em.
  { apply String.eqb_eq in Em. unfold move_case.
    destruct (collided prev avatarId _) eqn:Ec; [left; reflexivity|].
    right. auto. }
  unfold initiate_case, continue_case, disengage_case, downgrade.
  break_match; left; reflexivity.
Qed.

Lemma resolve_switch_orientation now idn prev avatarId currentAvatar
  updateParams l :
  updateAction l <> "turn" ->
  newOrientation
    (resolve_switch now idn prev avatarId currentAvatar updateParams l)
  = newOrientation l.
Proof.
  intros Hna. apply String.eqb_neq in Hna.
  unfold resolve_switch. rewrite Hna.
  unfold move_case, initiate_case, continue_case, disengage_case, downgrade.
  break_match; reflexivity.
Qed.

(** The action the resolver goes on with is a move (a turn) exactly when the
    decision is one. *)
Lemma prepareDecision_action oracle cur avatarId decision (a : string) :
  a <> "idle" -> a <> "thinking" ->
  r_action (prepareDecision oracle cur avatarId decision) = a ->
  action decision = a.
Proof.
  intros Hi Ht. unfold prepareDecision.
  destruct (String.eqb (action decision) "interact_object");
    [break_match; simpl; intros H; congruence|].
  destruct (String.eqb (action decision) "think"); simpl; intros H;
    congruence.
Qed.

(** The avatar the final [map] rewrites is the decider's entry, with at most
    its conversation fields replaced by the [switch]. *)
Lemma decider_after_applyDecision now idn avatarId r prev av :
  avatar_of prev avatarId = Some av ->
  exists a0,
    (a0 = av \/ exists t act, a0 = with_conversation av t act) /\
    avatar_of (applyDecision now idn avatarId r prev) avatarId
    = Some (updatedAvatar now prev av (r_params r)
              (resolvedLocals now idn avatarId r prev av) a0).
Proof.
  unfold avatar_of. intros Hav.
  assert (Hids := applyDecision_ids now idn avatarId r prev).
  rewrite find_findIndex in Hav |- *.
  rewrite findIndex_by_ids, Hids, <- findIndex_by_ids.
  unfold applyDecision.
  destruct (JS.findIndex _ (avatars prev)) as [i|]; [|discriminate Hav].
  rewrite Hav. simpl avatars.
  set (l := resolvedLocals now idn avatarId r prev av).
  destruct (resolve_switch_avatars now idn prev avatarId av (r_params r)
              (initialLocals prev av r)) as [f [Hf Hshape]].
  fold (resolvedLocals now idn avatarId r prev av) in Hf. fold l in Hf.
  cbn [nextAvatars initialLocals] in Hf.
  exists (f av). split.
  - destruct (Hshape av) as [E | [_ [t [act E]]]]; [left; exact E|].
    right. exists t, act. exact E.
  - unfold JS.mapi. rewrite mapi_from_nth_error, Hf, nth_error_map, Hav.
    simpl. rewrite Nat.eqb_refl. reflexivity.
Qed.

(** Every other entry of the avatar list is the one the [switch] left. *)
Lemma other_after_applyDecision now idn avatarId r prev (i : nat)
  (a : AvatarState) :
  nth_error (avatars prev) i = Some a -> id a <> avatarId ->
  exists a',
    nth_error (avatars (applyDecision now idn avatarId r prev)) i = Some a' /\
    (a' = a \/ exists t act, a' = with_conversation a t act) /\
    (JS.truthy (opt_param p_targetId (r_params r)) <> Some (id a) -> a' = a).
Proof.
  intros Hnth Hne. unfold applyDecision.
  destruct (JS.findIndex _ (avatars prev)) as [k|] eqn:Hk;
    [|exists a; auto].
  destruct (nth_error (avatars prev) k) as [av|] eqn:Hav;
    [|exists a; auto].
  simpl avatars.
  destruct (resolve_switch_avatars now idn prev avatarId av (r_params r)
              (initialLocals prev av r)) as [f [Hf Hshape]].
  fold (resolvedLocals now idn avatarId r prev av) in Hf.
  cbn [nextAvatars initialLocals] in Hf.
  assert (Hik : Nat.eqb i k = false).
  { apply Nat.eqb_neq. intros E. subst k. rewrite Hnth in Hav.
    injection Hav as Hav. subst av.
    pose proof (find_findIndex (fun a => String.eqb (id a) avatarId)
                  (avatars prev)) as Hfind.
    rewrite Hk, Hnth in Hfind. apply find_some in Hfind.
    destruct Hfind as [_ Hid]. apply String.eqb_eq in Hid. contradiction. }
  exists (f a). split.
  - unfold JS.mapi. rewrite mapi_from_nth_error, Hf, nth_error_map, Hnth.
    simpl. rewrite Hik. reflexivity.
  - destruct (Hshape a) as [E | [[Hid | Hid] [t [act E]]]].
    + rewrite E. auto.
    + contradiction.
    + split; [right; exists t, act; exact E|].
      intros Hnt. contradiction.
Qed.

Lemma update_at_nth_error {A : Type} (f : A -> A) (l : list A) (i k : nat) :
  nth_error (update_at i f l) k
  = if Nat.eqb k i then option_map f (nth_error l k) else nth_error l k.
Proof.
  revert i k. induction l as [|a l IH]; intros i k; simpl.
  - destruct i; destruct k; simpl; try reflexivity;
      destruct (Nat.eqb _ _); reflexivity.
  - destruct i as [|i]; destruct k as [|k]; simpl; try reflexivity.
    apply IH.
Qed.

(** The [switch] keeps every conversation in its place, with its id, its
    participants and its start time. *)
Lemma resolve_switch_conversations now idn prev avatarId currentAvatar
  updateParams l (i : nat) (c : Conversation) :
  nth_error (nextConversations l) i = Some c ->
  exists c',
    nth_error
      (nextConversations
         (resolve_switch now idn prev avatarId currentAvatar updateParams l))
      i = Some c' /\
    conv_id c' = conv_id c /\ participants c' = participants c /\
    startTime c' = startTime c.
Proof.
  intros Hnth.
  assert (Hkeep : exists c',
             nth_error (nextConversations l) i = Some c' /\
             conv_id c' = conv_id c /\ participants c' = participants c /\
             startTime c' = startTime c) by (exists c; auto).
  assert (Hupd : forall (k : nat) (f : Conversation -> Conversation),
             (forall d, conv_id (f d) = conv_id d /\
                        participants (f d) = participants d /\
                        startTime (f d) = startTime d) ->
             exists c',
               nth_error (update_at k f (nextConversations l)) i = Some c' /\
               conv_id c' = conv_id c /\ participants c' = participants c /\
               startTime c' = startTime c).
  { intros k f Hf. rewrite update_at_nth_error, Hnth.
    destruct (Nat.eqb i k); [|exists c; auto].
    exists (f c). split; [reflexivity | apply Hf]. }
  unfold resolve_switch, turn_case, move_case, initiate_case, continue_case,
    disengage_case, downgrade.
  break_match; cbn [nextConversations set_nextAvatars set_nextConversations
                    set_newPosition set_newOrientation
                    set_newConversationTarget set_updateAction
                    set_finalThought];
    try exact Hkeep;
    try (apply Hupd; intros d; repeat split; reflexivity).
  exists c. split; [|auto].
  rewrite nth_error_app1; [exact Hnth|].
  apply nth_error_Some. congruence.
Qed.

(** X3: a decision sets the time of the avatar's next one between 100 ms and
    10 s ahead: whatever the decision, the avatar it was resolved for is not
    asked again by the loop ([canAct]) before [now + 100], and is asked
    again from [now + 10000] on at the latest. *)
Theorem decision_schedules_the_next_one
  oracle now idn cur avatarId decision prev av (t : R) :
  avatar_of prev avatarId = Some av ->
  exists av',
    avatar_of (executeDecision oracle now idn cur avatarId decision prev)
      avatarId = Some av' /\
    (t < now + 100 -> canAct t av' = false) /\
    (now + 10000 <= t -> canAct t av' = true).
Proof.
  intros Hav.
  destruct (avatar_of_applyDecision now idn avatarId
              (prepareDecision oracle cur avatarId decision) prev av Hav)
    as [a0 [_ H]].
  eexists. split; [exact H|].
  unfold canAct. cbn [nextDecisionTime updatedAvatar].
  set (d := clampDelay _). pose proof (clampDelay_range
    (decisionDelay av (r_params (prepareDecision oracle cur avatarId
                                   decision)))) as Hd. fold d in Hd.
  assert (E : (if JS.truthy_num (Some (now + d))
               then nullish (Some (now + d)) 0 else 0) = now + d).
  { simpl. destruct (JS.eq (now + d) 0) eqn:E0; simpl; [|reflexivity].
    apply eq_true in E0. lra. }
  rewrite E. unfold JS.ge. split; intros Ht.
  - apply le_false. lra.
  - apply le_true. lra.
Qed.

Lemma decision_schedules_the_next_one_witness :
  exists av',
    avatar_of (executeDecision humming_oracle 1000 5 initial_world
                 (generateId "avatar" 0) move10 initial_world)
      (generateId "avatar" 0) = Some av' /\
    canAct 1050 av' = false.
Proof.
  destruct (decision_schedules_the_next_one humming_oracle 1000 5
              initial_world (generateId "avatar" 0) move10 initial_world _
              1050 eq_refl) as [av' [Hav' [Hearly _]]].
  exists av'. split; [exact Hav' | apply Hearly; lra].
Defined.

(** X4: a decision leaves the rest of the world alone.  The objects, the
    obstacles, the simulation settings and the running flag are unchanged;
    the avatar list keeps its ids in their order; every conversation stays
    in its place with its id, participants and start time; and every avatar
    other than the decider is unchanged, except that the avatar the
    decision names as its target may get a new conversation target and
    current action. *)
Theorem decision_leaves_the_rest_of_the_world
  oracle now idn cur avatarId decision prev :
  objects (executeDecision oracle now idn cur avatarId decision prev)
  = objects prev /\
  obstacles (executeDecision oracle now idn cur avatarId decision prev)
  = obstacles prev /\
  simulation (executeDecision oracle now idn cur avatarId decision prev)
  = simulation prev /\
  isRunning (executeDecision oracle now idn cur avatarId decision prev)
  = isRunning prev /\
  map id (avatars (executeDecision oracle now idn cur avatarId decision prev))
  = map id (avatars prev) /\
  (forall i c,
     nth_error (conversations prev) i = Some c ->
     exists c',
       nth_error
         (conversations
            (executeDecision oracle now idn cur avatarId decision prev)) i
       = Some c' /\
       conv_id c' = conv_id c /\ participants c' = participants c /\
       startTime c' = startTime c) /\
  (forall i a,
     nth_error (avatars prev) i = Some a -> id a <> avatarId ->
     exists a',
       nth_error
         (avatars (executeDecision oracle now idn cur avatarId decision prev))
         i = Some a' /\
       (a' = a \/ exists t act, a' = with_conversation a t act) /\
       (JS.truthy (opt_param p_targetId (parameters decision))
        <> Some (id a) -> a' = a)).
Proof.
  unfold executeDecision.
  set (r := prepareDecision oracle cur avatarId decision).
  assert (Hcore : objects (applyDecision now idn avatarId r prev)
                  = objects prev /\
                  obstacles (applyDecision now idn avatarId r prev)
                  = obstacles prev /\
                  simulation (applyDecision now idn avatarId r prev)
                  = simulation prev /\
                  isRunning (applyDecision now idn avatarId r prev)
                  = isRunning prev).
  { unfold applyDecision. break_match; auto. }
  destruct Hcore as (H1 & H2 & H3 & H4).
  split; [exact H1|]. split; [exact H2|]. split; [exact H3|].
  split; [exact H4|]. split; [apply applyDecision_ids|]. split.
  - intros i c Hc. unfold applyDecision.
    destruct (JS.findIndex _ (avatars prev)) as [k|]; [|exists c; auto].
    destruct (nth_error (avatars prev) k) as [av|]; [|exists c; auto].
    cbn [conversations with_avatars_conversations].
    apply (resolve_switch_conversations now idn prev avatarId av
             (r_params r) (initialLocals prev av r) i c).
    exact Hc.
  - intros i a Hnth Hne.
    destruct (other_after_applyDecision now idn avatarId r prev i a Hnth Hne)
      as [a' [Ha' [Hshape Hsame]]].
    exists a'. split; [exact Ha'|]. split; [exact Hshape|].
    intros Hnt. destruct Hshape as [E | [t [act E]]]; [exact E|].
    destruct (String.eqb (action decision) "interact_object") eqn:Ei.
    + apply String.eqb_eq in Ei.
      destruct (prepareDecision_interact oracle cur avatarId decision Ei)
        as [_ Hp].
      apply Hsame. fold r in Hp. rewrite Hp. simpl. discriminate.
    + apply String.eqb_neq in Ei. apply Hsame.
      unfold r. rewrite (prepareDecision_params oracle cur avatarId decision Ei).
      exact Hnt.
Qed.

(** X5: a decision changes the decider's position only if it is a move and
    its orientation only if it is a turn; the decider keeps its id, its
    settings and its colour whatever the decision. *)
Theorem only_move_moves_and_only_turn_turns
  oracle now idn cur avatarId decision prev av :
  avatar_of prev avatarId = Some av ->
  exists av',
    avatar_of (executeDecision oracle now idn cur avatarId decision prev)
      avatarId = Some av' /\
    id av' = id av /\ settings av' = settings av /\ color av' = color av /\
    (action decision <> "move" -> position av' = position av) /\
    (action decision <> "turn" -> orientation av' = orientation av).
Proof.
  intros Hav. unfold executeDecision.
  set (r := prepareDecision oracle cur avatarId decision).
  destruct (decider_after_applyDecision now idn avatarId r prev av Hav)
    as [a0 [Ha0 H]].
  eexists. split; [exact H|].
  cbn [id settings color position orientation updatedAvatar].
  assert (Hsame : id a0 = id av /\ settings a0 = settings av /\
                  color a0 = color av).
  { destruct Ha0 as [E | [t [act E]]]; subst a0; auto. }
  destruct Hsame as (E1 & E2 & E3).
  split; [exact E1|]. split; [exact E2|]. split; [exact E3|]. split.
  - intros Hnm. unfold resolvedLocals.
    destruct (resolve_switch_position now idn prev avatarId av (r_params r)
                (initialLocals prev av r)) as [E | [Hm _]]; [exact E|].
    exfalso. apply Hnm. cbn [updateAction initialLocals] in Hm.
    apply (prepareDecision_action oracle cur avatarId decision "move");
      [discriminate | discriminate | exact Hm].
  - intros Hnt. unfold resolvedLocals.
    apply resolve_switch_orientation. cbn [updateAction initialLocals].
    intros Ht. apply Hnt.
    apply (prepareDecision_action oracle cur avatarId decision "turn");
      [discriminate | discriminate | exact Ht].
Qed.

Lemma only_move_moves_and_only_turn_turns_witness :
  exists av',
    avatar_of (executeDecision humming_oracle 1 5 initial_world
                 (generateId "avatar" 0) turn47 initial_world)
      (generateId "avatar" 0) = Some av' /\
    position av' = mkVector2 50 50.
Proof.
  destruct (only_move_moves_and_only_turn_turns humming_oracle 1 5
              initial_world (generateId "avatar" 0) turn47 initial_world _
              eq_refl) as [av' [Hav' [_ [_ [_ [Hpos _]]]]]].
  exists av'. split; [exact Hav'|].
  rewrite Hpos; [reflexivity | discriminate].
Defined.

(** ** Moves *)

Lemma euclidean_same (p : Vector2) : euclidean p p = 0.
Proof.
  unfold euclidean, Rsqr.
  replace ((x p - x p) * (x p - x p) + (y p - y p) * (y p - y p)) with 0
    by ring.
  apply sqrt_0.
Qed.

(** The candidate of a move is at most 15 away from the avatar. *)
Lemma candidate_is_near (av : AvatarState)
  (params : option DecisionParameters) :
  euclidean (position av) (potentialPosition_of av params) <= 15.
Proof.
  unfold euclidean, potentialPosition_of. cbn [x y].
  set (d := clampDistance (nullish (opt_param p_distance params) 0)).
  set (t := orientation av * (PI / 180)).
  pose proof (clampDistance_range (nullish (opt_param p_distance params) 0))
    as Hd. fold d in Hd.
  replace (Rsqr (x (position av) + d * cos t - x (position av))
           + Rsqr (y (position av) + d * sin t - y (position av)))
    with (Rsqr d).
  - rewrite sqrt_Rsqr_abs. unfold Rabs. destruct (Rcase_abs d); lra.
  - pose proof (sin2_cos2 t) as Hsc. unfold Rsqr in *.
    replace (x (position av) + d * cos t - x (position av)) with (d * cos t)
      by ring.
    replace (y (position av) + d * sin t - y (position av)) with (d * sin t)
      by ring.
    replace (d * cos t * (d * cos t) + d * sin t * (d * sin t))
      with (d * d * (sin t * sin t + cos t * cos t)) by ring.
    rewrite Hsc. ring.
Qed.

(** X6: no decision moves an avatar by more than 15, and an avatar whose
    position changes ends on the board, at least the avatar radius 8 from
    every point of every obstacle rectangle and at least 16 from every
    other avatar. *)
Theorem a_move_is_short_and_ends_clear
  oracle now idn cur avatarId decision prev av :
  avatar_of prev avatarId = Some av ->
  exists av',
    avatar_of (executeDecision oracle now idn cur avatarId decision prev)
      avatarId = Some av' /\
    euclidean (position av) (position av') <= 15 /\
    (position av' <> position av ->
     (0 <= x (position av') <= width (boardSize (simulation prev)) /\
      0 <= y (position av') <= height (boardSize (simulation prev))) /\
     (forall ob q, In ob (obstacles prev) -> in_rectangle ob q ->
                   8 <= euclidean (position av') q) /\
     (forall other, In other (avatars prev) -> id other <> avatarId ->
                    16 <= euclidean (position av') (position other))).
Proof.
  intros Hav. unfold executeDecision.
  set (r := prepareDecision oracle cur avatarId decision).
  destruct (avatar_of_applyDecision now idn avatarId r prev av Hav)
    as [a0 [_ H]].
  eexists. split; [exact H|]. cbn [position updatedAvatar].
  unfold resolvedLocals.
  destruct (resolve_switch_position now idn prev avatarId av (r_params r)
              (initialLocals prev av r)) as [E | [_ [Hc E]]]; rewrite E.
  - cbn [newPosition initialLocals]. split.
    + rewrite euclidean_same. lra.
    + intros Hne. contradiction.
  - split; [apply candidate_is_near|]. intros _.
    set (cand := potentialPosition_of av (r_params r)) in *.
    unfold collided in Hc.
    destruct (isPointInBounds cand (boardSize (simulation prev))) eqn:Eb;
      [|discriminate Hc].
    cbn [negb] in Hc.
    destruct (obstacle_collision cand (obstacles prev)) eqn:Eo;
      [discriminate Hc|].
    split; [apply isPointInBounds_true; exact Eb|]. split.
    + intros ob q Hin Hq. rewrite <- distance_euclidean.
      apply Rle_trans with (distance cand (closestPoint cand ob));
        [|apply closestPoint_nearest; exact Hq].
      apply Rnot_lt_le. intros Hlt.
      assert (Ht : obstacle_collision cand (obstacles prev) = true)
        by (apply obstacle_collision_true; exists ob; auto).
      congruence.
    + intros other Hin Hne. rewrite <- distance_euclidean.
      apply Rnot_lt_le. intros Hlt.
      assert (Ht : avatar_collision avatarId cand (avatars prev) = true)
        by (apply avatar_collision_true; exists other; auto).
      congruence.
Qed.

Lemma a_move_is_short_and_ends_clear_witness :
  exists av',
    avatar_of (executeDecision humming_oracle 1 5 initial_world
                 (generateId "avatar" 0) move10 initial_world)
      (generateId "avatar" 0) = Some av' /\
    euclidean (mkVector2 50 50) (position av') <= 15.
Proof.
  destruct (a_move_is_short_and_ends_clear humming_oracle 1 5
              initial_world (generateId "avatar" 0) move10 initial_world _
              eq_refl) as [av' [Hav' [Hshort _]]].
  exists av'. split; [exact Hav' | exact Hshort].
Defined.

(** ** Decisions that only pause *)

(** X7: a decision for an avatar the world no longer has (it was removed
    while its decision was requested) changes nothing, whatever the
    decision and whatever the Interaction Oracle answers. *)
Theorem decision_for_a_missing_avatar_is_ignored
  oracle now idn cur avatarId decision prev :
  avatar_of prev avatarId = None ->
  executeDecision oracle now idn cur avatarId decision prev = prev.
Proof.
  intros Hav. unfold executeDecision, applyDecision.
  unfold avatar_of in Hav. rewrite find_findIndex in Hav.
  destruct (JS.findIndex _ (avatars prev)) as [i|]; [|reflexivity].
  rewrite Hav. reflexivity.
Qed.

Lemma decision_for_a_missing_avatar_is_ignored_witness :
  executeDecision humming_oracle 1 5 initial_world (generateId "avatar" 7)
    greet initial_world
  = initial_world.
Proof.
  apply (decision_for_a_missing_avatar_is_ignored humming_oracle 1 5
           initial_world (generateId "avatar" 7) greet initial_world).
  reflexivity.
Defined.

(** The state update, once the avatar is found. *)
Lemma applyDecision_found now idn avatarId r prev av :
  avatar_of prev avatarId = Some av ->
  exists k,
    nth_error (avatars prev) k = Some av /\
    applyDecision now idn avatarId r prev
    = with_avatars_conversations prev
        (update_at k
           (updatedAvatar now prev av (r_params r)
              (resolvedLocals now idn avatarId r prev av))
           (nextAvatars (resolvedLocals now idn avatarId r prev av)))
        (nextConversations (resolvedLocals now idn avatarId r prev av)).
Proof.
  unfold avatar_of. rewrite find_findIndex. unfold applyDecision.
  destruct (JS.findIndex _ (avatars prev)) as [k|]; [|discriminate].
  intros Hav. rewrite Hav. exists k. split; [exact Hav|].
  rewrite mapi_update_at. reflexivity.
Qed.

(** The [switch] of an action that is none of the five that act. *)
Lemma resolve_switch_pause now idn prev avatarId currentAvatar updateParams l :
  updateAction l <> "turn" -> updateAction l <> "move" ->
  updateAction l <> "initiate_conversation" ->
  updateAction l <> "continue_conversation" ->
  updateAction l <> "disengage_conversation" ->
  exists a,
    (a = "idle" \/ a = "thinking") /\
    resolve_switch now idn prev avatarId currentAvatar updateParams l
    = set_updateAction a l.
Proof.
  intros H1 H2 H3 H4 H5.
  apply String.eqb_neq in H1, H2, H3, H4, H5.
  unfold resolve_switch. rewrite H1, H2, H3, H4, H5.
  destruct (String.eqb (updateAction l) "interact_object");
    [exists "idle"; auto|].
  destruct (String.eqb (updateAction l) "think");
    [exists "thinking"; auto | exists "idle"; auto].
Qed.

Lemma prepareDecision_pause oracle cur avatarId decision (a : string) :
  a <> "idle" -> a <> "thinking" -> action decision <> a ->
  r_action (prepareDecision oracle cur avatarId decision) <> a.
Proof.
  intros Hi Ht Hna E. apply Hna.
  apply (prepareDecision_action oracle cur avatarId decision a Hi Ht E).
Qed.

(** X8: a decision that is neither a turn, a move nor a conversation action
    (idle, think, interact_object, or an unknown action) only pauses the
    decider: the conversations and every other avatar are unchanged, and the
    decider keeps its position, orientation and conversation target and is
    left without a current action. *)
Theorem a_pause_changes_only_the_decider
  oracle now idn cur avatarId decision prev av :
  action decision <> "turn" -> action decision <> "move" ->
  action decision <> "initiate_conversation" ->
  action decision <> "continue_conversation" ->
  action decision <> "disengage_conversation" ->
  avatar_of prev avatarId = Some av ->
  conversations (executeDecision oracle now idn cur avatarId decision prev)
  = conversations prev /\
  (forall i a,
     nth_error (avatars prev) i = Some a -> id a <> avatarId ->
     nth_error
       (avatars (executeDecision oracle now idn cur avatarId decision prev)) i
     = Some a) /\
  exists av',
    avatar_of (executeDecision oracle now idn cur avatarId decision prev)
      avatarId = Some av' /\
    position av' = position av /\ orientation av' = orientation av /\
    conversationTarget av' = conversationTarget av /\
    currentAction av' = None.
Proof.
  intros H1 H2 H3 H4 H5 Hav. unfold executeDecision.
  set (r := prepareDecision oracle cur avatarId decision).
  destruct (resolve_switch_pause now idn prev avatarId av (r_params r)
              (initialLocals prev av r)) as [a [Ha El]];
    try (cbn [updateAction initialLocals];
         apply prepareDecision_pause; [discriminate | discriminate | assumption]).
  fold (resolvedLocals now idn avatarId r prev av) in El.
  destruct (applyDecision_found now idn avatarId r prev av Hav)
    as [k [Hk Eapp]].
  destruct (avatar_of_applyDecision now idn avatarId r prev av Hav)
    as [a0 [_ Hnew]].
  split; [|split].
  - rewrite Eapp, El. reflexivity.
  - intros i b Hnth Hne. rewrite Eapp, El.
    cbn [avatars with_avatars_conversations nextAvatars set_updateAction
         initialLocals].
    rewrite update_at_nth_error, Hnth.
    destruct (Nat.eqb_spec i k) as [E|E]; [|reflexivity].
    subst i. rewrite Hnth in Hk. injection Hk as Hk. subst b.
    exfalso. apply Hne. apply (avatar_of_id prev). exact Hav.
  - eexists. split; [exact Hnew|]. rewrite El.
    cbn [position orientation conversationTarget currentAction updatedAvatar
         newPosition newOrientation newConversationTarget updateAction
         set_updateAction initialLocals].
    repeat split.
    destruct Ha as [E | E]; subst a; reflexivity.
Qed.

(** The fallback decision of the loop, resolved for the first avatar of the
    default world. *)
Lemma a_pause_changes_only_the_decider_witness :
  conversations (executeDecision humming_oracle 1 5 initial_world
                   (generateId "avatar" 0) fallbackDecision initial_world)
  = [].
Proof.
  assert (Hna : forall a : string,
             String.eqb "idle" a = false -> action fallbackDecision <> a).
  { intros a E. apply String.eqb_neq. exact E. }
  destruct (a_pause_changes_only_the_decider humming_oracle 1 5
              initial_world (generateId "avatar" 0) fallbackDecision
              initial_world _
              (Hna "turn" eq_refl) (Hna "move" eq_refl)
              (Hna "initiate_conversation" eq_refl)
              (Hna "continue_conversation" eq_refl)
              (Hna "disengage_conversation" eq_refl) eq_refl) as [Hc _].
  exact Hc.
Defined.

(** ** The conversation actions *)

Lemma find_by_id_map (f : AvatarState -> AvatarState)
  (l : list AvatarState) (B : string) :
  (forall a, id (f a) = id a) ->
  find (fun a => String.eqb (id a) B) (map f l)
  = option_map f (find (fun a => String.eqb (id a) B) l).
Proof.
  intros Hf. induction l as [|a l IH]; simpl; [reflexivity|].
  rewrite Hf. destruct (String.eqb (id a) B); [reflexivity | exact IH].
Qed.

Lemma find_by_id_update_at (g : AvatarState -> AvatarState)
  (l : list AvatarState) (k : nat) (ak : AvatarState) (B : string) :
  (forall a, id (g a) = id a) ->
  nth_error l k = Some ak -> id ak <> B ->
  find (fun a => String.eqb (id a) B) (update_at k g l)
  = find (fun a => String.eqb (id a) B) l.
Proof.
  intros Hg. revert k. induction l as [|a l IH]; intros [|k] Hk Hne;
    simpl in *; try discriminate.
  - injection Hk as Hk. subst a. rewrite Hg.
    apply String.eqb_neq in Hne. rewrite Hne. reflexivity.
  - destruct (String.eqb (id a) B); [reflexivity|].
    apply IH; assumption.
Qed.

(** The partner's entry after the state update: the one the [switch] left. *)
Lemma partner_after_applyDecision now idn avatarId r prev av (B : string) :
  avatar_of prev avatarId = Some av -> B <> avatarId ->
  avatar_of (applyDecision now idn avatarId r prev) B
  = find (fun a => String.eqb (id a) B)
      (nextAvatars (resolvedLocals now idn avatarId r prev av)).
Proof.
  intros Hav Hne.
  destruct (applyDecision_found now idn avatarId r prev av Hav)
    as [k [Hk Eapp]].
  rewrite Eapp. unfold avatar_of.
  cbn [avatars with_avatars_conversations].
  destruct (resolve_switch_avatars now idn prev avatarId av (r_params r)
              (initialLocals prev av r)) as [f [Hf Hshape]].
  fold (resolvedLocals now idn avatarId r prev av) in Hf.
  cbn [nextAvatars initialLocals] in Hf.
  apply (find_by_id_update_at _ _ k (f av)).
  - intros a. reflexivity.
  - rewrite Hf, nth_error_map, Hk. reflexivity.
  - assert (Hid : id (f av) = id av).
    { destruct (Hshape av) as [E | [_ [t [act E]]]]; rewrite E; reflexivity. }
    rewrite Hid, (avatar_of_id prev avatarId av Hav). congruence.
Qed.

(** The action, parameters and thought of a conversation decision reach the
    [switch] as they are. *)
Lemma prepareDecision_conversation oracle cur avatarId decision :
  action decision = "initiate_conversation" \/
  action decision = "continue_conversation" \/
  action decision = "disengage_conversation" ->
  r_action (prepareDecision oracle cur avatarId decision) = action decision /\
  r_params (prepareDecision oracle cur avatarId decision)
  = parameters decision.
Proof.
  intros H. unfold prepareDecision.
  destruct H as [H | [H | H]]; rewrite H; split; reflexivity.
Qed.

(** X9: an initiate_conversation decision that names another avatar as its
    target and carries a message, resolved while neither the decider nor the
    target is in a conversation, opens one: exactly one conversation is
    appended, between the decider and the target, not ended, started now and
    holding the opening message as its only message; both avatars point at
    each other and are conversing. *)
Theorem initiate_conversation_opens_a_conversation
  oracle now idn cur avatarId decision prev av :
  action decision = "initiate_conversation" ->
  avatar_of prev avatarId = Some av ->
  can_initiate prev avatarId av (parameters decision) ->
  exists B m a' b',
    JS.truthy (opt_param p_targetId (parameters decision)) = Some B /\
    JS.truthy (opt_param p_message (parameters decision)) = Some m /\
    conversations (executeDecision oracle now idn cur avatarId decision prev)
    = conversations prev
        ++ [ {| conv_id := "conversation-" ++ JS.show_nat idn;
                participants := (avatarId, B);
                messages := [mkConversationMessage avatarId m now];
                startTime := now;
                endTime := None |} ] /\
    avatar_of (executeDecision oracle now idn cur avatarId decision prev)
      avatarId = Some a' /\
    conversationTarget a' = Some B /\ currentAction a' = Some "conversing" /\
    avatar_of (executeDecision oracle now idn cur avatarId decision prev) B
    = Some b' /\
    conversationTarget b' = Some avatarId /\
    currentAction b' = Some "conversing".
Proof.
  intros Hact Hav (B & m & avB & HB & Hm & Hfree & HavB & Hne & HfreeB).
  unfold executeDecision.
  set (r := prepareDecision oracle cur avatarId decision).
  destruct (prepareDecision_conversation oracle cur avatarId decision
              (or_introl Hact)) as [Hra Hrp].
  fold r in Hra, Hrp.
  assert (El : resolvedLocals now idn avatarId r prev av
               = set_updateAction "conversing"
                   (set_nextAvatars
                      (map (fun a =>
                              if String.eqb (id a) avatarId
                              then with_conversation a (Some B)
                                     (Some "conversing")
                              else if String.eqb (id a) B
                              then with_conversation a (Some avatarId)
                                     (Some "conversing")
                              else a)
                           (avatars prev))
                      (set_newConversationTarget (Some B)
                         (set_nextConversations
                            (conversations prev
                               ++ [ {| conv_id :=
                                         "conversation-" ++ JS.show_nat idn;
                                       participants := (avatarId, B);
                                       messages :=
                                         [mkConversationMessage avatarId m now];
                                       startTime := now;
                                       endTime := None |} ])
                            (initialLocals prev av r))))).
  { unfold resolvedLocals, resolve_switch.
    cbn [updateAction initialLocals]. rewrite Hra, Hact, Hrp.
    cbn [String.eqb Ascii.eqb Bool.eqb].
    unfold initiate_case. rewrite HB, Hm, Hfree.
    unfold avatar_of in HavB. rewrite HavB.
    apply String.eqb_neq in Hne. rewrite Hne. cbn [negb].
    rewrite HfreeB. reflexivity. }
  destruct (applyDecision_found now idn avatarId r prev av Hav)
    as [k [Hk Eapp]].
  destruct (avatar_of_applyDecision now idn avatarId r prev av Hav)
    as [a0 [_ Hnew]].
  pose proof (partner_after_applyDecision now idn avatarId r prev av B Hav Hne)
    as Hpartner.
  rewrite El in Hnew, Hpartner.
  cbn [nextAvatars set_updateAction set_nextAvatars] in Hpartner.
  rewrite find_by_id_map in Hpartner
    by (intros a; destruct (String.eqb (id a) avatarId);
        [reflexivity | destruct (String.eqb (id a) B); reflexivity]).
  unfold avatar_of in HavB. rewrite HavB in Hpartner. cbn [option_map] in Hpartner.
  assert (HidB : id avB = B).
  { apply find_some in HavB. apply String.eqb_eq. tauto. }
  rewrite HidB in Hpartner.
  apply String.eqb_neq in Hne. rewrite Hne, String.eqb_refl in Hpartner.
  exists B, m. eexists. eexists.
  split; [exact HB|]. split; [exact Hm|]. split.
  - rewrite Eapp, El. reflexivity.
  - split; [exact Hnew|]. split; [reflexivity|]. split; [reflexivity|].
    split; [exact Hpartner|]. split; reflexivity.
Qed.

(** Scenario B: in the default world avatar-0 greets avatar-1. *)
Lemma initiate_conversation_opens_a_conversation_witness :
  exists B m a' b',
    JS.truthy (opt_param p_targetId (parameters greet)) = Some B /\
    JS.truthy (opt_param p_message (parameters greet)) = Some m /\
    conversations (executeDecision humming_oracle 1 5 initial_world
                     (generateId "avatar" 0) greet initial_world)
    = conversations initial_world
        ++ [ {| conv_id := "conversation-" ++ JS.show_nat 5;
                participants := (generateId "avatar" 0, B);
                messages :=
                  [mkConversationMessage (generateId "avatar" 0) m 1];
                startTime := 1;
                endTime := None |} ] /\
    avatar_of (executeDecision humming_oracle 1 5 initial_world
                 (generateId "avatar" 0) greet initial_world)
      (generateId "avatar" 0) = Some a' /\
    conversationTarget a' = Some B /\ currentAction a' = Some "conversing" /\
    avatar_of (executeDecision humming_oracle 1 5 initial_world
                 (generateId "avatar" 0) greet initial_world) B
    = Some b' /\
    conversationTarget b' = Some (generateId "avatar" 0) /\
    currentAction b' = Some "conversing".
Proof.
  apply (initiate_conversation_opens_a_conversation humming_oracle 1 5
           initial_world (generateId "avatar" 0) greet initial_world
           first_avatar eq_refl eq_refl).
  exists (generateId "avatar" 1), "Hello". eexists.
  repeat split; try reflexivity. discriminate.
Defined.

(** A refused [initiate_conversation] falls back to idle with a note. *)
Lemma initiate_case_refused now idn prev avatarId av params l :
  ~ can_initiate prev avatarId av params ->
  exists note,
    initiate_case now idn prev avatarId av params l = downgrade note l.
Proof.
  intros Hno. unfold initiate_case.
  destruct (JS.truthy (opt_param p_targetId params)) as [B|] eqn:HB;
    [|eexists; reflexivity].
  destruct (JS.truthy (opt_param p_message params)) as [m|] eqn:Hm;
    [|eexists; reflexivity].
  destruct (JS.truthy (conversationTarget av)) eqn:Hfree;
    [eexists; reflexivity|].
  destruct (find _ (avatars prev)) as [avB|] eqn:HavB;
    [|eexists; reflexivity].
  destruct (String.eqb B avatarId) eqn:Hne; cbn [negb];
    [eexists; reflexivity|].
  destruct (JS.truthy (conversationTarget avB)) eqn:HfreeB;
    [eexists; reflexivity|].
  exfalso. apply Hno. exists B, m, avB.
  apply String.eqb_neq in Hne. repeat split; assumption.
Qed.

(** X10: an initiate_conversation decision that cannot open a conversation
    (the target id or the message is missing, the decider or the target is
    already in a conversation, the target does not exist or is the decider
    itself) opens none: the conversations and every other avatar are
    unchanged, and the decider keeps its position and conversation target,
    is left without a current action, and has a note appended to its
    thought. *)
Theorem refused_initiate_conversation_opens_nothing
  oracle now idn cur avatarId decision prev av :
  action decision = "initiate_conversation" ->
  avatar_of prev avatarId = Some av ->
  ~ can_initiate prev avatarId av (parameters decision) ->
  conversations (executeDecision oracle now idn cur avatarId decision prev)
  = conversations prev /\
  (forall i a,
     nth_error (avatars prev) i = Some a -> id a <> avatarId ->
     nth_error
       (avatars (executeDecision oracle now idn cur avatarId decision prev)) i
     = Some a) /\
  exists av' note,
    avatar_of (executeDecision oracle now idn cur avatarId decision prev)
      avatarId = Some av' /\
    position av' = position av /\
    conversationTarget av' = conversationTarget av /\
    currentAction av' = None /\
    thought av' = annotate (JS.truthy (d_thought decision)) note.
Proof.
  intros Hact Hav Hno. unfold executeDecision.
  set (r := prepareDecision oracle cur avatarId decision).
  destruct (prepareDecision_conversation oracle cur avatarId decision
              (or_introl Hact)) as [Hra Hrp].
  fold r in Hra, Hrp.
  assert (Hth : JS.truthy (r_thought r) = JS.truthy (d_thought decision)).
  { unfold r, prepareDecision. rewrite Hact. cbn [String.eqb Ascii.eqb Bool.eqb].
    cbn [r_thought].
    destruct (d_thought decision) as [t|]; [|reflexivity]. simpl.
    destruct (String.eqb t EmptyString) eqn:E; [reflexivity|].
    simpl. rewrite E. reflexivity. }
  rewrite <- Hrp in Hno.
  destruct (initiate_case_refused now idn prev avatarId av (r_params r)
              (initialLocals prev av r) Hno) as [note Hcase].
  assert (El : resolvedLocals now idn avatarId r prev av
               = downgrade note (initialLocals prev av r)).
  { unfold resolvedLocals, resolve_switch.
    cbn [updateAction initialLocals]. rewrite Hra, Hact.
    cbn [String.eqb Ascii.eqb Bool.eqb]. exact Hcase. }
  destruct (applyDecision_found now idn avatarId r prev av Hav)
    as [k [Hk Eapp]].
  destruct (avatar_of_applyDecision now idn avatarId r prev av Hav)
    as [a0 [_ Hnew]].
  split; [|split].
  - rewrite Eapp, El. reflexivity.
  - intros i b Hnth Hne. rewrite Eapp, El.
    cbn [avatars with_avatars_conversations nextAvatars downgrade
         set_finalThought set_updateAction initialLocals].
    rewrite update_at_nth_error, Hnth.
    destruct (Nat.eqb_spec i k) as [E|E]; [|reflexivity].
    subst i. rewrite Hnth in Hk. injection Hk as Hk. subst b.
    exfalso. apply Hne. apply (avatar_of_id prev). exact Hav.
  - eexists. exists note. split; [exact Hnew|]. rewrite El.
    cbn [position conversationTarget currentAction thought updatedAvatar
         newPosition newConversationTarget updateAction finalThought
         downgrade set_finalThought set_updateAction initialLocals].
    repeat split. unfold annotate. rewrite Hth.
    destruct (JS.truthy (d_thought decision)) as [t|] eqn:Et;
      [|reflexivity].
    apply truthy_Some in Et. destruct Et as [_ Hne].
    rewrite (truthy_of_nonempty t Hne). reflexivity.
Qed.

(** In the default world avatar-0 greets an avatar that does not exist. *)
Lemma refused_initiate_conversation_opens_nothing_witness :
  conversations (executeDecision humming_oracle 1 5 initial_world
                   (generateId "avatar" 0)
                   (mkLLMDecision "initiate_conversation"
                      (Some (mkDecisionParameters None None
                               (Some (generateId "avatar" 7)) (Some "Hello")
                               None))
                      None)
                   initial_world)
  = [].
Proof.
  destruct (refused_initiate_conversation_opens_nothing humming_oracle 1 5
              initial_world (generateId "avatar" 0)
              (mkLLMDecision "initiate_conversation"
                 (Some (mkDecisionParameters None None
                          (Some (generateId "avatar" 7)) (Some "Hello")
                          None))
                 None)
              initial_world first_avatar eq_refl eq_refl) as [Hc _].
  - intros (B & m & avB & HB & _ & _ & HavB & _).
    simpl in HB. injection HB as HB. subst B. discriminate HavB.
  - exact Hc.
Defined.

(** [arr.slice(-n)] keeps at most [n] elements, the last ones. *)
Lemma slice_last_length {A : Type} (n : nat) (l : list A) :
  List.length (JS.slice_last n l) = Nat.min n (List.length l).
Proof. unfold JS.slice_last. rewrite length_skipn. lia. Qed.

Lemma slice_last_suffix {A : Type} (n : nat) (l : list A) :
  exists pre, l = pre ++ JS.slice_last n l.
Proof.
  exists (firstn (List.length l - n) l). unfold JS.slice_last.
  symmetry. apply firstn_skipn.
Qed.

Lemma with_message_bound (m : ConversationMessage) (c : Conversation) :
  (List.length (messages (with_message m c)) <= 20)%nat /\
  nth_error (messages (with_message m c))
    (List.length (messages (with_message m c)) - 1) = Some m.
Proof.
  unfold with_message. cbn [messages].
  rewrite length_app, slice_last_length. cbn [List.length]. split; [lia|].
  rewrite nth_error_app2 by (rewrite slice_last_length; lia).
  rewrite slice_last_length.
  replace (Nat.min 19 (List.length (messages c)) + 1 - 1
           - Nat.min 19 (List.length (messages c)))%nat with 0%nat by lia.
  reflexivity.
Qed.

Lemma seq_refl (t : string) : JS.seq (Some t) (Some t) = true.
Proof. simpl. apply String.eqb_refl. Qed.

(** X11: a continue_conversation decision that names the avatar's current
    partner and carries a message, resolved while the pair has an open
    conversation, appends the message to that conversation and to no other:
    the conversation keeps its last 19 messages before the new one, so it
    never holds more than 20; the decider stays with its partner,
    conversing, and every other avatar is unchanged. *)
Theorem continue_conversation_appends_the_message
  oracle now idn cur avatarId decision prev av (B m : string) (i : nat) :
  action decision = "continue_conversation" ->
  avatar_of prev avatarId = Some av ->
  JS.truthy (opt_param p_targetId (parameters decision)) = Some B ->
  JS.truthy (opt_param p_message (parameters decision)) = Some m ->
  conversationTarget av = Some B ->
  JS.findIndex (active_between avatarId B) (conversations prev) = Some i ->
  conversations (executeDecision oracle now idn cur avatarId decision prev)
  = update_at i (with_message (mkConversationMessage avatarId m now))
      (conversations prev) /\
  (forall c,
     (List.length
        (messages (with_message (mkConversationMessage avatarId m now) c))
      <= 20)%nat /\
     nth_error
       (messages (with_message (mkConversationMessage avatarId m now) c))
       (List.length
          (messages (with_message (mkConversationMessage avatarId m now) c))
        - 1)
     = Some (mkConversationMessage avatarId m now)) /\
  (forall j a,
     nth_error (avatars prev) j = Some a -> id a <> avatarId ->
     nth_error
       (avatars (executeDecision oracle now idn cur avatarId decision prev)) j
     = Some a) /\
  exists av',
    avatar_of (executeDecision oracle now idn cur avatarId decision prev)
      avatarId = Some av' /\
    conversationTarget av' = Some B /\
    currentAction av' = Some "conversing".
Proof.
  intros Hact Hav HB Hm Ht Hi. unfold executeDecision.
  set (r := prepareDecision oracle cur avatarId decision).
  destruct (prepareDecision_conversation oracle cur avatarId decision
              (or_intror (or_introl Hact))) as [Hra Hrp].
  fold r in Hra, Hrp.
  assert (El : resolvedLocals now idn avatarId r prev av
               = set_updateAction "conversing"
                   (set_nextConversations
                      (update_at i
                         (with_message (mkConversationMessage avatarId m now))
                         (conversations prev))
                      (initialLocals prev av r))).
  { unfold resolvedLocals, resolve_switch.
    cbn [updateAction initialLocals]. rewrite Hra, Hact, Hrp.
    cbn [String.eqb Ascii.eqb Bool.eqb].
    unfold continue_case. rewrite HB, Hm, Ht, seq_refl, Hi. reflexivity. }
  destruct (applyDecision_found now idn avatarId r prev av Hav)
    as [k [Hk Eapp]].
  destruct (avatar_of_applyDecision now idn avatarId r prev av Hav)
    as [a0 [_ Hnew]].
  split; [|split; [|split]].
  - rewrite Eapp, El. reflexivity.
  - intros c. apply with_message_bound.
  - intros j b Hnth Hne. rewrite Eapp, El.
    cbn [avatars with_avatars_conversations nextAvatars
         set_nextConversations set_updateAction initialLocals].
    rewrite update_at_nth_error, Hnth.
    destruct (Nat.eqb_spec j k) as [E|E]; [|reflexivity].
    subst j. rewrite Hnth in Hk. injection Hk as Hk. subst b.
    exfalso. apply Hne. apply (avatar_of_id prev). exact Hav.
  - eexists. split; [exact Hnew|]. rewrite El.
    cbn [conversationTarget currentAction updatedAvatar
         newConversationTarget updateAction set_nextConversations
         set_updateAction initialLocals].
    split; [exact Ht | reflexivity].
Qed.

(** After the greeting of Scenario B, avatar-0 goes on talking to
    avatar-1. *)
Lemma continue_conversation_appends_the_message_witness :
  conversations
    (executeDecision humming_oracle 2 6 greeted_world (generateId "avatar" 0)
       (mkLLMDecision "continue_conversation"
          (Some (mkDecisionParameters None None
                   (Some (generateId "avatar" 1)) (Some "How are you?")
                   None))
          None)
       greeted_world)
  = update_at 0
      (with_message
         (mkConversationMessage (generateId "avatar" 0) "How are you?" 2))
      (conversations greeted_world).
Proof.
  assert (Hav : exists av,
             avatar_of greeted_world (generateId "avatar" 0) = Some av /\
             conversationTarget av = Some (generateId "avatar" 1)).
  { eexists. split; [vm_compute; reflexivity | reflexivity]. }
  destruct Hav as [av [Hav Ht]].
  destruct (continue_conversation_appends_the_message humming_oracle 2 6
              greeted_world (generateId "avatar" 0)
              (mkLLMDecision "continue_conversation"
                 (Some (mkDecisionParameters None None
                          (Some (generateId "avatar" 1))
                          (Some "How are you?") None))
                 None)
              greeted_world av (generateId "avatar" 1) "How are you?" 0
              eq_refl Hav eq_refl eq_refl Ht) as [Hc _].
  - vm_compute. reflexivity.
  - exact Hc.
Defined.

(** X12: a disengage_conversation decision that names the avatar's current
    partner, resolved while the pair has an open conversation, ends that
    conversation now and no other, and frees both avatars: neither has a
    conversation target or a current action afterwards. *)
Theorem disengage_conversation_ends_the_conversation
  oracle now idn cur avatarId decision prev av avB (B : string) (i : nat) :
  action decision = "disengage_conversation" ->
  avatar_of prev avatarId = Some av ->
  JS.truthy (opt_param p_targetId (parameters decision)) = Some B ->
  conversationTarget av = Some B ->
  avatar_of prev B = Some avB -> B <> avatarId ->
  JS.findIndex (active_between avatarId B) (conversations prev) = Some i ->
  conversations (executeDecision oracle now idn cur avatarId decision prev)
  = update_at i (ended_at now) (conversations prev) /\
  exists a' b',
    avatar_of (executeDecision oracle now idn cur avatarId decision prev)
      avatarId = Some a' /\
    conversationTarget a' = None /\ currentAction a' = None /\
    avatar_of (executeDecision oracle now idn cur avatarId decision prev) B
    = Some b' /\
    conversationTarget b' = None /\ currentAction b' = None.
Proof.
  intros Hact Hav HB Ht HavB Hne Hi. unfold executeDecision.
  set (r := prepareDecision oracle cur avatarId decision).
  destruct (prepareDecision_conversation oracle cur avatarId decision
              (or_intror (or_intror Hact))) as [Hra Hrp].
  fold r in Hra, Hrp.
  assert (El : resolvedLocals now idn avatarId r prev av
               = set_updateAction "idle"
                   (set_newConversationTarget None
                      (set_nextAvatars
                         (map (fun a =>
                                 if String.eqb (id a) avatarId
                                    || String.eqb (id a) B
                                 then with_conversation a None None
                                 else a)
                              (avatars prev))
                         (set_nextConversations
                            (update_at i (ended_at now) (conversations prev))
                            (initialLocals prev av r))))).
  { unfold resolvedLocals, resolve_switch.
    cbn [updateAction initialLocals]. rewrite Hra, Hact, Hrp.
    cbn [String.eqb Ascii.eqb Bool.eqb].
    unfold disengage_case. rewrite HB, Ht, seq_refl, Hi. reflexivity. }
  destruct (applyDecision_found now idn avatarId r prev av Hav)
    as [k [Hk Eapp]].
  destruct (avatar_of_applyDecision now idn avatarId r prev av Hav)
    as [a0 [_ Hnew]].
  pose proof (partner_after_applyDecision now idn avatarId r prev av B Hav Hne)
    as Hpartner.
  rewrite El in Hnew, Hpartner.
  cbn [nextAvatars set_updateAction set_newConversationTarget set_nextAvatars]
    in Hpartner.
  rewrite find_by_id_map in Hpartner
    by (intros a; destruct (String.eqb (id a) avatarId
                            || String.eqb (id a) B); reflexivity).
  unfold avatar_of in HavB. rewrite HavB in Hpartner.
  cbn [option_map] in Hpartner.
  assert (HidB : id avB = B).
  { apply find_some in HavB. apply String.eqb_eq. tauto. }
  rewrite HidB, String.eqb_refl, orb_true_r in Hpartner.
  split.
  - rewrite Eapp, El. reflexivity.
  - eexists. eexists. split; [exact Hnew|].
    split; [reflexivity|]. split; [reflexivity|].
    split; [exact Hpartner|]. split; reflexivity.
Qed.

(** Scenario C: after the greeting of Scenario B, avatar-0 disengages. *)
Lemma disengage_conversation_ends_the_conversation_witness :
  conversations
    (executeDecision humming_oracle 2 6 greeted_world (generateId "avatar" 0)
       (mkLLMDecision "disengage_conversation"
          (Some (mkDecisionParameters None None
                   (Some (generateId "avatar" 1)) None None))
          None)
       greeted_world)
  = update_at 0 (ended_at 2) (conversations greeted_world).
Proof.
  assert (Hav : exists av,
             avatar_of greeted_world (generateId "avatar" 0) = Some av /\
             conversationTarget av = Some (generateId "avatar" 1)).
  { eexists. split; [vm_compute; reflexivity | reflexivity]. }
  destruct Hav as [av [Hav Ht]].
  assert (HavB : exists avB,
             avatar_of greeted_world (generateId "avatar" 1) = Some avB).
  { eexists. vm_compute. reflexivity. }
  destruct HavB as [avB HavB].
  destruct (disengage_conversation_ends_the_conversation humming_oracle 2 6
              greeted_world (generateId "avatar" 0)
              (mkLLMDecision "disengage_conversation"
                 (Some (mkDecisionParameters None None
                          (Some (generateId "avatar" 1)) None None))
                 None)
              greeted_world av avB (generateId "avatar" 1) 0
              eq_refl Hav eq_refl Ht HavB) as [Hc _].
  - discriminate.
  - vm_compute. reflexivity.
  - exact Hc.
Defined.

(** ** The conversation invariant *)

(** X13: in a reachable world, resolving a decision keeps the conversation
    invariant (the open conversations and the avatars' conversation targets
    agree), provided that a continue_conversation decided by an avatar that
    is in a conversation names that avatar's partner and carries a message.
    Every other decision, well-formed or not, keeps it. *)
Theorem decisions_keep_the_conversation_invariant
  oracle now idn cur avatarId decision w :
  reachable w -> now <> 0 ->
  conversation_invariant (state w) ->
  (forall av B,
     avatar_of (state w) avatarId = Some av ->
     action decision = "continue_conversation" ->
     conversationTarget av = Some B ->
     JS.truthy (opt_param p_targetId (parameters decision)) = Some B /\
     JS.truthy (opt_param p_message (parameters decision)) <> None) ->
  conversation_invariant
    (executeDecision oracle now idn cur avatarId decision (state w)).
Proof.
  intros Hw Hnow Hinv Hcont.
  apply (executeDecision_preserves_invariant oracle now idn cur avatarId
           decision w Hnow (proj2 (reachable_invariant w Hw)) Hinv).
  intros av Hav Hact.
  assert (Hd : action decision = "continue_conversation").
  { apply (prepareDecision_action oracle cur avatarId decision
             "continue_conversation"); [discriminate | discriminate | exact Hact]. }
  destruct (conversationTarget av) as [B|] eqn:Ht; [right | left; reflexivity].
  destruct (Hcont av B Hav Hd Ht) as [HB Hm].
  destruct (prepareDecision_conversation oracle cur avatarId decision
              (or_intror (or_introl Hd))) as [_ Hrp].
  destruct (JS.truthy (opt_param p_message (parameters decision)))
    as [m|] eqn:Em; [|contradiction].
  exists B, m. rewrite Hrp. auto.
Qed.

(** The greeting of Scenario B keeps the invariant of the default world. *)
Lemma decisions_keep_the_conversation_invariant_witness :
  conversation_invariant
    (executeDecision humming_oracle 1 5 initial_world (generateId "avatar" 0)
       greet initial_world).
Proof.
  apply (decisions_keep_the_conversation_invariant humming_oracle 1 5
           initial_world (generateId "avatar" 0) greet
           (mkWorld 5 initial_world)).
  - apply (reachable_initial 0 0).
  - lra.
  - apply conversation_invariantb_true. vm_compute. reflexivity.
  - intros av B _ Hact. discriminate Hact.
Defined.

(** X14: removing an avatar from a world of more than two takes it off the
    avatar list, sets the end time of each of its open conversations to
    [now] and changes no other conversation; each partner of such a
    conversation is left without a conversation target and without a
    current action; and every avatar that remains keeps its id, position,
    orientation and settings. *)
Theorem removing_an_avatar_ends_its_conversations
  (now : R) (x : string) (s : AppState) :
  (2 < List.length (avatars s))%nat ->
  (forall a, In a (avatars (removeAvatar now x s)) -> id a <> x) /\
  conversations (removeAvatar now x s)
  = map (fun c => if ends_with x c then ended_at now c else c)
        (conversations s) /\
  (forall c b a',
     In c (conversations s) -> ends_with x c = true ->
     b = fst (participants c) \/ b = snd (participants c) -> b <> x ->
     In a' (avatars (removeAvatar now x s)) -> id a' = b ->
     conversationTarget a' = None /\ currentAction a' = None) /\
  (forall a',
     In a' (avatars (removeAvatar now x s)) ->
     exists a,
       In a (avatars s) /\ id a' = id a /\ position a' = position a /\
       orientation a' = orientation a /\ settings a' = settings a).
Proof.
  intros Hlen. unfold removeAvatar.
  destruct (run_with_logs_core now (fst (removeAvatar_update now x s))
              (snd (removeAvatar_update now x s)))
    as (Ha & _ & _ & Hc & _).
  rewrite <- surjective_pairing in Ha, Hc. rewrite Ha, Hc. clear Ha Hc.
  unfold removeAvatar_update.
  destruct (Nat.leb (List.length (avatars s)) 2) eqn:E;
    [apply Nat.leb_le in E; lia|].
  cbn [fst avatars conversations with_avatars_conversations].
  set (partners := flat_map _ _).
  assert (Hin : forall a',
             In a' (map (fun a =>
                           if existsb (String.eqb (id a)) partners
                           then with_conversation a None None else a)
                        (filter (fun a => negb (String.eqb (id a) x))
                                (avatars s))) ->
             exists a,
               In a (avatars s) /\ id a <> x /\
               a' = (if existsb (String.eqb (id a)) partners
                     then with_conversation a None None else a)).
  { intros a' H. apply in_map_iff in H. destruct H as [a [Ea H]].
    apply filter_In in H. destruct H as [H Hne].
    exists a. split; [exact H|]. split; [|symmetry; exact Ea].
    apply negb_true_iff in Hne. apply String.eqb_neq. exact Hne. }
  split; [|split; [|split]].
  - intros a' H. destruct (Hin a' H) as [a [_ [Hne Ea]]]. subst a'.
    destruct (existsb _ partners); exact Hne.
  - reflexivity.
  - intros c b a' Hc Hends Hb Hbx H Hid.
    destruct (Hin a' H) as [a [_ [_ Ea]]].
    assert (Hida : id a = b).
    { subst a'. destruct (existsb _ partners); exact Hid. }
    assert (Hp : existsb (String.eqb (id a)) partners = true).
    { apply existsb_exists. exists b. split; [|rewrite Hida; apply String.eqb_refl].
      unfold partners. apply in_flat_map. exists c. split.
      - apply filter_In. auto.
      - apply filter_In. split.
        + destruct Hb as [Hb | Hb]; subst b; simpl; auto.
        + apply negb_true_iff. apply String.eqb_neq. exact Hbx. }
    rewrite Hp in Ea. subst a'. split; reflexivity.
  - intros a' H. destruct (Hin a' H) as [a [Ha [_ Ea]]]. exists a.
    split; [exact Ha|]. subst a'.
    destruct (existsb _ partners); repeat split; reflexivity.
Qed.

(** Scenario D: a third avatar joins the world in which avatar-0 talks to
    avatar-1; then avatar-0 is removed. *)
Lemma removing_an_avatar_ends_its_conversations_witness :
  conversations
    (removeAvatar 3 (generateId "avatar" 0)
       (addAvatar 2 6 (1 / 2) (1 / 2) 0 "hsl(275.016, 70%, 60%)"
          greeted_world))
  = map (fun c => if ends_with (generateId "avatar" 0) c
                  then ended_at 3 c else c)
        (conversations
           (addAvatar 2 6 (1 / 2) (1 / 2) 0 "hsl(275.016, 70%, 60%)"
              greeted_world)).
Proof.
  destruct (removing_an_avatar_ends_its_conversations 3
              (generateId "avatar" 0)
              (addAvatar 2 6 (1 / 2) (1 / 2) 0 "hsl(275.016, 70%, 60%)"
                 greeted_world)) as [_ [Hc _]].
  - vm_compute. lia.
  - exact Hc.
Defined.

Lemma removeAvatar_preserves_invariant_witness :
  conversation_invariant
    (removeAvatar 3 (generateId "avatar" 0)
       (addAvatar 2 6 (1 / 2) (1 / 2) 0 "hsl(275.016, 70%, 60%)"
          greeted_world)).
Proof.
  apply (removeAvatar_preserves_invariant 3 (generateId "avatar" 0)
           (addAvatar 2 6 (1 / 2) (1 / 2) 0 "hsl(275.016, 70%, 60%)"
              greeted_world)).
  - lra.
  - apply conversation_invariantb_true. vm_compute. reflexivity.
Defined.

(** ** Bounds of the reachable worlds *)

Lemma mapi_from_map {A B D : Type} (g : B -> D) (F : A -> nat -> B)
  (h : A -> D) (l : list A) (i : nat) :
  (forall a k, g (F a k) = h a) -> map g (JS.mapi_from i F l) = map h l.
Proof.
  intros H. revert i. induction l as [|a l IH]; intros i; simpl;
    [reflexivity|]. rewrite H, IH. reflexivity.
Qed.

(** A decision changes no avatar's settings. *)
Lemma executeDecision_settings oracle now idn cur avatarId decision prev :
  map settings
    (avatars (executeDecision oracle now idn cur avatarId decision prev))
  = map settings (avatars prev).
Proof.
  unfold executeDecision, applyDecision.
  destruct (JS.findIndex _ (avatars prev)) as [k|]; [|reflexivity].
  destruct (nth_error (avatars prev) k) as [av|]; [|reflexivity].
  cbn [avatars with_avatars_conversations]. unfold JS.mapi.
  rewrite (mapi_from_map settings _ settings)
    by (intros a i; destruct (Nat.eqb i k); reflexivity).
  unfold resolvedLocals.
  destruct (resolve_switch_avatars now idn prev avatarId av
              (r_params (prepareDecision oracle cur avatarId decision))
              (initialLocals prev av
                 (prepareDecision oracle cur avatarId decision)))
    as [f [Hf Hshape]].
  rewrite Hf. cbn [nextAvatars initialLocals]. rewrite map_map.
  apply map_ext. intros a.
  destruct (Hshape a) as [E | [_ [t [act E]]]]; rewrite E; reflexivity.
Qed.

Lemma In_update_at {A : Type} (f : A -> A) (l : list A) (i : nat) (c : A) :
  In c (update_at i f l) -> In c l \/ exists c0, In c0 l /\ c = f c0.
Proof.
  revert i. induction l as [|a l IH]; intros [|i] H; simpl in *;
    try contradiction.
  - destruct H as [H | H]; [right; exists a; auto | auto].
  - destruct H as [H | H]; [auto|].
    destruct (IH i H) as [H' | [c0 [H1 H2]]]; [auto|].
    right. exists c0. auto.
Qed.

(** The [switch] keeps every conversation between 1 and 20 messages. *)
Lemma resolve_switch_messages now idn prev avatarId currentAvatar
  updateParams l :
  (forall c, In c (nextConversations l) ->
             (1 <= List.length (messages c) <= 20)%nat) ->
  forall c,
    In c (nextConversations
            (resolve_switch now idn prev avatarId currentAvatar updateParams
               l)) ->
    (1 <= List.length (messages c) <= 20)%nat.
Proof.
  intros Hl.
  assert (Hupd : forall (k : nat) (f : Conversation -> Conversation),
             (forall d, (1 <= List.length (messages d) <= 20)%nat ->
                        (1 <= List.length (messages (f d)) <= 20)%nat) ->
             forall c, In c (update_at k f (nextConversations l)) ->
                       (1 <= List.length (messages c) <= 20)%nat).
  { intros k f Hf c Hin. apply In_update_at in Hin.
    destruct Hin as [Hin | [c0 [Hin E]]]; [auto|].
    subst c. apply Hf. auto. }
  unfold resolve_switch, turn_case, move_case, initiate_case, continue_case,
    disengage_case, downgrade.
  break_match; cbn [nextConversations set_nextAvatars set_nextConversations
                    set_newPosition set_newOrientation
                    set_newConversationTarget set_updateAction
                    set_finalThought];
    try exact Hl.
  - intros c Hin. apply in_app_or in Hin.
    destruct Hin as [Hin | [E | []]]; [auto|]. subst c. simpl. lia.
  - apply Hupd. intros d _. cbn [messages].
    rewrite length_app, slice_last_length. cbn [List.length]. lia.
  - apply Hupd. intros d Hd. exact Hd.
Qed.

Lemma executeDecision_messages oracle now idn cur avatarId decision prev :
  (forall c, In c (conversations prev) ->
             (1 <= List.length (messages c) <= 20)%nat) ->
  forall c,
    In c (conversations
            (executeDecision oracle now idn cur avatarId decision prev)) ->
    (1 <= List.length (messages c) <= 20)%nat.
Proof.
  intros H. unfold executeDecision, applyDecision.
  destruct (JS.findIndex _ (avatars prev)) as [k|]; [|exact H].
  destruct (nth_error (avatars prev) k) as [av|]; [|exact H].
  cbn [conversations with_avatars_conversations]. unfold resolvedLocals.
  apply resolve_switch_messages. exact H.
Qed.

Lemma addLog_length now message level_ avatarId s :
  (List.length (simulationLogs (addLog now message level_ avatarId s))
   <= 101)%nat.
Proof.
  unfold addLog. cbn [simulationLogs].
  rewrite length_app, slice_last_length. cbn [List.length]. lia.
Qed.

Lemma run_with_logs_length now s logs :
  (List.length (simulationLogs s) <= 101)%nat ->
  (List.length (simulationLogs (run_with_logs now (s, logs))) <= 101)%nat.
Proof.
  unfold run_with_logs; simpl. revert s.
  induction logs as [|ml logs IH]; intros s Hs; simpl; [exact Hs|].
  apply IH. apply addLog_length.
Qed.

Lemma initial_capacity (idn : nat) (now : R) :
  within_capacity (createInitialState idn now) /\
  semicircle_eyesight (createInitialState idn now).
Proof.
  unfold within_capacity, semicircle_eyesight. simpl.
  repeat split; try lia; try contradiction.
  intros a [E | [E | []]]; subst a; reflexivity.
Qed.

Lemma step_capacity (w w' : World) :
  step w w' ->
  within_capacity (state w) /\ semicircle_eyesight (state w) ->
  within_capacity (state w') /\ semicircle_eyesight (state w').
Proof.
  intros Hstep [(Hav & Hlog & Hmsg) Heye].
  unfold within_capacity, semicircle_eyesight in *.
  destruct Hstep; cbn [state] in *.
  - (* executeDecision *)
    split; [split; [|split]|].
    + rewrite <- (length_map id), executeDecision_ids, length_map. exact Hav.
    + unfold executeDecision, applyDecision. break_match; exact Hlog.
    + apply executeDecision_messages. exact Hmsg.
    + intros a Hin.
      assert (Hs : In (settings a) (map settings (avatars s))).
      { rewrite <- (executeDecision_settings oracle now n cur avatarId
                      decision s).
        apply in_map. exact Hin. }
      apply in_map_iff in Hs. destruct Hs as [b [Eb Hb]].
      rewrite <- Eb. apply Heye. exact Hb.
  - (* addLog *)
    split; [split; [exact Hav | split; [apply addLog_length | exact Hmsg]]
           | exact Heye].
  - (* addAvatar *)
    unfold addAvatar, addAvatar_update.
    destruct (Nat.leb 10 (List.length (avatars s))) eqn:E;
      match goal with
      | |- context [run_with_logs now (?s', ?logs)] =>
          destruct (run_with_logs_core now s' logs) as (Ea & _ & _ & Ec & _);
          pose proof (run_with_logs_length now s' logs) as Hl
      end;
      rewrite Ea, Ec;
      cbn [avatars conversations simulationLogs with_avatars_conversations]
        in *.
    + split; [split; [exact Hav | split; [exact (Hl Hlog) | exact Hmsg]]
             | exact Heye].
    + apply Nat.leb_gt in E.
      split; [split; [|split; [exact (Hl Hlog) | exact Hmsg]]|].
      * rewrite length_app. simpl. lia.
      * intros a Hin. apply in_app_or in Hin.
        destruct Hin as [Hin | [Ea' | []]]; [auto|]. subst a. reflexivity.
  - (* removeAvatar *)
    unfold removeAvatar, removeAvatar_update.
    destruct (Nat.leb (List.length (avatars s)) 2) eqn:E;
      match goal with
      | |- context [run_with_logs now (?s', ?logs)] =>
          destruct (run_with_logs_core now s' logs) as (Ea & _ & _ & Ec & _);
          pose proof (run_with_logs_length now s' logs) as Hl
      end;
      rewrite Ea, Ec;
      cbn [avatars conversations simulationLogs with_avatars_conversations]
        in *.
    + split; [split; [exact Hav | split; [exact (Hl Hlog) | exact Hmsg]]
             | exact Heye].
    + split; [split; [|split; [exact (Hl Hlog)|]]|].
      * rewrite length_map.
        pose proof (filter_length_le
                      (fun a => negb (String.eqb (id a) avatarId))
                      (avatars s)). lia.
      * intros c Hin. apply in_map_iff in Hin.
        destruct Hin as [c0 [Ec0 Hin]]. subst c.
        destruct (ends_with avatarId c0); cbn [messages]; auto.
      * intros a Hin. apply in_map_iff in Hin.
        destruct Hin as [a0 [Ea0 Hin]]. apply filter_In in Hin.
        destruct Hin as [Hin _]. subst a.
        destruct (existsb _ _); cbn [settings with_conversation]; auto.
  - (* updateAvatarSettings *)
    unfold updateAvatarSettings.
    cbn [avatars conversations simulationLogs with_avatars_conversations].
    split; [split; [rewrite length_map; exact Hav | auto]|].
    intros a Hin. apply in_map_iff in Hin. destruct Hin as [a0 [Ea0 Hin]].
    subst a. destruct (String.eqb (id a0) avatarId); [|auto].
    cbn [settings eyesight].
    destruct (new_eyesight settingUpdates); [reflexivity | auto].
  - (* resizeBoard *)
    unfold resizeBoard. cbn [avatars conversations simulationLogs].
    split; [split; [rewrite length_map; exact Hav | auto]|].
    intros a Hin. apply in_map_iff in Hin. destruct Hin as [a0 [Ea0 Hin]].
    subst a. cbn [settings clampAvatar]. auto.
  - (* updateSimulationSettings *) auto.
  - (* toggleSimulation *) auto.
  - (* pauseSimulation *)
    unfold pauseSimulation. destruct (isRunning s); auto.
  - (* resetSimulation *)
    apply initial_capacity.
  - (* addObstacle *) auto.
  - (* removeObstacle *) auto.
  - (* addObject *) auto.
  - (* updateObjectDescription *) auto.
  - (* removeObject *) auto.
Qed.

Lemma reachable_capacity (w : World) :
  reachable w ->
  within_capacity (state w) /\ semicircle_eyesight (state w).
Proof.
  induction 1 as [idn now | w w' _ IH Hstep].
  - apply initial_capacity.
  - exact (step_capacity w w' Hstep IH).
Qed.

(** X16: every reachable world stays within the caps of the mutators: it
    has at most 10 avatars ([addAvatar] refuses an eleventh), its event log
    has at most 101 entries ([addLog] keeps the last 100 before the new
    one), and each of its conversations holds between 1 and 20 messages. *)
Theorem reachable_worlds_stay_within_capacity (w : World) :
  reachable w -> within_capacity (state w).
Proof. intros Hw. exact (proj1 (reachable_capacity w Hw)). Qed.

Lemma reachable_worlds_stay_within_capacity_witness :
  within_capacity stranded_world.
Proof.
  apply (reachable_worlds_stay_within_capacity (mkWorld 6 stranded_world)).
  exact reachable_stranded_world.
Defined.

(** X17: in every reachable world every avatar's eyesight angle is 180
    degrees: the two default avatars and every added avatar start with it,
    and [updateAvatarSettings] writes 180 whenever it updates the eyesight,
    whatever angle the update asks for. *)
Theorem reachable_avatars_see_a_semicircle (w : World) :
  reachable w -> semicircle_eyesight (state w).
Proof. intros Hw. exact (proj2 (reachable_capacity w Hw)). Qed.

Lemma reachable_avatars_see_a_semicircle_witness :
  semicircle_eyesight
    (updateAvatarSettings (generateId "avatar" 0)
       (mkPartialAvatarSettings None None None None
          (Some (mkPartialEyesight (Some 50) (Some 90))) None)
       initial_world).
Proof.
  apply (reachable_avatars_see_a_semicircle
           (mkWorld 5
              (updateAvatarSettings (generateId "avatar" 0)
                 (mkPartialAvatarSettings None None None None
                    (Some (mkPartialEyesight (Some 50) (Some 90))) None)
                 initial_world))).
  apply reachable_step with (w := mkWorld 5 initial_world).
  - apply (reachable_initial 0 0).
  - apply step_updateAvatarSettings.
Defined.

(** ** Perception *)

(** What the visibility test returns. *)
Lemma isVisible_reads avatar obstacles_ targetPos :
  exists b,
    isVisible avatar obstacles_ targetPos
    = (b, distance (position avatar) targetPos) /\
    (b = true <-> in_sight avatar targetPos).
Proof.
  rewrite isVisible_unfold. eexists. split; [reflexivity|].
  pose proof (distance_nonneg (position avatar) targetPos) as Hnn.
  unfold in_sight, spec_visible. rewrite <- cone_test.
  rewrite andb_true_iff, negb_true_iff, orb_false_iff.
  unfold JS.gt. rewrite lt_false, eq_false. intuition lra.
Qed.

(** X18: the avatars and objects of a perception snapshot.  An entry of
    [visibleAvatars] stands for an avatar other than the observer that is
    in sight (away from the observer, within the eyesight radius, inside the
    cone), with its id, its position and the rounded distance to it; every
    such avatar has its entry; the observer never sees itself.  The entries
    of [visibleObjects] stand for the objects in sight in the same way. *)
Theorem perception_lists_what_is_in_sight
  avatar allAvatars objects_ obstacles_ bs :
  (forall v,
     In v (visibleAvatars
             (getSensoryInput avatar allAvatars objects_ obstacles_ bs)) <->
     exists other,
       In other allAvatars /\ id other <> id avatar /\
       in_sight avatar (position other) /\
       v = mkVisibleAvatar (id other) (position other)
             (JS.round (distance (position avatar) (position other)))) /\
  (forall v,
     In v (visibleObjects
             (getSensoryInput avatar allAvatars objects_ obstacles_ bs)) <->
     exists obj,
       In obj objects_ /\ in_sight avatar (obj_position obj) /\
       v = mkVisibleObject (obj_id obj) (obj_position obj) (description obj)
             (JS.round (distance (position avatar) (obj_position obj)))).
Proof.
  unfold getSensoryInput. cbn [visibleAvatars visibleObjects]. split.
  - intros v. rewrite in_flat_map. split.
    + intros [other [Hin Hv]].
      destruct (String.eqb (id other) (id avatar)) eqn:E; [contradiction|].
      apply String.eqb_neq in E.
      destruct (isVisible_reads avatar obstacles_ (position other))
        as [b [Eb Hb]].
      rewrite Eb in Hv. destruct b; [|contradiction].
      destruct Hv as [Hv | []]. exists other.
      split; [exact Hin|]. split; [exact E|].
      split; [apply Hb; reflexivity | symmetry; exact Hv].
    + intros [other [Hin [Hne [Hs Hv]]]]. exists other.
      split; [exact Hin|]. apply String.eqb_neq in Hne. rewrite Hne.
      destruct (isVisible_reads avatar obstacles_ (position other))
        as [b [Eb Hb]].
      rewrite Eb. apply Hb in Hs. subst b. left. symmetry. exact Hv.
  - intros v. rewrite in_flat_map. split.
    + intros [obj [Hin Hv]].
      destruct (isVisible_reads avatar obstacles_ (obj_position obj))
        as [b [Eb Hb]].
      rewrite Eb in Hv. destruct b; [|contradiction].
      destruct Hv as [Hv | []]. exists obj.
      split; [exact Hin|].
      split; [apply Hb; reflexivity | symmetry; exact Hv].
    + intros [obj [Hin [Hs Hv]]]. exists obj.
      split; [exact Hin|].
      destruct (isVisible_reads avatar obstacles_ (obj_position obj))
        as [b [Eb Hb]].
      rewrite Eb. apply Hb in Hs. subst b. left. symmetry. exact Hv.
Qed.

(** The loop over the sample points keeps the least distance of the points
    in sight it has met. *)
Lemma sample_loop avatar obstacles_ (l : list Vector2) (acc : option R) :
  match
    fold_left
      (fun acc point =>
         let '(visible, dist) := isVisible avatar obstacles_ point in
         if visible then
           match acc with
           | Some c => Some (Rmin c dist)
           | None => Some dist
           end
         else acc)
      l acc
  with
  | None => acc = None /\ forall p, In p l -> ~ in_sight avatar p
  | Some c =>
      (acc = Some c \/
       exists p, In p l /\ in_sight avatar p /\
                 c = distance (position avatar) p) /\
      (forall a, acc = Some a -> c <= a) /\
      (forall q, In q l -> in_sight avatar q ->
                 c <= distance (position avatar) q)
  end.
Proof.
  revert acc. induction l as [|p l IH]; intros acc.
  - simpl. destruct acc as [a|].
    + split; [left; reflexivity|]. split.
      * intros a' E. injection E as E. lra.
      * intros q [].
    + split; [reflexivity | intros p []].
  - cbn [fold_left].
    destruct (isVisible_reads avatar obstacles_ p) as [b [Eb Hb]].
    rewrite Eb. destruct b.
    + assert (Hp : in_sight avatar p) by (apply Hb; reflexivity).
      destruct acc as [a|].
      * specialize (IH (Some (Rmin a (distance (position avatar) p)))).
        destruct (fold_left _ l _) as [c|].
        -- destruct IH as [Hfrom [Hle Hall]].
           pose proof (Hle _ eq_refl) as Hc.
           split; [|split].
           ++ destruct Hfrom as [E | [q [Hq [Hs Ec]]]].
              ** injection E as E. unfold Rmin in E.
                 destruct (Rle_dec a (distance (position avatar) p)).
                 --- left. f_equal. exact E.
                 --- right. exists p. split; [left; reflexivity|].
                     split; [exact Hp | symmetry; exact E].
              ** right. exists q. split; [right; exact Hq | auto].
           ++ intros a' E. injection E as E. subst a'.
              apply Rle_trans with (Rmin a (distance (position avatar) p));
                [exact Hc | apply Rmin_l].
           ++ intros q [E | Hq] Hs.
              ** subst q.
                 apply Rle_trans with (Rmin a (distance (position avatar) p));
                   [exact Hc | apply Rmin_r].
              ** apply Hall; assumption.
        -- destruct IH as [E _]. discriminate E.
      * specialize (IH (Some (distance (position avatar) p))).
        destruct (fold_left _ l _) as [c|].
        -- destruct IH as [Hfrom [Hle Hall]].
           pose proof (Hle _ eq_refl) as Hc.
           split; [|split].
           ++ right. destruct Hfrom as [E | [q [Hq [Hs Ec]]]].
              ** injection E as E. exists p. split; [left; reflexivity|].
                 split; [exact Hp | symmetry; exact E].
              ** exists q. split; [right; exact Hq | auto].
           ++ intros a' E. discriminate E.
           ++ intros q [E | Hq] Hs; [subst q; exact Hc | auto].
        -- destruct IH as [E _]. discriminate E.
    + assert (Hp : ~ in_sight avatar p).
      { intros Hs. apply Hb in Hs. discriminate Hs. }
      specialize (IH acc). destruct (fold_left _ l acc) as [c|].
      * destruct IH as [Hfrom [Hle Hall]]. split; [|split].
        -- destruct Hfrom as [E | [q [Hq [Hs Ec]]]]; [left; exact E|].
           right. exists q. split; [right; exact Hq | auto].
        -- exact Hle.
        -- intros q [E | Hq] Hs; [subst q; contradiction | auto].
      * destruct IH as [E Hall]. split; [exact E|].
        intros q [Eq | Hq]; [subst q; exact Hp | auto].
Qed.

(** X19: the obstacles of a perception snapshot.  An obstacle is sampled at
    its four corners and its centre; it is listed exactly when one of the
    five points is in sight, and the distance reported for it is the rounded
    least distance of its sample points in sight. *)
Theorem perception_lists_obstacles_by_their_samples
  avatar allAvatars objects_ obstacles_ bs :
  forall v,
    In v (visibleObstacles
            (getSensoryInput avatar allAvatars objects_ obstacles_ bs)) <->
    exists ob c,
      In ob obstacles_ /\ nearest_sample_in_sight avatar ob c /\
      v = mkVisibleObstacle (obs_id ob) (obs_position ob) (size ob)
            (JS.round c).
Proof.
  intros v. unfold getSensoryInput. cbn [visibleObstacles].
  rewrite in_flat_map. unfold closestVisibleDist, nearest_sample_in_sight.
  split.
  - intros [ob [Hin Hv]].
    pose proof (sample_loop avatar obstacles_ (pointsToCheck ob) None) as Hl.
    destruct (fold_left _ (pointsToCheck ob) None) as [c|]; [|contradiction].
    destruct Hv as [Hv | []]. destruct Hl as [Hfrom [_ Hall]].
    exists ob, c. split; [exact Hin|]. split; [|symmetry; exact Hv].
    split; [|exact Hall].
    destruct Hfrom as [E | H]; [discriminate E | exact H].
  - intros [ob [c [Hin [[[p [Hp [Hs Ec]]] Hmin] Hv]]]]. exists ob.
    split; [exact Hin|].
    pose proof (sample_loop avatar obstacles_ (pointsToCheck ob) None) as Hl.
    destruct (fold_left _ (pointsToCheck ob) None) as [c'|].
    + destruct Hl as [Hfrom [_ Hall]].
      destruct Hfrom as [E | [q [Hq [Hsq Ec']]]]; [discriminate E|].
      assert (Hcc : c' = c).
      { apply Rle_antisym.
        - rewrite Ec. apply Hall; assumption.
        - rewrite Ec'. apply Hmin; assumption. }
      rewrite Hcc. left. symmetry. exact Hv.
    + destruct Hl as [_ Hnone]. exfalso. exact (Hnone p Hp Hs).
Qed.

(** ** The simulation loop *)

(** X20: the actions the loop offers to an avatar.  Turn, move, think and
    idle are always offered; interact_object exactly when an object is in
    the snapshot and the avatar is not in a conversation;
    initiate_conversation exactly when an avatar is in the snapshot and the
    avatar is not in a conversation; continue_conversation and
    disengage_conversation exactly when it is in one.  No action is offered
    twice. *)
Theorem availableActions_offers_what_the_avatar_can_do
  (sensoryInput : SensoryInput) (avatar : AvatarState) :
  (forall a,
     In a (availableActions sensoryInput avatar) <->
     a = "turn" \/ a = "move" \/ a = "think" \/ a = "idle" \/
     (a = "interact_object" /\ visibleObjects sensoryInput <> [] /\
      JS.truthy (conversationTarget avatar) = None) \/
     (a = "initiate_conversation" /\ visibleAvatars sensoryInput <> [] /\
      JS.truthy (conversationTarget avatar) = None) \/
     ((a = "continue_conversation" \/ a = "disengage_conversation") /\
      JS.truthy (conversationTarget avatar) <> None)) /\
  NoDup (availableActions sensoryInput avatar).
Proof.
  unfold availableActions.
  destruct (JS.truthy (conversationTarget avatar)) as [t|];
    destruct (visibleAvatars sensoryInput) as [|va vas];
    destruct (visibleObjects sensoryInput) as [|vo vos];
    cbn.
  all: split.
  all: try (repeat constructor; simpl; intuition discriminate).
  all: intros a; split.
  all: try (intros H; repeat (destruct H as [H | H]; [subst a|]);
            try contradiction; auto 10;
            try (right; right; right; right; right; right;
                 split; [auto | discriminate]);
            try (right; right; right; right; left;
                 repeat split; discriminate);
            try (right; right; right; right; right; left;
                 repeat split; discriminate); fail).
  all: intros H; intuition (subst; auto 10; congruence).
Qed.

(** X21: the conversation history handed to the decision flow is the tail
    of the avatar's open conversation: at most the last five messages of a
    conversation that has not ended and has the avatar and its conversation
    target as participants. *)
Theorem conversationHistory_is_the_tail_of_the_open_conversation
  (s : AppState) (avatar : AvatarState) (h : list ConversationMessage) :
  conversationHistory s avatar = Some h ->
  (List.length h <= 5)%nat /\
  exists t c pre,
    JS.truthy (conversationTarget avatar) = Some t /\
    In c (conversations s) /\
    includes c (id avatar) = true /\ includes c t = true /\
    not_ended c = true /\
    messages c = pre ++ h /\
    (List.length (messages c) <= 5 -> pre = [])%nat.
Proof.
  unfold conversationHistory.
  destruct (JS.truthy (conversationTarget avatar)) as [t|]; [|discriminate].
  destruct (find _ (conversations s)) as [c|] eqn:Ef; [|discriminate].
  intros E. injection E as E. subst h.
  apply find_some in Ef. destruct Ef as [Hin Hact].
  unfold active_between in Hact.
  apply andb_true_iff in Hact. destruct Hact as [Hact Hne].
  apply andb_true_iff in Hact. destruct Hact as [H1 H2].
  split; [rewrite slice_last_length; lia|].
  exists t, c, (firstn (List.length (messages c) - 5) (messages c)).
  repeat split; try assumption.
  - unfold JS.slice_last. symmetry. apply firstn_skipn.
  - intros Hle.
    replace (List.length (messages c) - 5)%nat with 0%nat by lia.
    reflexivity.
Qed.

Lemma conversationHistory_is_the_tail_of_the_open_conversation_witness :
  exists h,
    conversationHistory greeted_world
      (with_conversation first_avatar (Some (generateId "avatar" 1))
         (Some "conversing"))
    = Some h /\
    (List.length h <= 5)%nat.
Proof.
  eexists. split; [vm_compute; reflexivity|].
  apply (conversationHistory_is_the_tail_of_the_open_conversation
           greeted_world
           (with_conversation first_avatar (Some (generateId "avatar" 1))
              (Some "conversing"))).
  vm_compute. reflexivity.
Defined.

(** ** Resizing the board, again *)

Lemma clamp_twice (lo hi v : R) :
  Rmin (Rmax (Rmin (Rmax v lo) hi) lo) hi = Rmin (Rmax v lo) hi.
Proof. minmax. Qed.

(** X22: after [resizeBoard] the board is at least 100 x 100 and no smaller
    than asked for, every avatar centre is at least 8 and every object
    centre at least 5 from each edge, and every obstacle that is no larger
    than the board lies within it; the ids and settings of the avatars, the
    conversations and the running flag are unchanged. *)
Theorem resizeBoard_puts_everything_on_the_board
  (newSize : BoardSize) (prev : AppState) :
  boardSize (simulation (resizeBoard newSize prev)) = finalSize_of newSize /\
  100 <= width (finalSize_of newSize) /\
  100 <= height (finalSize_of newSize) /\
  width newSize <= width (finalSize_of newSize) /\
  height newSize <= height (finalSize_of newSize) /\
  (forall a, In a (avatars (resizeBoard newSize prev)) ->
             avatar_inset (finalSize_of newSize) a) /\
  (forall o, In o (objects (resizeBoard newSize prev)) ->
             object_inset (finalSize_of newSize) o) /\
  (forall ob, In ob (obstacles (resizeBoard newSize prev)) ->
              0 <= x (size ob) <= width (finalSize_of newSize) ->
              0 <= y (size ob) <= height (finalSize_of newSize) ->
              obstacle_within (finalSize_of newSize) ob) /\
  map id (avatars (resizeBoard newSize prev)) = map id (avatars prev) /\
  map settings (avatars (resizeBoard newSize prev))
  = map settings (avatars prev) /\
  conversations (resizeBoard newSize prev) = conversations prev /\
  isRunning (resizeBoard newSize prev) = isRunning prev.
Proof.
  assert (Hw : 100 <= width (finalSize_of newSize))
    by (unfold finalSize_of; simpl; minmax).
  assert (Hh : 100 <= height (finalSize_of newSize))
    by (unfold finalSize_of; simpl; minmax).
  split; [reflexivity|]. split; [exact Hw|]. split; [exact Hh|].
  split; [unfold finalSize_of; simpl; minmax|].
  split; [unfold finalSize_of; simpl; minmax|].
  unfold resizeBoard. cbn [avatars objects obstacles conversations isRunning].
  split; [|split; [|split; [|split; [|split; [|split]]]]].
  - intros a Hin. apply in_map_iff in Hin. destruct Hin as [a0 [E _]].
    subst a. unfold avatar_inset, clampAvatar. cbn [position x y].
    repeat split; minmax.
  - intros o Hin. apply in_map_iff in Hin. destruct Hin as [o0 [E _]].
    subst o. unfold object_inset, clampObject. cbn [obj_position x y].
    repeat split; minmax.
  - intros ob Hin Hx Hy. apply filter_In in Hin. destruct Hin as [Hin _].
    apply in_map_iff in Hin. destruct Hin as [ob0 [E _]]. subst ob.
    apply clampObstacle_within; assumption.
  - rewrite map_map. reflexivity.
  - rewrite map_map. reflexivity.
  - reflexivity.
  - reflexivity.
Qed.

Lemma clampAvatar_twice (fs : BoardSize) (a : AvatarState) :
  clampAvatar fs (clampAvatar fs a) = clampAvatar fs a.
Proof.
  unfold clampAvatar. cbn [id position orientation settings color
    currentAction conversationTarget lastActionTime thought nextDecisionTime
    x y].
  rewrite !clamp_twice. reflexivity.
Qed.

Lemma clampObject_twice (fs : BoardSize) (o : ArenaObject) :
  clampObject fs (clampObject fs o) = clampObject fs o.
Proof.
  unfold clampObject. cbn [obj_id obj_position description x y].
  rewrite !clamp_twice. reflexivity.
Qed.

Lemma clampObstacle_twice (fs : BoardSize) (ob : Obstacle) :
  clampObstacle fs (clampObstacle fs ob) = clampObstacle fs ob.
Proof.
  unfold clampObstacle. cbn [obs_id obs_position size x y].
  rewrite !clamp_twice. reflexivity.
Qed.

(** X23: resizing the board twice to the same size is resizing it once:
    the second call finds every avatar and object inside the margins, keeps
    every obstacle the first call kept, and moves nothing. *)
Theorem resizeBoard_idempotent (newSize : BoardSize) (prev : AppState) :
  resizeBoard newSize (resizeBoard newSize prev) = resizeBoard newSize prev.
Proof.
  unfold resizeBoard.
  cbn [avatars objects obstacles conversations isRunning simulationLogs
       simulation mode turnDuration timeScale].
  f_equal.
  - rewrite map_map. apply map_ext. intros a. apply clampAvatar_twice.
  - rewrite map_map. apply map_ext. intros o. apply clampObject_twice.
  - set (l := filter _ (map _ (obstacles prev))).
    assert (Hl : forall ob, In ob l ->
                   clampObstacle (finalSize_of newSize) ob = ob /\
                   keepObstacle (finalSize_of newSize) ob = true).
    { intros ob Hin. unfold l in Hin. apply filter_In in Hin.
      destruct Hin as [Hin Hk]. split; [|exact Hk].
      apply in_map_iff in Hin. destruct Hin as [ob0 [E _]]. subst ob.
      apply clampObstacle_twice. }
    rewrite (map_fixed (clampObstacle (finalSize_of newSize)) l)
      by (intros ob Hin; apply Hl; exact Hin).
    apply filter_all. intros ob Hin. apply Hl. exact Hin.
Qed.

(** ** Editing objects and obstacles *)

(** X24: adding an obstacle (an object) and removing it again restores the
    world, provided its generated id is fresh: no obstacle (object) of the
    world has it. *)
Theorem adding_then_removing_restores_the_world
  (idn : nat) (position_ size_ : Vector2) (s : AppState) :
  (forall ob, In ob (obstacles s) -> obs_id ob <> generateId "obstacle" idn) ->
  (forall o, In o (objects s) -> obj_id o <> generateId "object" idn) ->
  removeObstacle (generateId "obstacle" idn)
    (addObstacle idn position_ size_ s) = s /\
  removeObject (generateId "object" idn) (addObject idn position_ s) = s.
Proof.
  intros Hobs Hobj. destruct s as [avs objs obss convs sim run logs].
  unfold removeObstacle, addObstacle, with_obstacles, removeObject, addObject,
    with_objects.
  cbn [avatars objects obstacles conversations simulation isRunning
       simulationLogs] in *.
  split; f_equal.
  - rewrite filter_app. cbn [filter obs_id].
    rewrite String.eqb_refl. cbn [negb]. rewrite List.app_nil_r.
    apply filter_all. intros ob Hin. apply negb_true_iff.
    apply String.eqb_neq. apply Hobs. exact Hin.
  - rewrite filter_app. cbn [filter obj_id].
    rewrite String.eqb_refl. cbn [negb]. rewrite List.app_nil_r.
    apply filter_all. intros o Hin. apply negb_true_iff.
    apply String.eqb_neq. apply Hobj. exact Hin.
Qed.

Lemma adding_then_removing_restores_the_world_witness :
  removeObstacle (generateId "obstacle" 5)
    (addObstacle 5 (mkVector2 68 40) (mkVector2 20 20) initial_world)
  = initial_world.
Proof.
  destruct (adding_then_removing_restores_the_world 5 (mkVector2 68 40)
              (mkVector2 20 20) initial_world) as [H _].
  - intros ob [E | [E | []]]; subst ob; intros H;
      apply generateId_inj in H; discriminate H.
  - intros o [E | []]; subst o; intros H;
      apply generateId_inj in H; discriminate H.
  - exact H.
Defined.
